(** * A shallow embedding of the search server

    The repository holds two versions of one program, a TF-IDF search
    server over short text documents:

    - [Project70/Source1.cpp], the validating server: it throws
      [invalid_argument] / [out_of_range] on malformed input.  It is
      embedded in the section [Server] below, and the free functions of
      its usage example in module [Usage].
    - the older, non-throwing server (the second source file), whose
      [AddDocument] returns [bool] and merges re-added documents.  It is
      embedded in module [Lenient].

    Both files carry the same small test framework, embedded in module
    [TestFramework].

    Conventions of the embedding:

    - [int] is a [Z] with the 32-bit two's-complement wrap-around written
      out ([wrap_int]); [size_t] values are [nat];
    - [std::string] is [string], one [ascii] per [char]; [char] is signed,
      so a byte with the high bit set is a negative [char];
    - [std::map] is stdpp's [gmap]; where the code iterates over a map the
      embedding iterates over its entries in ascending key order
      ([map_items]); [std::set<string>] of a query is a strictly ascending
      list ([set_insert]); the stop-word set, only ever asked for
      membership, is a [gset];
    - [double] is an abstract type [F] with the operations the code uses
      (class [FloatOps]); nothing is assumed about them.  Statements that
      need arithmetic laws are made for the instance [real_ops], where a
      [double] is idealised as a real number (no rounding);
    - a member function that can throw returns an [outcome]; a mutator
      returns the outcome together with the state it leaves behind;
    - [std::sort] is a parameter [sort] of the ranking functions, used
      through the contract [std_sort] of the C++ standard: a sorted
      rearrangement for a comparator that is a strict weak ordering of the
      range, and nothing for any other comparator.  The comparator of
      [FindTopDocuments] is not always one ([sort_within_contract] says
      when it is); to see what a call outside the contract does, the
      insertion sort and the first partition step of libstdc++ are
      embedded as well;
    - an output stream is the text written to it so far. *)

From Stdlib Require Import ZArith Lia String Ascii List Reals Lra.
From stdpp Require Import gmap strings list sorting pretty.

Local Open Scope string_scope.
Local Open Scope list_scope.
Local Open Scope Z_scope.

(** ** Machine integers *)

Definition wrap_int (z : Z) : Z := (z + 2 ^ 31) mod 2 ^ 32 - 2 ^ 31.

Definition in_int_range (z : Z) : Prop := - 2 ^ 31 <= z < 2 ^ 31.

Definition int_add (a b : Z) : Z := wrap_int (a + b).

(** [a / b] on [int]: the quotient truncated toward zero. *)
Definition int_div (a b : Z) : Z := wrap_int (Z.quot a b).

(** [static_cast<int>(n)] of a [size_t]. *)
Definition static_cast_int (n : nat) : Z := wrap_int (Z.of_nat n).

(** [accumulate(first, last, init)] with an [int] accumulator. *)
Definition accumulate (ratings : list Z) (init : Z) : Z :=
  fold_left int_add ratings init.

Definition computeAverageRating (ratings : list Z) : Z :=
  let ratingsCount := static_cast_int (length ratings) in
  if ratingsCount =? 0 then 0
  else
    let rating_sum := accumulate ratings 0 in
    int_div rating_sum (static_cast_int (length ratings)).

(** ** Characters and words *)

(** The value of a (signed) [char]. *)
Definition char_value (c : ascii) : Z :=
  let n := Z.of_N (N_of_ascii c) in
  if 128 <=? n then n - 256 else n.

(** The <cctype> classification in the "C" locale. *)
Definition iscntrl (c : Z) : bool := ((0 <=? c) && (c <? 32)) || (c =? 127).
Definition isalpha (c : Z) : bool :=
  ((65 <=? c) && (c <=? 90)) || ((97 <=? c) && (c <=? 122)).
Definition isgraph (c : Z) : bool := (33 <=? c) && (c <=? 126).

Definition isValidChar (character : ascii) (isFirst : bool) : bool :=
  if char_value character <? 0 then true
  else if iscntrl (char_value character) then false
  else if isFirst && isalpha (char_value character) then true
  else if negb isFirst && isgraph (char_value character) then true
  else false.

(** The loop of [isValidWord]: [i] is the index of the first character of
    [word]. *)
Fixpoint isValidWord_from (i : nat) (word : string) : bool :=
  match word with
  | EmptyString => true
  | String c rest =>
      if negb (isValidChar c (Nat.eqb i 0)) then false
      else isValidWord_from (S i) rest
  end.

Definition isValidWord (word : string) : bool :=
  match word with
  | EmptyString => false
  | _ => isValidWord_from 0 word
  end.

(** ** Splitting a text into words *)

Definition default_delims : list ascii :=
  [" "; "013"; "010"; "009"; "011"]%char.

Definition is_delim (delims : list ascii) (c : ascii) : bool :=
  bool_decide (c ∈ delims).

(** The first index [>= pos] whose character satisfies [p]; [None] is
    [string::npos]. *)
Fixpoint find_from (p : ascii -> bool) (s : string) (pos : nat) : option nat :=
  match s with
  | EmptyString => None
  | String c rest =>
      match pos with
      | O => if p c then Some O else S <$> find_from p rest O
      | S pos' => S <$> find_from p rest pos'
      end
  end.

Definition find_first_of (s : string) (delims : list ascii) (pos : nat) : option nat :=
  find_from (is_delim delims) s pos.

Definition find_first_not_of (s : string) (delims : list ascii) (pos : nat) : option nat :=
  find_from (fun c => negb (is_delim delims c)) s pos.

(** The [while] loop of [split]; [fuel] bounds the number of rounds. *)
Fixpoint split_loop (fuel : nat) (s : string) (delims : list ascii)
    (begIdx : option nat) (out : list string) : list string :=
  match fuel with
  | O => out
  | S fuel' =>
      match begIdx with
      | None => out
      | Some b =>
          let endIdx := default (String.length s) (find_first_of s delims b) in
          split_loop fuel' s delims
            (find_first_not_of s delims endIdx)
            (out ++ [substring b (endIdx - b) s])
      end
  end.

(** [split(out, s)] into an empty [vector<string>]: the words of [s] in
    order.  Every round consumes at least one character, so
    [S (length s)] rounds are enough ([split_fuel]). *)
Definition split (s : string) : list string :=
  split_loop (S (String.length s)) s default_delims
    (find_first_not_of s default_delims 0) [].

(** ** The words of a text *)

(** [word] is a whitespace-delimited token of [text]: a non-empty run of
    characters that are not delimiters, with a delimiter or the end of
    the text on either side. *)
Definition is_token (text word : string) : Prop :=
  exists before after,
    text = before +:+ word +:+ after
    /\ word <> EmptyString
    /\ Forall (fun c => is_delim default_delims c = false) (list_ascii_of_string word)
    /\ (before = EmptyString
        \/ exists b c, before = b +:+ String c EmptyString /\ is_delim default_delims c = true)
    /\ (after = EmptyString
        \/ exists c a, after = String c a /\ is_delim default_delims c = true).

(** The words of [s] read character by character; [word] holds the
    characters of the word being read. *)
Fixpoint words_from (delims : list ascii) (s : string) (word : string) : list string :=
  match s with
  | EmptyString =>
      match word with
      | EmptyString => []
      | _ => [word]
      end
  | String c rest =>
      if is_delim delims c then
        match word with
        | EmptyString => words_from delims rest EmptyString
        | _ => word :: words_from delims rest EmptyString
        end
      else words_from delims rest (word +:+ String c EmptyString)
  end.

(** [s] without its first [n] characters. *)
Fixpoint string_drop (n : nat) (s : string) : string :=
  match n, s with
  | O, _ => s
  | S n', String _ rest => string_drop n' rest
  | S _, EmptyString => EmptyString
  end.

(** ** [std::set<string>] as a strictly ascending list *)

(** Byte-wise lexicographic order, the order of [std::less<std::string>]:
    a proper prefix comes first, otherwise the first differing bytes
    decide, compared as [unsigned char]. *)
Inductive lex_lt : string -> string -> Prop :=
  | lex_lt_empty c s : lex_lt EmptyString (String c s)
  | lex_lt_head c1 s1 c2 s2 :
      (N_of_ascii c1 < N_of_ascii c2)%N -> lex_lt (String c1 s1) (String c2 s2)
  | lex_lt_tail c s1 s2 : lex_lt s1 s2 -> lex_lt (String c s1) (String c s2).

Fixpoint set_insert (w : string) (s : list string) : list string :=
  match s with
  | [] => [w]
  | x :: rest =>
      match String.compare w x with
      | Lt => w :: s
      | Eq => s
      | Gt => x :: set_insert w rest
      end
  end.

(** ** Exceptions *)

Inductive exception : Type :=
  | invalid_argument (what : string)
  | out_of_range (what : string).

Inductive outcome (A : Type) : Type :=
  | Returned (a : A)
  | Thrown (e : exception).
Arguments Returned {A} a.
Arguments Thrown {A} e.

Definition is_invalid_argument {A} (o : outcome A) : Prop :=
  match o with
  | Thrown (invalid_argument _) => True
  | _ => False
  end.

#[global] Instance outcome_ret : MRet outcome := fun A a => Returned a.
#[global] Instance outcome_bind : MBind outcome := fun A B f o =>
  match o with
  | Returned a => f a
  | Thrown e => Thrown e
  end.

(** A [for] loop over [l] whose body may throw. *)
Fixpoint for_each {A S} (body : S -> A -> outcome S) (l : list A) (s : S) : outcome S :=
  match l with
  | [] => Returned s
  | x :: rest => s' ← body s x; for_each body rest s'
  end.

(** ** Maps *)

(** The entries of a [map<int, V>] in iteration (ascending key) order. *)
Definition key_le {V} (x y : Z * V) : Prop := x.1 <= y.1.

#[global] Instance key_le_dec {V} (x y : Z * V) : Decision (key_le x y).
Proof. unfold key_le. apply _. Defined.

Definition map_items {V} (m : gmap Z V) : list (Z * V) :=
  merge_sort key_le (map_to_list m).

(** [m.emplace(k, v)]: inserts unless the key is present. *)
Definition emplace {K V} `{Countable K} (k : K) (v : V) (m : gmap K V) : gmap K V :=
  match m !! k with
  | Some _ => m
  | None => <[k := v]> m
  end.

(** [m[k]]: the value at [k], default-inserted when absent. *)
Definition subscript {K V} `{Countable K} (dflt : V) (m : gmap K V) (k : K) : V * gmap K V :=
  match m !! k with
  | Some v => (v, m)
  | None => (dflt, <[k := dflt]> m)
  end.

(** [m.at(k)]. *)
Definition map_at {K V} `{Countable K} (m : gmap K V) (k : K) : outcome V :=
  match m !! k with
  | Some v => Returned v
  | None => Thrown (out_of_range "map::at")
  end.

(** ** Documents *)

Inductive DocumentStatus : Type := ACTUAL | IRRELEVANT | BANNED | REMOVED.

#[global] Instance DocumentStatus_eq_dec : EqDecision DocumentStatus.
Proof. solve_decision. Defined.

Module DocumentData.
Record t : Type := mk { rating : Z; status : DocumentStatus; words : list string }.
(** The value-initialised [DocumentData] that [documents_[id]] inserts. *)
Definition zero : t := mk 0 ACTUAL [].
End DocumentData.

Module Document.
Record t (F : Type) : Type := mk { id : Z; relevance : F; rating : Z }.
Arguments mk {F} id relevance rating.
Arguments id {F} _.
Arguments relevance {F} _.
Arguments rating {F} _.
End Document.

Definition MAX_RESULT_DOCUMENT_COUNT : Z := 5.

(** ** The operations on [double] the code uses *)

Class FloatOps (F : Type) : Type := {
  f_zero : F;                    (* 0.0 *)
  f_one : F;                     (* 1.0 *)
  f_of_int : Z -> F;             (* int -> double *)
  f_of_size : nat -> F;          (* size_t -> double *)
  f_add : F -> F -> F;
  f_sub : F -> F -> F;
  f_mul : F -> F -> F;
  f_div : F -> F -> F;
  f_abs : F -> F;
  f_log : F -> F;                (* log of <cmath> *)
  f_lt : F -> F -> bool;
  EPSILON : F                    (* 1e-6 *)
}.

Definition f_gt {F} `{FloatOps F} (a b : F) : bool := f_lt b a.

Module Query.
Record t : Type := mk { plus_words : list string; minus_words : list string }.
(** A default-constructed [Query]. *)
Definition empty : t := mk [] [].
End Query.

Module QueryWord.
Record t : Type := mk { data : string; is_minus : bool; is_stop : bool }.
End QueryWord.

(** The predicate of [FindTopDocuments]: a pure function of a document's
    id, status and rating. *)
Definition DocumentPredicate : Type := Z -> DocumentStatus -> Z -> bool.

(** ** The validating server ([Project70/Source1.cpp]) *)

Section Server.
Context {F : Type} `{FloatOps F}.

Record SearchServer : Type := mkSearchServer {
  word_to_document_freqs_ : gmap string (gmap Z F);
  documents_ : gmap Z DocumentData.t;
  m_stopWords : gset string;
  document_ids_ : list Z
}.

(** [SearchServer() = default]. *)
Definition SearchServer_default : SearchServer := mkSearchServer ∅ ∅ ∅ [].

Definition set_word_to_document_freqs (v : gmap string (gmap Z F)) (self : SearchServer) : SearchServer :=
  mkSearchServer v (documents_ self) (m_stopWords self) (document_ids_ self).
Definition set_documents (v : gmap Z DocumentData.t) (self : SearchServer) : SearchServer :=
  mkSearchServer (word_to_document_freqs_ self) v (m_stopWords self) (document_ids_ self).
Definition set_stopWords (v : gset string) (self : SearchServer) : SearchServer :=
  mkSearchServer (word_to_document_freqs_ self) (documents_ self) v (document_ids_ self).
Definition set_document_ids (v : list Z) (self : SearchServer) : SearchServer :=
  mkSearchServer (word_to_document_freqs_ self) (documents_ self) (m_stopWords self) v.

Definition isStopWord (self : SearchServer) (word : string) : bool :=
  bool_decide (word ∈ m_stopWords self).

(** [SetStopWords(const StringContainer&)]: the words inserted before a
    bad one stay in the set. *)
Fixpoint SetStopWords (stopWords : list string) (self : SearchServer) : outcome unit * SearchServer :=
  match stopWords with
  | [] => (Returned tt, self)
  | stopWord :: rest =>
      if negb (isValidWord stopWord) then (Thrown (invalid_argument "Bad stop word"), self)
      else SetStopWords rest (set_stopWords ({[stopWord]} ∪ m_stopWords self) self)
  end.

(** [SetStopWords(const string&)]: the text is split into a
    [set<string>] first. *)
Definition SetStopWordsText (stopWordsText : string) (self : SearchServer) : outcome unit * SearchServer :=
  let temp := fold_left (fun s w => set_insert w s) (split stopWordsText) [] in
  SetStopWords temp self.

(** [splitIntoWordsNoStop(text, words)]: the [bool] it returns and the
    contents of [words] when it returns. *)
Fixpoint splitIntoWordsNoStop_loop (self : SearchServer) (tempWords words : list string) : bool * list string :=
  match tempWords with
  | [] => (true, words)
  | word :: rest =>
      if negb (isValidWord word) then (false, words)
      else if negb (isStopWord self word) then splitIntoWordsNoStop_loop self rest (words ++ [word])
      else splitIntoWordsNoStop_loop self rest words
  end.

Definition splitIntoWordsNoStop (self : SearchServer) (text : string) (words : list string) : bool * list string :=
  splitIntoWordsNoStop_loop self (split text) words.

(** One round of the loop of [calculateTermFrequency]. *)
Definition addTermOccurrence (documentId : Z) (inv_word_count : F)
    (freqs_ : gmap string (gmap Z F)) (word : string) : gmap string (gmap Z F) :=
  let '(freqs, freqs_) := subscript ∅ freqs_ word in
  let freqs :=
    if bool_decide (freqs !! documentId = None) then <[documentId := f_zero]> freqs
    else freqs in
  let freqs := <[documentId := f_add (default f_zero (freqs !! documentId)) inv_word_count]> freqs in
  <[word := freqs]> freqs_.

Definition calculateTermFrequency (documentId : Z) (self : SearchServer) : SearchServer :=
  let '(data, documents) := subscript DocumentData.zero (documents_ self) documentId in
  let self := set_documents documents self in
  let words := DocumentData.words data in
  let inv_word_count := f_div f_one (f_of_size (length words)) in
  set_word_to_document_freqs
    (fold_left (addTermOccurrence documentId inv_word_count) words (word_to_document_freqs_ self))
    self.

Definition AddDocument (documentId : Z) (document : string) (status : DocumentStatus)
    (ratings : list Z) (self : SearchServer) : outcome unit * SearchServer :=
  if (documentId <? 0) || bool_decide (is_Some (documents_ self !! documentId)) then
    (Thrown (invalid_argument "Bad document id"), self)
  else
    let '(ok, words) := splitIntoWordsNoStop self document [] in
    if negb ok then (Thrown (invalid_argument "Bad document data"), self)
    else
      let self :=
        set_documents
          (emplace documentId (DocumentData.mk (computeAverageRating ratings) status words)
             (documents_ self)) self in
      let self := set_document_ids (document_ids_ self ++ [documentId]) self in
      (Returned tt, calculateTermFrequency documentId self).

Definition GetDocumentCount (self : SearchServer) : Z :=
  static_cast_int (size (documents_ self)).

(** [parseQueryWord(text, qw)]: [None] when it returns [false]. *)
Definition parseQueryWord (self : SearchServer) (text : string) : option QueryWord.t :=
  match text with
  | EmptyString => None
  | String c rest =>
      let '(is_minus, text) :=
        if Ascii.eqb c "-"%char then (true, substring 1 (String.length text - 1) text)
        else (false, text) in
      if negb (isValidWord text) then None
      else Some (QueryWord.mk text is_minus (isStopWord self text))
  end.

(** [parseQuery(text, query)]: the [bool] it returns and [query] when it
    returns. *)
Fixpoint parseQuery_loop (self : SearchServer) (words : list string) (query : Query.t) : bool * Query.t :=
  match words with
  | [] => (true, query)
  | word :: rest =>
      match parseQueryWord self word with
      | None => (false, query)
      | Some query_word =>
          let query :=
            if negb (QueryWord.is_stop query_word) then
              if QueryWord.is_minus query_word then
                Query.mk (Query.plus_words query)
                  (set_insert (QueryWord.data query_word) (Query.minus_words query))
              else
                Query.mk (set_insert (QueryWord.data query_word) (Query.plus_words query))
                  (Query.minus_words query)
            else query in
          parseQuery_loop self rest query
      end
  end.

Definition parseQuery (self : SearchServer) (text : string) (query : Query.t) : bool * Query.t :=
  parseQuery_loop self (split text) query.

Definition computeWordInverseDocumentFreq (self : SearchServer) (word : string) : outcome F :=
  freqs ← map_at (word_to_document_freqs_ self) word;
  mret (f_log (f_div (f_mul (f_of_int (GetDocumentCount self)) f_one) (f_of_size (size freqs)))).

(** The body of the inner loop over the documents of a plus word. *)
Definition addRelevance (self : SearchServer) (document_predicate : DocumentPredicate)
    (inverse_document_freq : F) (document_to_relevance : gmap Z F) (entry : Z * F) : outcome (gmap Z F) :=
  let '(document_id, term_freq) := entry in
  document_data ← map_at (documents_ self) document_id;
  if document_predicate document_id (DocumentData.status document_data) (DocumentData.rating document_data) then
    let '(r, document_to_relevance) := subscript f_zero document_to_relevance document_id in
    mret (<[document_id := f_add r (f_mul term_freq inverse_document_freq)]> document_to_relevance)
  else mret document_to_relevance.

Definition plusWord (self : SearchServer) (document_predicate : DocumentPredicate)
    (document_to_relevance : gmap Z F) (word : string) : outcome (gmap Z F) :=
  match word_to_document_freqs_ self !! word with
  | None => mret document_to_relevance
  | Some freqs =>
      inverse_document_freq ← computeWordInverseDocumentFreq self word;
      for_each (addRelevance self document_predicate inverse_document_freq)
        (map_items freqs) document_to_relevance
  end.

Definition minusWord (self : SearchServer) (document_to_relevance : gmap Z F) (word : string) : gmap Z F :=
  match word_to_document_freqs_ self !! word with
  | None => document_to_relevance
  | Some freqs =>
      fold_left (fun m (entry : Z * F) => delete entry.1 m) (map_items freqs) document_to_relevance
  end.

Definition pushDocument (self : SearchServer) (matched_documents : list (Document.t F))
    (entry : Z * F) : outcome (list (Document.t F)) :=
  document_data ← map_at (documents_ self) entry.1;
  mret (matched_documents ++ [Document.mk entry.1 entry.2 (DocumentData.rating document_data)]).

Definition findAllDocuments (self : SearchServer) (query : Query.t)
    (document_predicate : DocumentPredicate) : outcome (list (Document.t F)) :=
  document_to_relevance ← for_each (plusWord self document_predicate) (Query.plus_words query) ∅;
  let document_to_relevance :=
    fold_left (minusWord self) (Query.minus_words query) document_to_relevance in
  for_each (pushDocument self) (map_items document_to_relevance) [].

(** The comparator passed to [sort]. *)
Definition byRelevance (lhs rhs : Document.t F) : bool :=
  f_gt (Document.relevance lhs) (Document.relevance rhs)
  || (f_lt (f_abs (f_sub (Document.relevance lhs) (Document.relevance rhs))) EPSILON
      && (Document.rating rhs <? Document.rating lhs)).

Section Ranking.
Variable sort : (Document.t F -> Document.t F -> bool) -> list (Document.t F) -> list (Document.t F).

Definition FindTopDocuments (self : SearchServer) (rawQuery : string)
    (document_predicate : DocumentPredicate) : outcome (list (Document.t F)) :=
  let '(ok, query) := parseQuery self rawQuery Query.empty in
  if negb ok then Thrown (invalid_argument "Bad query")
  else
    matched_documents ← findAllDocuments self query document_predicate;
    let matched_documents := sort byRelevance matched_documents in
    if MAX_RESULT_DOCUMENT_COUNT <? Z.of_nat (length matched_documents) then
      mret (take (Z.to_nat MAX_RESULT_DOCUMENT_COUNT) matched_documents)
    else mret matched_documents.

Definition FindTopDocumentsByStatus (self : SearchServer) (rawQuery : string)
    (status : DocumentStatus) : outcome (list (Document.t F)) :=
  FindTopDocuments self rawQuery
    (fun document_id document_status rating => bool_decide (document_status = status)).

Definition FindTopDocumentsActual (self : SearchServer) (rawQuery : string) : outcome (list (Document.t F)) :=
  FindTopDocumentsByStatus self rawQuery ACTUAL.

End Ranking.

(** The two loops of [MatchDocument]. *)
Definition matchPlusWord (self : SearchServer) (documentId : Z)
    (matched_words : list string) (word : string) : list string :=
  match word_to_document_freqs_ self !! word with
  | None => matched_words
  | Some freqs =>
      if bool_decide (is_Some (freqs !! documentId)) then matched_words ++ [word]
      else matched_words
  end.

Fixpoint matchMinusWords (self : SearchServer) (documentId : Z)
    (minus_words : list string) (matched_words : list string) : list string :=
  match minus_words with
  | [] => matched_words
  | word :: rest =>
      match word_to_document_freqs_ self !! word with
      | None => matchMinusWords self documentId rest matched_words
      | Some freqs =>
          if bool_decide (is_Some (freqs !! documentId)) then []
          else matchMinusWords self documentId rest matched_words
      end
  end.

Definition MatchDocument (self : SearchServer) (rawQuery : string) (documentId : Z)
    : outcome (list string * DocumentStatus) :=
  let '(ok, query) := parseQuery self rawQuery Query.empty in
  if negb ok then Thrown (invalid_argument "Bad query")
  else
    let matched_words := fold_left (matchPlusWord self documentId) (Query.plus_words query) [] in
    let matched_words := matchMinusWords self documentId (Query.minus_words query) matched_words in
    document_data ← map_at (documents_ self) documentId;
    mret (matched_words, DocumentData.status document_data).

(** [GetDocumentId(index)].  [document_ids_[index]] has no bounds check of
    its own: [None] stands for a read past the end of the vector. *)
Definition GetDocumentId (self : SearchServer) (index : Z) : outcome (option Z) :=
  if (0 <=? index) && (index <? GetDocumentCount self) then
    Returned (document_ids_ self !! Z.to_nat index)
  else Thrown (out_of_range "document index not present").

(** The constructors that take stop words: when [SetStopWords] throws,
    so does the constructor, and there is no server. *)
Definition SearchServer_ofStopWords (stopWords : list string) : outcome SearchServer :=
  let '(result, self) := SetStopWords stopWords SearchServer_default in
  _ ← result; mret self.

Definition SearchServer_ofStopWordsText (stopWordsText : string) : outcome SearchServer :=
  let '(result, self) := SetStopWordsText stopWordsText SearchServer_default in
  _ ← result; mret self.

End Server.

Arguments SearchServer : clear implicits.

(** ** The usage example of [Project70/Source1.cpp]

    The free functions that [main] calls.  [cout] is the text written so
    far; [endl] writes a newline. *)

Definition endl : string := String "010" EmptyString.

(** [e.what()]. *)
Definition what (e : exception) : string :=
  match e with
  | invalid_argument what => what
  | out_of_range what => what
  end.

(** [static_cast<int>(status)]. *)
Definition status_value (status : DocumentStatus) : Z :=
  match status with
  | ACTUAL => 0
  | IRRELEVANT => 1
  | BANNED => 2
  | REMOVED => 3
  end.

Module Usage.
Section Usage.
Context {F : Type} `{FloatOps F}.

Definition PrintMatchDocumentResult (document_id : Z) (words : list string)
    (status : DocumentStatus) (cout : string) : string :=
  let cout :=
    cout +:+ "{ " +:+ "document_id = " +:+ pretty document_id +:+ ", "
         +:+ "status = " +:+ pretty (status_value status) +:+ ", "
         +:+ "words =" in
  let cout := fold_left (fun cout word => cout +:+ " " +:+ word) words cout in
  cout +:+ "}" +:+ endl.

(** [AddDocument(search_server, ...)]: the exception is caught and
    reported. *)
Definition AddDocument (document_id : Z) (document : string) (status : DocumentStatus)
    (ratings : list Z) (search_server : SearchServer F) (cout : string) : SearchServer F * string :=
  match AddDocument document_id document status ratings search_server with
  | (Returned _, search_server) => (search_server, cout)
  | (Thrown e, search_server) =>
      (search_server,
       cout +:+ "Ошибка добавления документа " +:+ pretty document_id +:+ ": " +:+ what e +:+ endl)
  end.

(** The [for] loop of [MatchDocuments] over the indices still to visit:
    the exception that ends it, if any, and the text written.  The outer
    [None] stands for a read past the end of [document_ids_]. *)
Fixpoint MatchDocuments_loop (search_server : SearchServer F) (query : string)
    (indices : list Z) (cout : string) : option (option exception * string) :=
  match indices with
  | [] => Some (None, cout)
  | index :: rest =>
      match GetDocumentId search_server index with
      | Thrown e => Some (Some e, cout)
      | Returned None => None
      | Returned (Some document_id) =>
          match MatchDocument search_server query document_id with
          | Thrown e => Some (Some e, cout)
          | Returned (words, status) =>
              MatchDocuments_loop search_server query rest
                (PrintMatchDocumentResult document_id words status cout)
          end
      end
  end.

Definition MatchDocuments (search_server : SearchServer F) (query : string) (cout : string)
    : option string :=
  let cout := cout +:+ "Матчинг документов по запросу: " +:+ query +:+ endl in
  let document_count := GetDocumentCount search_server in
  '(thrown, cout) ← MatchDocuments_loop search_server query (seqZ 0 document_count) cout;
  match thrown with
  | None => Some cout
  | Some e =>
      Some (cout +:+ "Ошибка матчинга документов на запрос " +:+ query +:+ ": " +:+ what e +:+ endl)
  end.

End Usage.
End Usage.

(** ** The older, non-throwing server (the second source file)

    Its mutators come first; the other public member functions
    ([FindTopDocuments], [GetDocumentCount], [MatchDocument]) are [const]
    and read the maps through [count] and [at] only. *)

Module Lenient.
Section Server.
Context {F : Type} `{FloatOps F}.

(** [SplitIntoWords]: a word ends at every space, and the last word at the
    end of the text. *)
Fixpoint SplitIntoWords_loop (text word : string) (words : list string) : list string :=
  match text with
  | EmptyString => words ++ [word]
  | String c rest =>
      if Ascii.eqb c " "%char then SplitIntoWords_loop rest EmptyString (words ++ [word])
      else SplitIntoWords_loop rest (word +:+ String c EmptyString) words
  end.

Definition SplitIntoWords (text : string) : list string :=
  SplitIntoWords_loop text EmptyString [].

Record SearchServer : Type := mkSearchServer {
  stop_words_ : gset string;
  word_to_document_freqs_ : gmap string (gmap Z F);
  documents_ : gmap Z DocumentData.t
}.

Definition SearchServer_default : SearchServer := mkSearchServer ∅ ∅ ∅.

Definition SetStopWords (text : string) (self : SearchServer) : SearchServer :=
  mkSearchServer
    (fold_left (fun s word => {[word]} ∪ s) (SplitIntoWords text) (stop_words_ self))
    (word_to_document_freqs_ self) (documents_ self).

Definition isStopWord (self : SearchServer) (word : string) : bool :=
  bool_decide (word ∈ stop_words_ self).

Definition splitIntoWordsNoStop (self : SearchServer) (text : string) : list string :=
  fold_left (fun words word => if negb (isStopWord self word) then words ++ [word] else words)
    (SplitIntoWords text) [].

Definition computeAverageRating (ratings : list Z) : Z :=
  let rating_sum := accumulate ratings 0 in
  let ratingsCount := static_cast_int (length ratings) in
  if ratingsCount =? 0 then 0
  else int_div rating_sum (static_cast_int (length ratings)).

(** [addDocumentData]: the [bool] it returns and the documents it leaves. *)
Definition addDocumentData (document_id : Z) (words : list string) (status : DocumentStatus)
    (ratings : list Z) (documents : gmap Z DocumentData.t) : bool * gmap Z DocumentData.t :=
  match documents !! document_id with
  | None =>
      (true, emplace document_id (DocumentData.mk (computeAverageRating ratings) status words) documents)
  | Some old =>
      (false,
       <[document_id :=
           DocumentData.mk (DocumentData.rating old) (DocumentData.status old)
             (DocumentData.words old ++ words)]> documents)
  end.

(** The words of the index in iteration (ascending) order. *)
Definition string_le (a b : string) : Prop := String.leb a b = true.

#[global] Instance string_le_dec (a b : string) : Decision (string_le a b).
Proof. unfold string_le. apply _. Defined.

Definition deleteAllDocumentWords (documentId : Z)
    (freqs_ : gmap string (gmap Z F)) : gmap string (gmap Z F) :=
  (* first loop: erase the document from every word, note the emptied words *)
  let freqs_ := delete documentId <$> freqs_ in
  let emptyWords :=
    List.filter
      (fun word =>
         match freqs_ !! word with
         | Some docFreq => Nat.eqb (size docFreq) 0
         | None => false
         end)
      (merge_sort string_le (map fst (map_to_list freqs_))) in
  (* second loop: erase the emptied words *)
  fold_left (fun m word => delete word m) emptyWords freqs_.

Definition calculateTermFrequency (documentId : Z) (self : SearchServer) : SearchServer :=
  let '(data, documents) := subscript DocumentData.zero (documents_ self) documentId in
  let words := DocumentData.words data in
  let inv_word_count := f_div f_one (f_of_size (length words)) in
  mkSearchServer (stop_words_ self)
    (fold_left (addTermOccurrence documentId inv_word_count) words (word_to_document_freqs_ self))
    documents.

Definition AddDocument (document_id : Z) (document : string) (status : DocumentStatus)
    (ratings : list Z) (self : SearchServer) : bool * SearchServer :=
  match document with
  | EmptyString => (false, self)
  | _ =>
      let '(added, documents) :=
        addDocumentData document_id (splitIntoWordsNoStop self document) status ratings
          (documents_ self) in
      let self := mkSearchServer (stop_words_ self) (word_to_document_freqs_ self) documents in
      let self :=
        if negb added then
          mkSearchServer (stop_words_ self)
            (deleteAllDocumentWords document_id (word_to_document_freqs_ self))
            (documents_ self)
        else self in
      (true, calculateTermFrequency document_id self)
  end.

Definition GetDocumentCount (self : SearchServer) : Z :=
  static_cast_int (size (documents_ self)).

(** [parseQueryWord(text)]: [text[0]] of an empty string is its terminating
    null character, so an empty word is a plus word. *)
Definition parseQueryWord (self : SearchServer) (text : string) : QueryWord.t :=
  let '(is_minus, text) :=
    match text with
    | String c _ =>
        if Ascii.eqb c "-"%char then (true, substring 1 (String.length text - 1) text)
        else (false, text)
    | EmptyString => (false, text)
    end in
  QueryWord.mk text is_minus (isStopWord self text).

(** One round of the loop of [parseQuery]. *)
Definition addQueryWord (self : SearchServer) (query : Query.t) (word : string) : Query.t :=
  let query_word := parseQueryWord self word in
  if negb (QueryWord.is_stop query_word) then
    if QueryWord.is_minus query_word then
      Query.mk (Query.plus_words query)
        (set_insert (QueryWord.data query_word) (Query.minus_words query))
    else
      Query.mk (set_insert (QueryWord.data query_word) (Query.plus_words query))
        (Query.minus_words query)
  else query.

Definition parseQuery (self : SearchServer) (text : string) : Query.t :=
  fold_left (addQueryWord self) (SplitIntoWords text) Query.empty.

Definition computeWordInverseDocumentFreq (self : SearchServer) (word : string) : outcome F :=
  freqs ← map_at (word_to_document_freqs_ self) word;
  mret (f_log (f_div (f_mul (f_of_int (GetDocumentCount self)) f_one) (f_of_size (size freqs)))).

(** The body of the inner loop over the documents of a plus word; the
    status and the rating are looked up with [at] one after the other. *)
Definition addRelevance (self : SearchServer) (fn : DocumentPredicate)
    (inverse_document_freq : F) (document_to_relevance : gmap Z F) (entry : Z * F) : outcome (gmap Z F) :=
  let '(document_id, term_freq) := entry in
  status_data ← map_at (documents_ self) document_id;
  rating_data ← map_at (documents_ self) document_id;
  if fn document_id (DocumentData.status status_data) (DocumentData.rating rating_data) then
    let '(r, document_to_relevance) := subscript f_zero document_to_relevance document_id in
    mret (<[document_id := f_add r (f_mul term_freq inverse_document_freq)]> document_to_relevance)
  else mret document_to_relevance.

Definition plusWord (self : SearchServer) (fn : DocumentPredicate)
    (document_to_relevance : gmap Z F) (word : string) : outcome (gmap Z F) :=
  match word_to_document_freqs_ self !! word with
  | None => mret document_to_relevance
  | Some freqs =>
      inverse_document_freq ← computeWordInverseDocumentFreq self word;
      for_each (addRelevance self fn inverse_document_freq) (map_items freqs) document_to_relevance
  end.

Definition minusWord (self : SearchServer) (document_to_relevance : gmap Z F) (word : string) : gmap Z F :=
  match word_to_document_freqs_ self !! word with
  | None => document_to_relevance
  | Some freqs =>
      fold_left (fun m (entry : Z * F) => delete entry.1 m) (map_items freqs) document_to_relevance
  end.

Definition pushDocument (self : SearchServer) (matched_documents : list (Document.t F))
    (entry : Z * F) : outcome (list (Document.t F)) :=
  document_data ← map_at (documents_ self) entry.1;
  mret (matched_documents ++ [Document.mk entry.1 entry.2 (DocumentData.rating document_data)]).

Definition findAllDocuments (self : SearchServer) (query : Query.t)
    (fn : DocumentPredicate) : outcome (list (Document.t F)) :=
  document_to_relevance ← for_each (plusWord self fn) (Query.plus_words query) ∅;
  let document_to_relevance :=
    fold_left (minusWord self) (Query.minus_words query) document_to_relevance in
  for_each (pushDocument self) (map_items document_to_relevance) [].

Section Ranking.
Variable sort : (Document.t F -> Document.t F -> bool) -> list (Document.t F) -> list (Document.t F).

Definition FindTopDocuments (self : SearchServer) (raw_query : string)
    (fn : DocumentPredicate) : outcome (list (Document.t F)) :=
  let query := parseQuery self raw_query in
  matched_documents ← findAllDocuments self query fn;
  let matched_documents := sort byRelevance matched_documents in
  if MAX_RESULT_DOCUMENT_COUNT <? Z.of_nat (length matched_documents) then
    mret (take (Z.to_nat MAX_RESULT_DOCUMENT_COUNT) matched_documents)
  else mret matched_documents.

Definition FindTopDocumentsByStatus (self : SearchServer) (raw_query : string)
    (statusFilter : DocumentStatus) : outcome (list (Document.t F)) :=
  FindTopDocuments self raw_query
    (fun document_id status rating => bool_decide (status = statusFilter)).

Definition FindTopDocumentsActual (self : SearchServer) (raw_query : string) : outcome (list (Document.t F)) :=
  FindTopDocumentsByStatus self raw_query ACTUAL.

End Ranking.

(** The two loops of [MatchDocument]. *)
Definition matchPlusWord (self : SearchServer) (document_id : Z)
    (matched_words : list string) (word : string) : list string :=
  match word_to_document_freqs_ self !! word with
  | None => matched_words
  | Some freqs =>
      if bool_decide (is_Some (freqs !! document_id)) then matched_words ++ [word]
      else matched_words
  end.

Fixpoint matchMinusWords (self : SearchServer) (document_id : Z)
    (minus_words : list string) (matched_words : list string) : list string :=
  match minus_words with
  | [] => matched_words
  | word :: rest =>
      match word_to_document_freqs_ self !! word with
      | None => matchMinusWords self document_id rest matched_words
      | Some freqs =>
          if bool_decide (is_Some (freqs !! document_id)) then []
          else matchMinusWords self document_id rest matched_words
      end
  end.

Definition MatchDocument (self : SearchServer) (raw_query : string) (document_id : Z)
    : outcome (list string * DocumentStatus) :=
  let query := parseQuery self raw_query in
  let matched_words := fold_left (matchPlusWord self document_id) (Query.plus_words query) [] in
  let matched_words := matchMinusWords self document_id (Query.minus_words query) matched_words in
  document_data ← map_at (documents_ self) document_id;
  mret (matched_words, DocumentData.status document_data).

End Server.
Arguments SearchServer : clear implicits.
End Lenient.

(** ** The test framework (both source files)

    [out] and [cerr] are the text written so far.  A container is given
    as the list of its elements in iteration order, and the [operator<<]
    of its elements as a function [insert]. *)

Module TestFramework.

Section Print.
Context {A : Type} (insert : string -> A -> string).

(** [Print(out, container)]; the state of the loop is the flag [first]
    and the stream. *)
Definition Print (out : string) (container : list A) : string :=
  (fold_left
     (fun (state : bool * string) element =>
        let '(first, out) := state in
        if first then (false, insert out element)
        else (false, insert (out +:+ ", ") element))
     container (true, out)).2.

(** [operator<<] for a [vector], and for a [set]. *)
Definition insert_vector (out : string) (container : list A) : string :=
  let out := out +:+ "[" in
  let out := Print out container in
  out +:+ "]".

Definition insert_set (out : string) (container : list A) : string :=
  let out := out +:+ "{" in
  let out := Print out container in
  out +:+ "}".

End Print.

(** [operator<<] for a [pair], and for a [map]. *)
Definition insert_pair {K V} (insert_key : string -> K -> string)
    (insert_value : string -> V -> string) (out : string) (container : K * V) : string :=
  let out := insert_key out container.1 in
  let out := out +:+ ": " in
  insert_value out container.2.

Definition insert_map {K V} (insert_key : string -> K -> string)
    (insert_value : string -> V -> string) (out : string) (container : list (K * V)) : string :=
  let out := out +:+ "{" in
  let out := Print (insert_pair insert_key insert_value) out container in
  out +:+ "}".

(** [equal(first1, last1, first2)] compares the first range with as many
    elements of the second; [None] stands for a read past the end of the
    second range. *)
Fixpoint equal {A} `{EqDecision A} (range1 range2 : list A) : option bool :=
  match range1 with
  | [] => Some true
  | x :: range1 =>
      match range2 with
      | [] => None
      | y :: range2 => if bool_decide (x = y) then equal range1 range2 else Some false
      end
  end.

(** What an assertion does: it returns, or it writes to [cerr] and calls
    [abort]. *)
Inductive assertion : Type :=
  | Passes
  | Aborts (cerr : string).

(** [AssertEqualImpl] for two [vector]s ([set]s and [map]s are compared
    and reported in the same way). *)
Definition AssertEqualImpl_vector {A} `{EqDecision A} (insert : string -> A -> string)
    (t u : list A) (t_str u_str file func : string) (line : N) (hint : string)
    (cerr : string) : option assertion :=
  same ← equal t u;
  if negb same then
    let cerr := cerr +:+ file +:+ "(" +:+ pretty line +:+ "): " +:+ func +:+ ": " in
    let cerr := cerr +:+ "ASSERT_EQUAL(" +:+ t_str +:+ ", " +:+ u_str +:+ ") failed: " in
    let cerr := insert_vector insert cerr t +:+ " != " in
    let cerr := insert_vector insert cerr u +:+ "." in
    let cerr := if negb (String.eqb hint "") then cerr +:+ " Hint: " +:+ hint else cerr in
    Some (Aborts (cerr +:+ endl))
  else Some Passes.

Definition AssertImpl (value : bool) (expr_str file func : string) (line : N) (hint : string)
    (cerr : string) : assertion :=
  if negb value then
    let cerr := cerr +:+ file +:+ "(" +:+ pretty line +:+ "): " +:+ func +:+ ": " in
    let cerr := cerr +:+ "ASSERT(" +:+ expr_str +:+ ") failed." in
    let cerr := if negb (String.eqb hint "") then cerr +:+ " Hint: " +:+ hint else cerr in
    Aborts (cerr +:+ endl)
  else Passes.

End TestFramework.

(** * Specifications *)

(** ** Programs and reachable states *)

Inductive call : Type :=
  | CallSetStopWords (stopWords : list string)
  | CallSetStopWordsText (stopWordsText : string)
  | CallAddDocument (documentId : Z) (document : string) (status : DocumentStatus) (ratings : list Z).

Definition perform {F} `{FloatOps F} (c : call) (self : SearchServer F) : outcome unit * SearchServer F :=
  match c with
  | CallSetStopWords stopWords => SetStopWords stopWords self
  | CallSetStopWordsText stopWordsText => SetStopWordsText stopWordsText self
  | CallAddDocument documentId document status ratings =>
      AddDocument documentId document status ratings self
  end.

(** The server after the calls, made in order on a default-constructed
    server; a call that throws is caught and the program goes on. *)
Definition run {F} `{FloatOps F} (calls : list call) : SearchServer F :=
  fold_left (fun self c => (perform c self).2) calls SearchServer_default.

(** The states of the validating server that a program can reach: a
    default-constructed server, then any sequence of calls of its mutators
    (a call that throws leaves the state the call had reached). *)
Inductive reachable {F} `{FloatOps F} : SearchServer F -> Prop :=
  | reachable_default : reachable SearchServer_default
  | reachable_SetStopWords self stopWords :
      reachable self -> reachable (SetStopWords stopWords self).2
  | reachable_SetStopWordsText self stopWordsText :
      reachable self -> reachable (SetStopWordsText stopWordsText self).2
  | reachable_AddDocument self documentId document status ratings :
      reachable self -> reachable (AddDocument documentId document status ratings self).2.

(** The usage the server is specified for: the stop words are set before
    the first document is added. *)
Inductive configured_once {F} `{FloatOps F} : SearchServer F -> Prop :=
  | configured_default : configured_once SearchServer_default
  | configured_SetStopWords self stopWords :
      configured_once self -> documents_ self = ∅ ->
      configured_once (SetStopWords stopWords self).2
  | configured_SetStopWordsText self stopWordsText :
      configured_once self -> documents_ self = ∅ ->
      configured_once (SetStopWordsText stopWordsText self).2
  | configured_AddDocument self documentId document status ratings :
      configured_once self ->
      configured_once (AddDocument documentId document status ratings self).2.

(** The states the older server can reach. *)
Inductive lenient_reachable {F} `{FloatOps F} : Lenient.SearchServer F -> Prop :=
  | lenient_reachable_default : lenient_reachable Lenient.SearchServer_default
  | lenient_reachable_SetStopWords self text :
      lenient_reachable self -> lenient_reachable (Lenient.SetStopWords text self)
  | lenient_reachable_AddDocument self document_id document status ratings :
      lenient_reachable self ->
      lenient_reachable (Lenient.AddDocument document_id document status ratings self).2.

(** ** The term index *)

(** No word of the index maps to an empty document map. *)
Definition no_empty_entry {F} (freqs_ : gmap string (gmap Z F)) : Prop :=
  forall word freqs, freqs_ !! word = Some freqs -> freqs <> ∅.

(** [word] indexes [documentId]: the document is a key of the word's
    entry. *)
Definition indexes {F} (freqs_ : gmap string (gmap Z F)) (word : string) (documentId : Z) : Prop :=
  exists freqs, freqs_ !! word = Some freqs /\ is_Some (freqs !! documentId).

(** The same, as the loops of [MatchDocument] and [findAllDocuments] test
    it. *)
Definition indexesb {F} (self : SearchServer F) (documentId : Z) (word : string) : bool :=
  match word_to_document_freqs_ self !! word with
  | None => false
  | Some freqs => bool_decide (is_Some (freqs !! documentId))
  end.

(** Every document of the term index is a stored document. *)
Definition index_closed {F} (self : SearchServer F) : Prop :=
  forall word freqs documentId,
    word_to_document_freqs_ self !! word = Some freqs ->
    is_Some (freqs !! documentId) ->
    is_Some (documents_ self !! documentId).

(** The frequency the index holds for a word and a document. *)
Definition index_lookup {F} (index : gmap string (gmap Z F)) (word : string) (documentId : Z) : option F :=
  freqs ← index !! word; freqs !! documentId.

Definition stored_term_freq {F} (self : SearchServer F) (word : string) (documentId : Z) : option F :=
  index_lookup (word_to_document_freqs_ self) word documentId.

(** What it should be: [inv_word_count] added to 0.0 once per occurrence
    of the word among the stored words of the document, and nothing for
    no occurrence. *)
Definition summed_term_freq {F} `{FloatOps F} (data : DocumentData.t) (word : string) : option F :=
  match count_occ string_dec (DocumentData.words data) word with
  | O => None
  | n =>
      Some (Nat.iter n
              (fun tf => f_add tf (f_div f_one (f_of_size (length (DocumentData.words data)))))
              f_zero)
  end.

(** The term index agrees with the stored documents. *)
Definition index_consistent {F} `{FloatOps F} (self : SearchServer F) : Prop :=
  forall word documentId,
    stored_term_freq self word documentId =
    (data ← documents_ self !! documentId; summed_term_freq data word).

(** No stored word of a document is a stop word. *)
Definition stored_words_not_stop {F} (self : SearchServer F) : Prop :=
  forall documentId data word,
    documents_ self !! documentId = Some data ->
    word ∈ DocumentData.words data ->
    word ∉ m_stopWords self.

(** ** Ratings *)

(** The sum of [ratings] as the mathematical integer it is, and the
    condition that [accumulate] never leaves the range of [int]: every
    running sum is an [int]. *)
Definition sum_Z (ratings : list Z) : Z := fold_right Z.add 0 ratings.

Definition no_overflow (ratings : list Z) : Prop :=
  forall n, in_int_range (sum_Z (take n ratings)).

(** ** What [findAllDocuments] computes *)

(** The inverse document frequency of a word whose entry is [freqs]. *)
Definition inverseDocumentFreq {F} `{FloatOps F} (self : SearchServer F) (freqs : gmap Z F) : F :=
  f_log (f_div (f_mul (f_of_int (GetDocumentCount self)) f_one) (f_of_size (size freqs))).

(** What a plus word adds to the relevance of a document, if anything. *)
Definition contribution {F} `{FloatOps F} (self : SearchServer F)
    (document_predicate : DocumentPredicate) (word : string) (documentId : Z) : option F :=
  freqs ← word_to_document_freqs_ self !! word;
  term_freq ← freqs !! documentId;
  document_data ← documents_ self !! documentId;
  if document_predicate documentId (DocumentData.status document_data)
       (DocumentData.rating document_data)
  then Some (f_mul term_freq (inverseDocumentFreq self freqs))
  else None.

(** The entry of a document in [document_to_relevance] after the loop over
    [plus_words], from its entry [acc] before. *)
Fixpoint relevance_after {F} `{FloatOps F} (self : SearchServer F)
    (document_predicate : DocumentPredicate) (plus_words : list string) (documentId : Z)
    (acc : option F) : option F :=
  match plus_words with
  | [] => acc
  | word :: rest =>
      relevance_after self document_predicate rest documentId
        match contribution self document_predicate word documentId with
        | Some c => Some (f_add (default f_zero acc) c)
        | None => acc
        end
  end.

(** The rating stored for a document (0 when there is none). *)
Definition stored_rating {F} (self : SearchServer F) (documentId : Z) : Z :=
  default 0 (DocumentData.rating <$> documents_ self !! documentId).

(** The [Document] pushed for an entry of [document_to_relevance]. *)
Definition scored {F} (self : SearchServer F) (entry : Z * F) : Document.t F :=
  Document.mk entry.1 entry.2 (stored_rating self entry.1).

(** ** The contract of [std::sort] *)

(** [comp] is a strict weak ordering on the elements of [l]: irreflexive,
    transitive, and with a transitive incomparability. *)
Definition strict_weak_order_on {A} (comp : A -> A -> bool) (l : list A) : Prop :=
  (forall x, x ∈ l -> comp x x = false) /\
  (forall x y z, x ∈ l -> y ∈ l -> z ∈ l ->
     comp x y = true -> comp y z = true -> comp x z = true) /\
  (forall x y z, x ∈ l -> y ∈ l -> z ∈ l ->
     comp x y = false -> comp y x = false ->
     comp y z = false -> comp z y = false ->
     comp x z = false /\ comp z x = false).

(** [x] is not ordered after [y]. *)
Definition not_after {A} (comp : A -> A -> bool) (x y : A) : Prop := comp y x = false.

(** No element is ordered before an earlier one. *)
Definition sorted_by {A} (comp : A -> A -> bool) (l : list A) : Prop :=
  forall i j x y, (i < j)%nat -> l !! i = Some x -> l !! j = Some y -> comp y x = false.

(** What the C++ standard promises of [sort(first, last, comp)], and
    when: [comp] has to be a strict weak ordering (of the elements, which
    is all an implementation sees); the range is then rearranged and
    sorted.  For any other [comp] the behaviour is undefined, and nothing
    is promised of the result. *)
Record std_sort {A} (sort : (A -> A -> bool) -> list A -> list A) : Prop := {
  sort_permutation : forall comp l, strict_weak_order_on comp l -> sort comp l ≡ₚ l;
  sort_sorted : forall comp l, strict_weak_order_on comp l -> sorted_by comp (sort comp l)
}.

(** The call of [sort] in [FindTopDocuments] keeps to that contract: the
    comparator is a strict weak ordering of the documents that match. *)
Definition sort_within_contract {F} `{FloatOps F} (self : SearchServer F) (query : Query.t)
    (document_predicate : DocumentPredicate) : Prop :=
  match findAllDocuments self query document_predicate with
  | Returned matched_documents => strict_weak_order_on byRelevance matched_documents
  | Thrown _ => True
  end.

(** A sort that meets the contract: the insertion sort that the standard
    libraries run on a short range.  An element ordered before the first
    one goes to the front; otherwise [linear_insert] walks back from the
    end of the sorted prefix (given in reverse) while [val] is ordered
    before the element it meets. *)
Fixpoint linear_insert {A} (comp : A -> A -> bool) (val : A) (rev_prefix : list A) : list A :=
  match rev_prefix with
  | [] => [val]
  | prev :: rest =>
      if comp val prev then prev :: linear_insert comp val rest
      else val :: rev_prefix
  end.

Definition insert_sorted {A} (comp : A -> A -> bool) (prefix : list A) (val : A) : list A :=
  match prefix with
  | [] => [val]
  | first :: _ =>
      if comp val first then val :: prefix
      else reverse (linear_insert comp val (reverse prefix))
  end.

Definition insertion_sort {A} (comp : A -> A -> bool) (l : list A) : list A :=
  fold_left (insert_sorted comp) l [].





(** ** [double] idealised as a real number *)

#[global] Instance Rlt_decision (x y : R) : Decision (x < y)%R := Rlt_dec x y.

#[global] Instance real_ops : FloatOps R := {|
  f_zero := 0%R;
  f_one := 1%R;
  f_of_int := IZR;
  f_of_size := fun n => IZR (Z.of_nat n);
  f_add := Rplus;
  f_sub := Rminus;
  f_mul := Rmult;
  f_div := Rdiv;
  f_abs := Rabs;
  f_log := ln;
  f_lt := fun x y => bool_decide (x < y)%R;
  EPSILON := (/ 1000000)%R
|}.

Definition sum_R (l : list R) : R := fold_right Rplus 0%R l.

(** Term frequency: the occurrences of [word] among the stored (non-stop)
    words of a document, divided by their number. *)
Definition termFrequency (word : string) (data : DocumentData.t) : R :=
  (IZR (Z.of_nat (count_occ string_dec (DocumentData.words data) word))
   / IZR (Z.of_nat (length (DocumentData.words data))))%R.

(** The number of stored documents that contain [word]. *)
Definition documentsContaining (self : SearchServer R) (word : string) : nat :=
  size (filter (fun entry : Z * DocumentData.t => word ∈ DocumentData.words entry.2)
          (documents_ self)).

(** Inverse document frequency: the logarithm of the document count over
    the number of documents that contain the word. *)
Definition inverseDocumentFrequency (self : SearchServer R) (word : string) : R :=
  ln (IZR (GetDocumentCount self) / IZR (Z.of_nat (documentsContaining self word))).

(** TF-IDF of a document for a query: the sum over the plus words that
    occur in the document. *)
Definition tfidf (self : SearchServer R) (query : Query.t) (data : DocumentData.t) : R :=
  sum_R
    (map (fun word => (termFrequency word data * inverseDocumentFrequency self word)%R)
       (filter (fun word => word ∈ DocumentData.words data) (Query.plus_words query))).

(** [A] may stand before [B] in a result. *)
Definition ranked_before (A B : Document.t R) : Prop :=
  (Document.relevance A > Document.relevance B)%R \/
  ((Rabs (Document.relevance A - Document.relevance B) < / 1000000)%R /\
   Document.rating A >= Document.rating B).

(** Any two relevances are equal or at least 1e-6 apart. *)
Definition well_separated (l : list (Document.t R)) : Prop :=
  forall x y, x ∈ l -> y ∈ l ->
    Document.relevance x = Document.relevance y \/
    (Rabs (Document.relevance x - Document.relevance y) >= / 1000000)%R.

(** ** Valid words *)

(** What [isValidChar] accepts as the first character of a word, and as a
    later one: a byte with the high bit set (a negative [char]) or, of the
    ASCII characters, a letter, respectively a printing character other
    than the space. *)
Definition valid_first_char (c : ascii) : Prop :=
  char_value c < 0 \/ isalpha (char_value c) = true.

Definition valid_later_char (c : ascii) : Prop :=
  char_value c < 0 \/ isgraph (char_value c) = true.

(** A text free of the delimiters of [split]. *)
Definition delimiter_free (word : string) : Prop :=
  Forall (fun c => is_delim default_delims c = false) (list_ascii_of_string word).
(** ** The document ids *)

(** [document_ids_] lists the stored documents, each once. *)
Definition ids_enumerate_documents {F} (self : SearchServer F) : Prop :=
  NoDup (document_ids_ self) /\
  forall documentId,
    documentId ∈ document_ids_ self <-> is_Some (documents_ self !! documentId).
(** ** The words of a query *)

(** A token of a query without its leading minus sign, if it has one. *)
Definition strip_minus (token : string) : string :=
  match token with
  | String c rest => if Ascii.eqb c "-"%char then rest else token
  | EmptyString => token
  end.

Definition is_minus_token (token : string) : bool :=
  match token with
  | String c _ => Ascii.eqb c "-"%char
  | EmptyString => false
  end.
(** ** The documents a query asks for *)

(** A stored document matches a parsed query under a predicate: the
    predicate accepts it, it holds one of the plus words, and none of the
    minus words. *)
Definition matches {F} (self : SearchServer F) (query : Query.t)
    (document_predicate : DocumentPredicate) (documentId : Z) : Prop :=
  exists data,
    documents_ self !! documentId = Some data /\
    document_predicate documentId (DocumentData.status data) (DocumentData.rating data) = true /\
    (exists word, word ∈ Query.plus_words query /\ word ∈ DocumentData.words data) /\
    (forall word, word ∈ Query.minus_words query -> word ∉ DocumentData.words data).

(** Every token of a query is a valid word, after its minus sign if it has
    one. *)
Definition well_formed_query (rawQuery : string) : Prop :=
  forall token, is_token rawQuery token -> isValidWord (strip_minus token) = true.

(** ** The text [MatchDocuments] writes *)

(** The first line, and the line for a document and what [MatchDocument]
    returned for it. *)
Definition match_header (query : string) : string :=
  "Матчинг документов по запросу: " +:+ query +:+ endl.

Definition match_line (cout : string) (line : Z * (list string * DocumentStatus)) : string :=
  Usage.PrintMatchDocumentResult line.1 line.2.1 line.2.2 cout.

(** ** The older server *)

(** A word without a space. *)
Definition space_free (word : string) : Prop :=
  Forall (fun c => c <> " "%char) (list_ascii_of_string word).

(** The state of the older server as a state of the validating server,
    which keeps a list of ids besides. *)
Definition as_validating {F} (self : Lenient.SearchServer F) : SearchServer F :=
  mkSearchServer (Lenient.word_to_document_freqs_ self) (Lenient.documents_ self)
    (Lenient.stop_words_ self) [].

(** The call of [sort] in [FindTopDocuments] of the older server keeps to
    the contract of [std::sort]. *)
Definition lenient_sort_within_contract {F} `{FloatOps F} (self : Lenient.SearchServer F)
    (raw_query : string) (fn : DocumentPredicate) : Prop :=
  match Lenient.findAllDocuments self (Lenient.parseQuery self raw_query) fn with
  | Returned matched_documents => strict_weak_order_on byRelevance matched_documents
  | Thrown _ => True
  end.

(** ** Example servers *)

(** The server of the first end-to-end scenario. *)
Definition city_server : SearchServer R :=
  run [CallSetStopWordsText "in the"; CallAddDocument 42 "cat in the city" ACTUAL [1; 2; 3]].

(** The server of the second end-to-end scenario. *)
Definition pets_server : SearchServer R :=
  run [CallSetStopWordsText "and in on the";
       CallAddDocument 2 "cat in the city" ACTUAL [3; 1; -1];
       CallAddDocument 7 "a little pig and a white rabbit" ACTUAL [2; 5; 6];
       CallAddDocument 9 "black cat kyle" ACTUAL [4; -2; 5]].

(** Six documents that all match "cat". *)
Definition six_server : SearchServer R :=
  run [CallAddDocument 1 "cat one" ACTUAL [1];
       CallAddDocument 2 "cat two" ACTUAL [2];
       CallAddDocument 3 "cat three" ACTUAL [3];
       CallAddDocument 4 "cat four" ACTUAL [4];
       CallAddDocument 5 "cat five" ACTUAL [5];
       CallAddDocument 6 "cat six" ACTUAL [6]].

(** An older server on which document 1 was added twice. *)
Definition merged_server : Lenient.SearchServer R :=
  (Lenient.AddDocument 1 "the bird" ACTUAL [5]
     (Lenient.AddDocument 1 "cat dog" ACTUAL [3]
        (Lenient.SetStopWords "the" Lenient.SearchServer_default)).2).2.

Fixpoint repeat_text (n : nat) (word : string) : string :=
  match n with
  | O => EmptyString
  | S n' => word +:+ repeat_text n' word
  end.

(** A text of [n] words: one "a", then "b"s. *)
Definition long_text (n : nat) : string := "a" +:+ repeat_text (n - 1) " b".

(** A server with close relevances: three long documents that contain "a"
    once, rated higher the longer they are, and one document without
    "a". *)
Definition close_server : SearchServer R :=
  run [CallAddDocument 1 (long_text 600) ACTUAL [1];
       CallAddDocument 2 (long_text 601) ACTUAL [5];
       CallAddDocument 3 (long_text 602) ACTUAL [9];
       CallAddDocument 4 "b" ACTUAL [1]].

(** The relevance for the query "a" of a document of [n] words on that
    server: one occurrence, in three of four documents. *)
Definition close_relevance (n : Z) : R := (0 + (0 + 1 / IZR n) * ln (4 * 1 / 3))%R.







(** ** The first block of [main] *)

(** The documents [main] adds to its first server, one of them with a
    control character in a word. *)
Definition main_documents : list (Z * string * list Z) :=
  [(1, "пушистый кот пушистый хвост", [7; 2; 7]);
   (1, "пушистый пёс и модный ошейник", [1; 2]);
   (-1, "пушистый пёс и модный ошейник", [1; 2]);
   (3, "большой пёс скво" +:+ String "018" "рец евгений", [1; 3; 2]);
   (4, "большой пёс скворец евгений", [1; 1; 1])].

(** The server and the text written after these calls of the free function
    [AddDocument], from a server and a text. *)
Definition main_AddDocuments (search_server : SearchServer R) (cout : string)
    : SearchServer R * string :=
  fold_left
    (fun (state : SearchServer R * string) (call : Z * string * list Z) =>
       Usage.AddDocument call.1.1 call.1.2 ACTUAL call.2 state.1 state.2)
    main_documents (search_server, cout).

(** * Properties of the embedding *)

(** ** Machine integers *)

Lemma wrap_int_id z : in_int_range z -> wrap_int z = z.
Proof.
  unfold in_int_range, wrap_int. intros Hz.
  rewrite Z.mod_small by lia. lia.
Qed.

Lemma accumulate_sum ratings init :
  (forall n, in_int_range (init + sum_Z (take n ratings))) ->
  accumulate ratings init = init + sum_Z ratings.
Proof.
  unfold accumulate. revert init.
  induction ratings as [|r ratings IH]; intros init Hrange; simpl.
  - lia.
  - assert (Hstep : int_add init r = init + r).
    { unfold int_add. apply wrap_int_id.
      specialize (Hrange 1%nat). cbn in Hrange. rewrite ?take_0 in Hrange.
      cbn in Hrange. replace (init + r) with (init + (r + 0)) by lia. exact Hrange. }
    rewrite Hstep, IH; [lia |].
    intros n. specialize (Hrange (S n)). simpl in Hrange.
    replace (init + r + sum_Z (take n ratings)) with (init + (r + sum_Z (take n ratings))) by lia.
    exact Hrange.
Qed.

Lemma computeAverageRating_mean ratings :
  Z.of_nat (length ratings) < 2 ^ 31 ->
  no_overflow ratings ->
  computeAverageRating ratings =
    match ratings with
    | [] => 0
    | _ => Z.quot (sum_Z ratings) (Z.of_nat (length ratings))
    end.
Proof.
  intros Hlen Hsum. unfold computeAverageRating.
  destruct ratings as [|r ratings]; [reflexivity |].
  set (l := r :: ratings) in *.
  assert (Hpos : 0 < Z.of_nat (length l)) by (subst l; simpl; lia).
  assert (Hcast : static_cast_int (length l) = Z.of_nat (length l)).
  { apply wrap_int_id. unfold in_int_range. lia. }
  rewrite Hcast.
  destruct (Z.eqb_spec (Z.of_nat (length l)) 0) as [Heq|_]; [lia |].
  rewrite accumulate_sum by (intros n; apply Hsum).
  simpl (0 + _).
  unfold int_div. apply wrap_int_id.
  pose proof (Hsum (length l)) as Hall. rewrite firstn_all in Hall.
  unfold in_int_range in *.
  destruct (Z.le_gt_cases 0 (sum_Z l)) as [Hnn|Hneg].
  - pose proof (Z.quot_pos (sum_Z l) (Z.of_nat (length l)) Hnn Hpos).
    pose proof (Z.quot_le_upper_bound (sum_Z l) (Z.of_nat (length l)) (sum_Z l) Hpos).
    nia.
  - pose proof (Z.quot_opp_l (sum_Z l) (Z.of_nat (length l)) ltac:(lia)) as Hopp.
    assert (H0 : 0 <= - sum_Z l) by lia.
    pose proof (Z.quot_pos (- sum_Z l) (Z.of_nat (length l)) H0 Hpos).
    pose proof (Z.quot_le_upper_bound (- sum_Z l) (Z.of_nat (length l)) (- sum_Z l) Hpos).
    nia.
Qed.

(** ** [split] returns the tokens of the text *)

Lemma append_String c (a b : string) : String c a +:+ b = String c (a +:+ b).
Proof. reflexivity. Qed.

Lemma append_empty_l (a : string) : EmptyString +:+ a = a.
Proof. reflexivity. Qed.

Lemma append_assoc (a b c : string) : (a +:+ b) +:+ c = a +:+ (b +:+ c).
Proof.
  induction a as [|x a IH]; [reflexivity |].
  now rewrite !append_String, IH.
Qed.

Lemma append_empty_r (a : string) : a +:+ EmptyString = a.
Proof.
  induction a as [|x a IH]; [reflexivity |].
  now rewrite append_String, IH.
Qed.

Lemma append_nonempty (a : string) c : a +:+ String c EmptyString <> EmptyString.
Proof. destruct a; rewrite ?append_String, ?append_empty_l; discriminate. Qed.

Section Split.
Variable delims : list ascii.

(** The loop sees a text with one more character in front as the same
    text with every index one higher. *)
Lemma split_loop_shift fuel c s begIdx out :
  split_loop fuel (String c s) delims (S <$> begIdx) out = split_loop fuel s delims begIdx out.
Proof.
  revert begIdx out. induction fuel as [|fuel IH]; intros begIdx out; [reflexivity |].
  destruct begIdx as [b|]; [| reflexivity].
  cbn [split_loop fmap option_fmap option_map].
  unfold find_first_of, find_first_not_of. cbn [find_from String.length].
  destruct (find_from (is_delim delims) s b) as [e|];
    cbn [fmap option_fmap option_map default from_option Datatypes.id].
  - rewrite <- IH. reflexivity.
  - rewrite <- IH. cbn [find_from]. reflexivity.
Qed.

Lemma split_loop_drop fuel s e out :
  split_loop fuel s delims (find_first_not_of s delims e) out =
  split_loop fuel (string_drop e s) delims (find_first_not_of (string_drop e s) delims 0) out.
Proof.
  revert s. induction e as [|e IH]; intros s; [reflexivity |].
  destruct s as [|c s]; [reflexivity |].
  unfold find_first_not_of. cbn [find_from string_drop].
  rewrite split_loop_shift. apply IH.
Qed.

(** Reading on in a word: it ends at the next delimiter or at the end of
    the text. *)
Lemma words_from_word s word :
  word <> EmptyString ->
  words_from delims s word =
  (word +:+ substring 0 (default (String.length s) (find_first_of s delims 0)) s)
    :: words_from delims (string_drop (default (String.length s) (find_first_of s delims 0)) s)
         EmptyString.
Proof.
  revert word. induction s as [|c s IH]; intros word Hword.
  - simpl. rewrite append_empty_r. now destruct word.
  - unfold find_first_of. cbn [words_from find_from String.length].
    destruct (is_delim delims c) eqn:Hc; cbn [default from_option Datatypes.id].
    + cbn [substring string_drop words_from]. rewrite Hc, append_empty_r. now destruct word.
    + rewrite (IH (word +:+ String c EmptyString) (append_nonempty word c)).
      unfold find_first_of.
      destruct (find_from (is_delim delims) s 0) as [e|];
        cbn [fmap option_fmap option_map default from_option Datatypes.id substring string_drop];
        now rewrite append_assoc, append_String, append_empty_l.
Qed.

Lemma length_string_drop n s : (String.length (string_drop n s) <= String.length s)%nat.
Proof.
  revert s. induction n as [|n IH]; intros [|c s]; simpl; try lia.
  specialize (IH s). lia.
Qed.

Lemma split_loop_words n s fuel out :
  (String.length s <= n)%nat ->
  (String.length s < fuel)%nat ->
  split_loop fuel s delims (find_first_not_of s delims 0) out
  = out ++ words_from delims s EmptyString.
Proof.
  revert s fuel out. induction n as [|n IH]; intros s fuel out Hn Hfuel.
  - destruct s; [| simpl in Hn; lia]. destruct fuel; simpl; now rewrite app_nil_r.
  - destruct s as [|c s].
    { destruct fuel; simpl; now rewrite app_nil_r. }
    simpl in Hn, Hfuel. unfold find_first_not_of. cbn [find_from words_from].
    destruct (is_delim delims c) eqn:Hc; cbn [negb].
    + rewrite split_loop_shift. apply IH; lia.
    + destruct fuel as [|fuel]; [lia |]. cbn [split_loop].
      unfold find_first_of, find_first_not_of at 1. cbn [find_from String.length]. rewrite Hc.
      set (e := default (String.length s) (find_first_of s delims 0)).
      assert (He : default (S (String.length s)) (S <$> find_from (is_delim delims) s 0) = S e).
      { unfold e, find_first_of. now destruct (find_from (is_delim delims) s 0). }
      rewrite He. cbn [find_from Nat.sub substring].
      rewrite split_loop_shift.
      change (find_from (fun c0 => negb (is_delim delims c0)) s e)
        with (find_first_not_of s delims e).
      rewrite split_loop_drop.
      pose proof (length_string_drop e s) as Hdrop.
      rewrite IH by lia.
      rewrite append_empty_l.
      rewrite (words_from_word s (String c EmptyString)) by discriminate.
      fold e. rewrite append_String, append_empty_l, <- app_assoc. reflexivity.
Qed.

End Split.

(** [split] is the character-by-character reading of the text. *)
Lemma split_words s : split s = words_from default_delims s EmptyString.
Proof. unfold split. now rewrite (split_loop_words default_delims (String.length s)) by lia. Qed.

(** More rounds than [split] allows never change its result. *)
Lemma split_fuel s n :
  (String.length s < n)%nat ->
  split_loop n s default_delims (find_first_not_of s default_delims 0) [] = split s.
Proof.
  intros Hn. rewrite split_words.
  now rewrite (split_loop_words default_delims (String.length s)) by lia.
Qed.

Lemma words_from_no_delim delims word rest acc :
  Forall (fun c => is_delim delims c = false) (list_ascii_of_string word) ->
  words_from delims (word +:+ rest) acc = words_from delims rest (acc +:+ word).
Proof.
  revert acc. induction word as [|c word IH]; intros acc Hword.
  - now rewrite append_empty_l, append_empty_r.
  - simpl in Hword. apply Forall_cons in Hword as [Hc Hword].
    rewrite append_String. cbn [words_from].
    rewrite Hc, (IH _ Hword), append_assoc, append_String, append_empty_l. reflexivity.
Qed.

Lemma words_from_after_delim delims before rest acc x :
  (before = EmptyString /\ acc = EmptyString
   \/ exists b c, before = b +:+ String c EmptyString /\ is_delim delims c = true) ->
  x ∈ words_from delims rest EmptyString ->
  x ∈ words_from delims (before +:+ rest) acc.
Proof.
  revert acc. induction before as [|d before IH]; intros acc Hbefore Hx.
  - destruct Hbefore as [[_ ->] | (b & c & Hb & _)]; [exact Hx |].
    destruct b; discriminate.
  - destruct Hbefore as [[Hb _] | (b & c & Hb & Hc)]; [discriminate |].
    rewrite append_String. cbn [words_from].
    destruct b as [|d' b]; rewrite ?append_String, ?append_empty_l in Hb;
      injection Hb as -> ->.
    + rewrite Hc, append_empty_l. destruct acc; [exact Hx | now right].
    + assert (Hrest : x ∈ words_from delims ((b +:+ String c EmptyString) +:+ rest) EmptyString
                      /\ forall acc', x ∈ words_from delims
                                         ((b +:+ String c EmptyString) +:+ rest) acc').
      { split; [| intros acc']; apply IH; eauto. }
      destruct Hrest as [Hempty Hany].
      destruct (is_delim delims d'); [| apply Hany].
      destruct acc; [exact Hempty | now right].
Qed.

(** Every token of a text is among the words [split] returns. *)
Lemma is_token_split text word : is_token text word -> word ∈ split text.
Proof.
  intros (before & after & -> & Hnonempty & Hword & Hbefore & Hafter).
  rewrite split_words.
  apply words_from_after_delim; [destruct Hbefore as [-> | Hb]; auto |].
  rewrite (words_from_no_delim _ _ _ _ Hword), append_empty_l.
  destruct Hafter as [-> | (c & a & -> & Hc)]; cbn [words_from].
  - destruct word; [congruence | apply list_elem_of_here].
  - rewrite Hc. destruct word; [congruence | apply list_elem_of_here].
Qed.

(** ** [AddDocument] of the validating server *)

Section AddDocumentFacts.
Context {F : Type} `{FloatOps F}.
Implicit Types self : SearchServer F.

(** A call that throws has thrown [invalid_argument] and has left the
    server untouched. *)
Lemma AddDocument_thrown self documentId document status ratings e :
  (AddDocument documentId document status ratings self).1 = Thrown e ->
  (exists what, e = invalid_argument what) /\
  (AddDocument documentId document status ratings self).2 = self.
Proof.
  unfold AddDocument.
  destruct ((documentId <? 0) || bool_decide (is_Some (documents_ self !! documentId))).
  - simpl. intros [= <-]. eauto.
  - destruct (splitIntoWordsNoStop self document []) as [ok words].
    destruct ok; simpl.
    + discriminate.
    + intros [= <-]. eauto.
Qed.

(** A call that returns has stored the document, appended its id and
    folded its words into the term index. *)
Lemma AddDocument_returned self documentId document status ratings :
  (AddDocument documentId document status ratings self).1 = Returned tt ->
  exists words,
    0 <= documentId /\
    documents_ self !! documentId = None /\
    splitIntoWordsNoStop self document [] = (true, words) /\
    (AddDocument documentId document status ratings self).2 =
      mkSearchServer
        (fold_left
           (addTermOccurrence documentId (f_div f_one (f_of_size (length words))))
           words (word_to_document_freqs_ self))
        (<[documentId := DocumentData.mk (computeAverageRating ratings) status words]>
           (documents_ self))
        (m_stopWords self)
        (document_ids_ self ++ [documentId]).
Proof.
  unfold AddDocument.
  destruct (Z.ltb_spec documentId 0) as [Hneg|Hnn]; simpl; [discriminate |].
  destruct (documents_ self !! documentId) as [old|] eqn:Hold.
  - rewrite bool_decide_eq_true_2 by eauto. discriminate.
  - rewrite bool_decide_eq_false_2 by (intros [? ?]; discriminate).
    destruct (splitIntoWordsNoStop self document []) as [ok words] eqn:Hsplit.
    destruct ok; simpl; [| discriminate].
    intros _. exists words. repeat split; try done.
    unfold calculateTermFrequency, emplace, subscript. simpl.
    rewrite Hold. simpl. rewrite lookup_insert_eq. reflexivity.
Qed.

Lemma AddDocument_outcome self documentId document status ratings :
  (AddDocument documentId document status ratings self).1 = Returned tt \/
  exists what,
    (AddDocument documentId document status ratings self).1 = Thrown (invalid_argument what).
Proof.
  destruct (AddDocument documentId document status ratings self).1 as [[]|e] eqn:Hcall.
  - now left.
  - right. destruct (AddDocument_thrown _ _ _ _ _ _ Hcall) as [[what ->] _]. eauto.
Qed.

(** The words [splitIntoWordsNoStop] leaves in [words]. *)
Lemma splitIntoWordsNoStop_loop_true self tempWords words words' :
  splitIntoWordsNoStop_loop self tempWords words = (true, words') ->
  Forall (fun word => isValidWord word = true) tempWords /\
  words' = words ++ List.filter (fun word => negb (isStopWord self word)) tempWords.
Proof.
  revert words words'. induction tempWords as [|word rest IH]; intros words words'; simpl.
  - intros [= <-]. split; [constructor | now rewrite app_nil_r].
  - destruct (isValidWord word) eqn:Hvalid; simpl; [| discriminate].
    destruct (isStopWord self word); simpl; intros Hloop;
      destruct (IH _ _ Hloop) as [Hall ->]; split; try (constructor; assumption);
      simpl; first [reflexivity | now rewrite <- app_assoc].
Qed.

Lemma splitIntoWordsNoStop_loop_false self tempWords words :
  (exists word, word ∈ tempWords /\ isValidWord word = false) ->
  (splitIntoWordsNoStop_loop self tempWords words).1 = false.
Proof.
  revert words. induction tempWords as [|word rest IH]; intros words [bad [Hin Hbad]].
  - inversion Hin.
  - simpl. destruct (isValidWord word) eqn:Hvalid; simpl; [| reflexivity].
    apply elem_of_cons in Hin as [-> | Hin]; [congruence |].
    destruct (isStopWord self word); simpl; apply IH; eauto.
Qed.

End AddDocumentFacts.

(** ** Ratings, rejected documents and atomicity *)

(** C5 (amended): the rating stored for an accepted document is the sum of
    the supplied ratings divided by their number, truncated toward zero,
    and 0 for an empty list, provided there are fewer than 2^31 ratings
    (their number is cast to [int]) and the running sum of [accumulate]
    stays within the range of [int]. *)
Theorem AddDocument_stores_mean_rating {F} `{FloatOps F} (self : SearchServer F)
    documentId document status ratings :
  (AddDocument documentId document status ratings self).1 = Returned tt ->
  Z.of_nat (length ratings) < 2 ^ 31 ->
  no_overflow ratings ->
  DocumentData.rating
    <$> documents_ (AddDocument documentId document status ratings self).2 !! documentId =
  Some match ratings with
       | [] => 0
       | _ => Z.quot (sum_Z ratings) (Z.of_nat (length ratings))
       end.
Proof.
  intros Hcall Hcount Hsum.
  destruct (AddDocument_returned _ _ _ _ _ Hcall) as (words & _ & _ & _ & ->).
  simpl. rewrite lookup_insert_eq. simpl.
  now rewrite computeAverageRating_mean.
Qed.

Lemma AddDocument_stores_mean_rating_witness :
  DocumentData.rating
    <$> documents_
          (AddDocument 2 "white cat and fashion collar" ACTUAL [8; -3]
             (SearchServer_default (F := R))).2 !! 2 = Some 2
  /\ DocumentData.rating
       <$> documents_
             (AddDocument 7 "fluffy cat fluffy tail" ACTUAL [7; 2; 7]
                (SearchServer_default (F := R))).2 !! 7 = Some 5.
Proof.
  split.
  - apply (AddDocument_stores_mean_rating (SearchServer_default (F := R))
             2 "white cat and fashion collar" ACTUAL [8; -3]).
    + vm_compute. reflexivity.
    + simpl. lia.
    + intros [|[|[|n]]]; unfold in_int_range; simpl; lia.
  - apply (AddDocument_stores_mean_rating (SearchServer_default (F := R))
             7 "fluffy cat fluffy tail" ACTUAL [7; 2; 7]).
    + vm_compute. reflexivity.
    + simpl. lia.
    + intros [|[|[|[|n]]]]; unfold in_int_range; simpl; lia.
Defined.

(** What a document "cat" with id 1 stores on a new server, whatever its
    ratings. *)
Lemma AddDocument_cat_rating ratings :
  (AddDocument 1 "cat" ACTUAL ratings (SearchServer_default (F := R))).1 = Returned tt
  /\ DocumentData.rating
       <$> documents_ (AddDocument 1 "cat" ACTUAL ratings (SearchServer_default (F := R))).2 !! 1
     = Some (computeAverageRating ratings).
Proof.
  assert (Hcall : (AddDocument 1 "cat" ACTUAL ratings (SearchServer_default (F := R))).1
                  = Returned tt) by (vm_compute; reflexivity).
  split; [exact Hcall |].
  destruct (AddDocument_returned _ _ _ _ _ Hcall) as (words & _ & _ & _ & ->).
  cbn [documents_]. now rewrite lookup_insert_eq.
Qed.

Lemma accumulate_zeros n init :
  in_int_range init -> accumulate (replicate n 0) init = init.
Proof.
  intros Hrange. unfold accumulate.
  induction n as [|n IH]; [reflexivity |].
  cbn [replicate fold_left]. unfold int_add at 2.
  now rewrite Z.add_0_r, (wrap_int_id init Hrange).
Qed.

Lemma sum_Z_zeros n : sum_Z (replicate n 0) = 0.
Proof. induction n as [|n IH]; [reflexivity |]. cbn [replicate sum_Z fold_right]. exact IH. Qed.

(** With 2^32 + 1 ratings the cast of their number to [int] gives 1: the
    sum is divided by 1. *)
Lemma computeAverageRating_count_wraps n rating :
  Z.of_nat n = 2 ^ 32 ->
  in_int_range rating ->
  computeAverageRating (rating :: replicate n 0) = rating
  /\ no_overflow (rating :: replicate n 0)
  /\ sum_Z (rating :: replicate n 0) = rating
  /\ Z.of_nat (length (rating :: replicate n 0)) = 2 ^ 32 + 1.
Proof.
  intros Hn Hrange.
  assert (Hlength : Z.of_nat (length (rating :: replicate n 0)) = 2 ^ 32 + 1).
  { cbn [length]. rewrite length_replicate, Nat2Z.inj_succ. lia. }
  assert (Hcast : static_cast_int (length (rating :: replicate n 0)) = 1).
  { unfold static_cast_int. rewrite Hlength. reflexivity. }
  assert (Hsum : sum_Z (rating :: replicate n 0) = rating).
  { cbn [sum_Z fold_right]. fold (sum_Z (replicate n 0)). rewrite sum_Z_zeros. lia. }
  split; [| split; [| split; [exact Hsum | exact Hlength]]].
  - assert (Hacc : accumulate (rating :: replicate n 0) 0 = rating).
    { change (accumulate (rating :: replicate n 0) 0)
        with (accumulate (replicate n 0) (int_add 0 rating)).
      replace (int_add 0 rating) with rating
        by (unfold int_add; now rewrite Z.add_0_l, wrap_int_id).
      now apply accumulate_zeros. }
    unfold computeAverageRating. rewrite Hcast, Hacc. cbn [Z.eqb].
    unfold int_div. rewrite Z.quot_1_r. exact (wrap_int_id rating Hrange).
  - intros [|k].
    + rewrite take_0. unfold in_int_range. cbn. lia.
    + cbn [take sum_Z fold_right]. fold (sum_Z (take k (replicate n 0))).
      rewrite take_replicate, sum_Z_zeros, Z.add_0_r. exact Hrange.
Qed.

(** The ratings [INT_MAX; 1] are accepted, their sum wraps around, and the
    stored rating is not their mean.  So are the 2^32 + 1 ratings 5, 0,
    ..., 0, whose sum stays 5: their number is cast to the [int] 1, and
    the stored rating is 5, not their mean 0. *)
Lemma AddDocument_rating_wraps :
  ((AddDocument 1 "cat" ACTUAL [2147483647; 1] (SearchServer_default (F := R))).1 = Returned tt
   /\ DocumentData.rating
        <$> documents_
              (AddDocument 1 "cat" ACTUAL [2147483647; 1] (SearchServer_default (F := R))).2 !! 1
      = Some (-1073741824)
   /\ Z.quot (sum_Z [2147483647; 1]) (Z.of_nat (length [2147483647; 1])) = 1073741824)
  /\ ((AddDocument 1 "cat" ACTUAL (5 :: replicate (Z.to_nat (2 ^ 32)) 0)
         (SearchServer_default (F := R))).1 = Returned tt
      /\ no_overflow (5 :: replicate (Z.to_nat (2 ^ 32)) 0)
      /\ DocumentData.rating
           <$> documents_
                 (AddDocument 1 "cat" ACTUAL (5 :: replicate (Z.to_nat (2 ^ 32)) 0)
                    (SearchServer_default (F := R))).2 !! 1
         = Some 5
      /\ Z.quot (sum_Z (5 :: replicate (Z.to_nat (2 ^ 32)) 0))
           (Z.of_nat (length (5 :: replicate (Z.to_nat (2 ^ 32)) 0))) = 0).
Proof.
  split; [repeat split; vm_compute; reflexivity |].
  destruct (computeAverageRating_count_wraps (Z.to_nat (2 ^ 32)) 5
              ltac:(apply Z2Nat.id; lia) ltac:(unfold in_int_range; lia))
    as (Hrating & Hsafe & Hsum & Hlength).
  destruct (AddDocument_cat_rating (5 :: replicate (Z.to_nat (2 ^ 32)) 0)) as [Hcall Hstored].
  split; [exact Hcall |]. split; [exact Hsafe |]. split.
  - rewrite Hstored, Hrating. reflexivity.
  - rewrite Hsum, Hlength. reflexivity.
Qed.

Lemma AddDocument_rejects_invalid_split_word {F} `{FloatOps F} (self : SearchServer F)
    documentId document status ratings word :
  word ∈ split document ->
  isValidWord word = false ->
  is_invalid_argument (AddDocument documentId document status ratings self).1.
Proof.
  intros Hin Hbad.
  destruct (AddDocument_outcome self documentId document status ratings) as [Hok | [what ->]];
    [| exact I].
  destruct (AddDocument_returned _ _ _ _ _ Hok) as (words & _ & _ & Hsplit & _).
  unfold splitIntoWordsNoStop in Hsplit.
  pose proof (splitIntoWordsNoStop_loop_false self (split document) []
                (ex_intro _ word (conj Hin Hbad))) as Hfalse.
  rewrite Hsplit in Hfalse. discriminate.
Qed.

(** C6 (amended): whatever the server, the id, the status and the ratings,
    [AddDocument] throws [invalid_argument] when a whitespace-delimited
    token of the text fails [isValidWord]. *)
Theorem AddDocument_rejects_invalid_word {F} `{FloatOps F} (self : SearchServer F)
    documentId document status ratings word :
  is_token document word ->
  isValidWord word = false ->
  is_invalid_argument (AddDocument documentId document status ratings self).1.
Proof.
  intros Htoken. apply AddDocument_rejects_invalid_split_word. now apply is_token_split.
Qed.

Lemma AddDocument_rejects_invalid_word_witness :
  is_invalid_argument
    (AddDocument 3 "big dog 4you" ACTUAL [1; 3; 2] (SearchServer_default (F := R))).1.
Proof.
  apply (AddDocument_rejects_invalid_word (SearchServer_default (F := R))
           3 "big dog 4you" ACTUAL [1; 3; 2] "4you").
  - exists "big dog ", "". split; [reflexivity |]. split; [discriminate |].
    split; [repeat constructor |]. split; [| now left].
    right. exists "big dog", " "%char. split; reflexivity.
  - vm_compute. reflexivity.
Defined.

(** An empty text is accepted: the document is stored with no words. *)
Lemma AddDocument_accepts_empty_text :
  ~ is_invalid_argument (AddDocument 0 "" ACTUAL [] (SearchServer_default (F := R))).1
  /\ (AddDocument 0 "" ACTUAL [] (SearchServer_default (F := R))).1 = Returned tt
  /\ documents_ (AddDocument 0 "" ACTUAL [] (SearchServer_default (F := R))).2 !! 0
     = Some (DocumentData.mk 0 ACTUAL []).
Proof. repeat split; vm_compute; try reflexivity. intros []. Qed.

Lemma Lenient_AddDocument_false {F} `{FloatOps F} (self : Lenient.SearchServer F)
    document_id document status ratings :
  (Lenient.AddDocument document_id document status ratings self).1 = false ->
  document = "" /\ (Lenient.AddDocument document_id document status ratings self).2 = self.
Proof.
  unfold Lenient.AddDocument. destruct document as [|c rest]; [done |].
  destruct (Lenient.addDocumentData _ _ _ _ _) as [added documents].
  simpl. discriminate.
Qed.

(** C7: a call of [AddDocument] that fails leaves the server as it was:
    the documents, the list of ids, the term index and hence the document
    count.  In the validating server a failure is a thrown exception, in
    the older server the result [false]. *)
Theorem AddDocument_atomic {F} `{FloatOps F} :
  (forall (self : SearchServer F) documentId document status ratings e,
     (AddDocument documentId document status ratings self).1 = Thrown e ->
     (AddDocument documentId document status ratings self).2 = self)
  /\ (forall (self : Lenient.SearchServer F) document_id document status ratings,
        (Lenient.AddDocument document_id document status ratings self).1 = false ->
        (Lenient.AddDocument document_id document status ratings self).2 = self).
Proof.
  split.
  - intros self documentId document status ratings e Hcall.
    now destruct (AddDocument_thrown _ _ _ _ _ _ Hcall).
  - intros self document_id document status ratings Hcall.
    now destruct (Lenient_AddDocument_false _ _ _ _ _ Hcall).
Qed.

Lemma AddDocument_atomic_witness :
  (AddDocument 42 "dog in the park" ACTUAL [5] city_server).2 = city_server
  /\ (AddDocument (-1) "dog in the park" ACTUAL [5] city_server).2 = city_server
  /\ (AddDocument 3 "big dog 4you" ACTUAL [5] city_server).2 = city_server
  /\ (Lenient.AddDocument 3 "" ACTUAL [5] (Lenient.SearchServer_default (F := R))).2
     = Lenient.SearchServer_default.
Proof.
  destruct (AddDocument_atomic (F := R)) as [Hthrow Hfalse].
  split; [| split; [| split]].
  - eapply Hthrow. vm_compute. reflexivity.
  - eapply Hthrow. vm_compute. reflexivity.
  - eapply Hthrow. vm_compute. reflexivity.
  - apply Hfalse. vm_compute. reflexivity.
Defined.

Lemma run_reachable {F} `{FloatOps F} (calls : list call) : reachable (run calls).
Proof.
  unfold run.
  assert (Hgen : forall self, reachable self ->
            reachable (fold_left (fun self c => (perform c self).2) calls self)).
  { induction calls as [|c calls IH]; intros self Hself; simpl; [assumption |].
    apply IH. destruct c; simpl; now constructor. }
  apply Hgen. constructor.
Qed.

(** ** [FindTopDocuments] returns at most five documents *)

(** C4: whatever the server, the query, the predicate and the sort, a list
    returned by [FindTopDocuments] has at most 5 entries. *)
Theorem FindTopDocuments_at_most_5 {F} `{FloatOps F}
    (sort : (Document.t F -> Document.t F -> bool) -> list (Document.t F) -> list (Document.t F))
    (self : SearchServer F) (rawQuery : string) (document_predicate : DocumentPredicate) :
  match FindTopDocuments sort self rawQuery document_predicate with
  | Returned documents => (length documents <= 5)%nat
  | Thrown _ => True
  end.
Proof.
  unfold FindTopDocuments.
  destruct (parseQuery self rawQuery Query.empty) as [ok query].
  destruct ok; simpl; [| exact I].
  destruct (findAllDocuments self query document_predicate) as [matched|e]; simpl; [| exact I].
  unfold MAX_RESULT_DOCUMENT_COUNT.
  destruct (Z.ltb_spec 5 (Z.of_nat (length (sort byRelevance matched)))) as [Hlong|Hshort]; simpl.
  - rewrite length_take. lia.
  - lia.
Qed.

(** ** [MatchDocument] and minus words *)

Lemma matchMinusWords_hit {F} `{FloatOps F} (self : SearchServer F) documentId minus_words matched word :
  word ∈ minus_words ->
  indexes (word_to_document_freqs_ self) word documentId ->
  matchMinusWords self documentId minus_words matched = [].
Proof.
  intros Hin (freqs & Hword & Hdoc).
  induction minus_words as [|w rest IH]; [inversion Hin |].
  simpl. apply elem_of_cons in Hin as [<- | Hin].
  - rewrite Hword. now rewrite bool_decide_eq_true_2.
  - destruct (word_to_document_freqs_ self !! w) as [freqs'|]; [| now apply IH].
    destruct (bool_decide (is_Some (freqs' !! documentId))); [reflexivity | now apply IH].
Qed.

Lemma matchMinusWords_cases {F} `{FloatOps F} (self : SearchServer F) documentId minus_words matched :
  matchMinusWords self documentId minus_words matched = [] \/
  matchMinusWords self documentId minus_words matched = matched.
Proof.
  induction minus_words as [|w rest IH]; simpl; [now right |].
  destruct (word_to_document_freqs_ self !! w) as [freqs|]; [| exact IH].
  destruct (bool_decide (is_Some (freqs !! documentId))); [now left | exact IH].
Qed.

(** C8: for a query that parses and a stored document, if a minus word of
    the query indexes the document then [MatchDocument] returns the empty
    list of words with the status of the document, whatever plus words
    match. *)
Theorem MatchDocument_minus_word_voids {F} `{FloatOps F} (self : SearchServer F)
    rawQuery query documentId data word :
  parseQuery self rawQuery Query.empty = (true, query) ->
  documents_ self !! documentId = Some data ->
  word ∈ Query.minus_words query ->
  indexes (word_to_document_freqs_ self) word documentId ->
  MatchDocument self rawQuery documentId = Returned ([], DocumentData.status data).
Proof.
  intros Hparse Hdata Hin Hindexes. unfold MatchDocument.
  rewrite Hparse. simpl.
  rewrite (matchMinusWords_hit self documentId _ _ word Hin Hindexes).
  unfold map_at. now rewrite Hdata.
Qed.

Lemma MatchDocument_minus_word_voids_witness :
  MatchDocument city_server "the cat -city dog" 42 = Returned ([], ACTUAL).
Proof.
  apply (MatchDocument_minus_word_voids city_server "the cat -city dog"
           (Query.mk ["cat"; "dog"] ["city"]) 42 (DocumentData.mk 2 ACTUAL ["cat"; "city"]) "city").
  - vm_compute. reflexivity.
  - vm_compute. reflexivity.
  - apply list_elem_of_here.
  - eexists. split; [vm_compute; reflexivity |]. vm_compute. eauto.
Defined.

(** ** The order of the words of a query *)

Lemma compare_Lt_lex_lt a b : String.compare a b = Lt <-> lex_lt a b.
Proof.
  revert b. induction a as [|c a IH]; intros [|d b]; simpl.
  - split; [discriminate | inversion 1].
  - split; [constructor | reflexivity].
  - split; [discriminate | inversion 1].
  - unfold Ascii.compare.
    destruct (N.compare_spec (N_of_ascii c) (N_of_ascii d)) as [Heq|Hlt|Hgt].
    + apply (f_equal ascii_of_N) in Heq. rewrite !ascii_N_embedding in Heq. subst d.
      rewrite IH. split; [now constructor |].
      inversion 1; subst; [lia | assumption].
    + split; [intros _; now constructor | reflexivity].
    + split; [discriminate |].
      inversion 1; subst; lia.
Qed.

Lemma compare_Gt_lex_lt a b : String.compare a b = Gt <-> lex_lt b a.
Proof.
  rewrite <- compare_Lt_lex_lt, (String.compare_antisym b a).
  destruct (String.compare a b); simpl; split; congruence.
Qed.

Lemma lex_lt_irrefl a : ~ lex_lt a a.
Proof. induction a as [|c a IH]; inversion 1; subst; [lia | auto]. Qed.

#[global] Instance lex_lt_trans : Transitive lex_lt.
Proof.
  intros a b c Hab. revert c.
  induction Hab as [c s | c1 s1 c2 s2 Hlt | c s1 s2 Hlt IH]; intros z Hbz;
    inversion Hbz; subst;
    first [apply lex_lt_empty | apply lex_lt_head; lia | apply lex_lt_tail; auto].
Qed.

Lemma elem_of_set_insert w s x : x ∈ set_insert w s <-> x = w \/ x ∈ s.
Proof.
  induction s as [|y s IH]; simpl.
  - rewrite list_elem_of_singleton, elem_of_nil. tauto.
  - destruct (String.compare w y) eqn:Hcmp.
    + apply String.compare_eq_iff in Hcmp. subst y. rewrite elem_of_cons. tauto.
    + rewrite (elem_of_cons (y :: s)). tauto.
    + rewrite !elem_of_cons, IH. tauto.
Qed.

Lemma set_insert_ascending w s :
  StronglySorted lex_lt s -> StronglySorted lex_lt (set_insert w s).
Proof.
  induction 1 as [|y s Hs IH Hall]; simpl.
  - repeat constructor.
  - destruct (String.compare w y) eqn:Hcmp.
    + now constructor.
    + apply compare_Lt_lex_lt in Hcmp.
      constructor; [now constructor |].
      constructor; [assumption |].
      eapply Forall_impl; [exact Hall |]. intros z Hz. now transitivity y.
    + apply compare_Gt_lex_lt in Hcmp.
      constructor; [assumption |].
      apply Forall_forall. intros z Hz. apply elem_of_set_insert in Hz as [-> | Hz];
        [assumption |].
      rewrite Forall_forall in Hall. auto.
Qed.

Lemma ascending_NoDup s : StronglySorted lex_lt s -> NoDup s.
Proof.
  induction 1 as [|y s Hs IH Hall]; constructor; [| assumption].
  intros Hin. rewrite Forall_forall in Hall.
  exact (lex_lt_irrefl y (Hall y Hin)).
Qed.

Lemma ascending_filter (f : string -> bool) s :
  StronglySorted lex_lt s -> StronglySorted lex_lt (List.filter f s).
Proof.
  induction 1 as [|y s Hs IH Hall]; simpl; [constructor |].
  destruct (f y); [| assumption].
  constructor; [assumption |].
  rewrite Forall_forall in *. intros z Hz.
  apply list_elem_of_In, filter_In in Hz as [Hz _]. apply Hall. now apply list_elem_of_In.
Qed.

Section QueryFacts.
Context {F : Type} `{FloatOps F}.
Implicit Types self : SearchServer F.

Lemma parseQuery_loop_ascending self words query ok query' :
  parseQuery_loop self words query = (ok, query') ->
  StronglySorted lex_lt (Query.plus_words query) ->
  StronglySorted lex_lt (Query.minus_words query) ->
  StronglySorted lex_lt (Query.plus_words query') /\
  StronglySorted lex_lt (Query.minus_words query').
Proof.
  revert query. induction words as [|word rest IH]; intros query; simpl.
  - intros [= <- <-]. auto.
  - destruct (parseQueryWord self word) as [qw|]; [| intros [= <- <-]; auto].
    intros Hloop Hplus Hminus. apply (IH _ Hloop).
    + destruct (QueryWord.is_stop qw); simpl; [assumption |].
      destruct (QueryWord.is_minus qw); simpl; [assumption |].
      now apply set_insert_ascending.
    + destruct (QueryWord.is_stop qw); simpl; [assumption |].
      destruct (QueryWord.is_minus qw); simpl; [| assumption].
      now apply set_insert_ascending.
Qed.

Lemma parseQuery_ascending self text ok query :
  parseQuery self text Query.empty = (ok, query) ->
  StronglySorted lex_lt (Query.plus_words query) /\
  StronglySorted lex_lt (Query.minus_words query).
Proof.
  intros Hparse. eapply parseQuery_loop_ascending; [exact Hparse | |]; constructor.
Qed.

Lemma indexesb_true self documentId word :
  indexesb self documentId word = true <->
  indexes (word_to_document_freqs_ self) word documentId.
Proof.
  unfold indexesb, indexes.
  destruct (word_to_document_freqs_ self !! word) as [freqs|].
  - rewrite bool_decide_eq_true. split; [eauto |]. now intros (? & [= <-] & ?).
  - split; [discriminate | now intros (? & ? & _)].
Qed.

Lemma matchPlusWords_filter self documentId plus_words matched :
  fold_left (matchPlusWord self documentId) plus_words matched =
  matched ++ List.filter (indexesb self documentId) plus_words.
Proof.
  revert matched. induction plus_words as [|word rest IH]; intros matched; simpl.
  - now rewrite app_nil_r.
  - rewrite IH. unfold matchPlusWord, indexesb.
    destruct (word_to_document_freqs_ self !! word) as [freqs|]; [| reflexivity].
    destruct (bool_decide (is_Some (freqs !! documentId))); [| reflexivity].
    now rewrite <- app_assoc.
Qed.

End QueryFacts.

(** C10: for a query that parses and a stored document, [MatchDocument]
    returns, and the list of words it returns is strictly ascending in
    byte-wise lexicographic order, any two of its entries, and so has no
    duplicates. *)
Theorem MatchDocument_strictly_ascending {F} `{FloatOps F} (self : SearchServer F)
    rawQuery query documentId data :
  parseQuery self rawQuery Query.empty = (true, query) ->
  documents_ self !! documentId = Some data ->
  exists matched_words,
    MatchDocument self rawQuery documentId
      = Returned (matched_words, DocumentData.status data) /\
    StronglySorted lex_lt matched_words /\
    NoDup matched_words.
Proof.
  intros Hparse Hdata. unfold MatchDocument, map_at. rewrite Hparse, Hdata. simpl.
  eexists. split; [reflexivity |].
  assert (Hsorted : StronglySorted lex_lt
            (matchMinusWords self documentId (Query.minus_words query)
               (fold_left (matchPlusWord self documentId) (Query.plus_words query) []))).
  { destruct (matchMinusWords_cases self documentId (Query.minus_words query)
                (fold_left (matchPlusWord self documentId) (Query.plus_words query) []))
      as [-> | ->]; [constructor |].
    rewrite matchPlusWords_filter. simpl.
    apply ascending_filter. now destruct (parseQuery_ascending _ _ _ _ Hparse). }
  split; [assumption | now apply ascending_NoDup].
Qed.

Lemma MatchDocument_strictly_ascending_witness :
  exists matched_words,
    MatchDocument city_server "dog city the cat city" 42 = Returned (matched_words, ACTUAL) /\
    StronglySorted lex_lt matched_words /\
    NoDup matched_words.
Proof.
  apply (MatchDocument_strictly_ascending city_server "dog city the cat city"
           (Query.mk ["cat"; "city"; "dog"] []) 42 (DocumentData.mk 2 ACTUAL ["cat"; "city"])).
  - vm_compute. reflexivity.
  - vm_compute. reflexivity.
Defined.

(** The words matched in that document, in order. *)
Example MatchDocument_city :
  MatchDocument city_server "dog city the cat city" 42 = Returned (["cat"; "city"], ACTUAL).
Proof. vm_compute. reflexivity. Qed.

(** ** The term index has no empty entry *)

Section TermIndex.
Context {F : Type} `{FloatOps F}.
Implicit Types index : gmap string (gmap Z F).

(** One round of [calculateTermFrequency] in closed form: the entry of the
    word gets the document, with the old frequency (or 0.0) plus
    [inv_word_count]. *)
Lemma addTermOccurrence_insert documentId inv_word_count index word :
  addTermOccurrence documentId inv_word_count index word =
  <[word :=
      <[documentId :=
          f_add (default f_zero (default ∅ (index !! word) !! documentId)) inv_word_count]>
        (default ∅ (index !! word))]> index.
Proof.
  unfold addTermOccurrence, subscript.
  destruct (index !! word) as [freqs|] eqn:Hword; simpl.
  - destruct (freqs !! documentId) as [tf|] eqn:Hdoc; simpl.
    + now rewrite ?Hdoc.
    + rewrite ?lookup_insert_eq. simpl. now rewrite ?insert_insert_eq.
  - rewrite ?lookup_empty. simpl.
    rewrite ?lookup_insert_eq. simpl. now rewrite ?insert_insert_eq.
Qed.

Lemma addTermOccurrence_no_empty_entry documentId inv_word_count index word :
  no_empty_entry index ->
  no_empty_entry (addTermOccurrence documentId inv_word_count index word).
Proof.
  intros Hinv w freqs. rewrite addTermOccurrence_insert.
  destruct (decide (word = w)) as [<- | Hne].
  - rewrite lookup_insert_eq. intros [= <-]. apply insert_non_empty.
  - rewrite lookup_insert_ne by assumption. apply Hinv.
Qed.

Lemma addTermOccurrences_no_empty_entry documentId inv_word_count words index :
  no_empty_entry index ->
  no_empty_entry (fold_left (addTermOccurrence documentId inv_word_count) words index).
Proof.
  revert index. induction words as [|word rest IH]; intros index Hinv; simpl; [assumption |].
  apply IH. now apply addTermOccurrence_no_empty_entry.
Qed.

Lemma SetStopWords_word_to_document_freqs stopWords (self : SearchServer F) :
  word_to_document_freqs_ (SetStopWords stopWords self).2 = word_to_document_freqs_ self
  /\ documents_ (SetStopWords stopWords self).2 = documents_ self
  /\ document_ids_ (SetStopWords stopWords self).2 = document_ids_ self.
Proof.
  revert self. induction stopWords as [|stopWord rest IH]; intros self; simpl; [done |].
  destruct (isValidWord stopWord); simpl; [| done].
  destruct (IH (set_stopWords ({[stopWord]} ∪ m_stopWords self) self)) as (-> & -> & ->).
  done.
Qed.

Lemma perform_no_empty_entry (c : call) (self : SearchServer F) :
  no_empty_entry (word_to_document_freqs_ self) ->
  no_empty_entry (word_to_document_freqs_ (perform c self).2).
Proof.
  intros Hinv. destruct c as [stopWords | stopWordsText | documentId document status ratings]; simpl.
  - now rewrite (proj1 (SetStopWords_word_to_document_freqs _ _)).
  - unfold SetStopWordsText. now rewrite (proj1 (SetStopWords_word_to_document_freqs _ _)).
  - destruct (AddDocument_outcome self documentId document status ratings) as [Hok | [what Hthrown]].
    + destruct (AddDocument_returned _ _ _ _ _ Hok) as (words & _ & _ & _ & ->). simpl.
      now apply addTermOccurrences_no_empty_entry.
    + destruct (AddDocument_thrown _ _ _ _ _ _ Hthrown) as [_ ->]. assumption.
Qed.

Lemma lookup_fold_delete (words : list string) index word :
  fold_left (fun m w => delete w m) words index !! word =
  if bool_decide (word ∈ words) then None else index !! word.
Proof.
  revert index. induction words as [|w rest IH]; intros index; cbn [fold_left].
  - rewrite bool_decide_eq_false_2; [reflexivity | apply not_elem_of_nil].
  - rewrite IH. destruct (decide (word ∈ rest)) as [Hin | Hnotin].
    + rewrite !bool_decide_eq_true_2; [reflexivity | now right | assumption].
    + rewrite (bool_decide_eq_false_2 (word ∈ rest)) by assumption.
      destruct (decide (w = word)) as [-> | Hne].
      * rewrite bool_decide_eq_true_2 by apply list_elem_of_here. apply lookup_delete_eq.
      * rewrite bool_decide_eq_false_2.
        -- now apply lookup_delete_ne.
        -- rewrite elem_of_cons. intros [-> | ?]; contradiction.
Qed.

Lemma deleteAllDocumentWords_no_empty_entry documentId index :
  no_empty_entry (Lenient.deleteAllDocumentWords documentId index).
Proof.
  intros word freqs. unfold Lenient.deleteAllDocumentWords.
  rewrite lookup_fold_delete.
  set (erased := delete documentId <$> index).
  destruct (bool_decide _) eqn:Hempty; [discriminate |].
  intros Hword -> . apply bool_decide_eq_false in Hempty. apply Hempty.
  apply list_elem_of_In, filter_In. split.
  - apply list_elem_of_In. rewrite merge_sort_Permutation.
    apply list_elem_of_fmap. exists (word, ∅). split; [reflexivity |].
    now apply elem_of_map_to_list.
  - rewrite Hword. now rewrite map_size_empty.
Qed.

Lemma Lenient_SetStopWords_no_empty_entry text (self : Lenient.SearchServer F) :
  no_empty_entry (Lenient.word_to_document_freqs_ self) ->
  no_empty_entry (Lenient.word_to_document_freqs_ (Lenient.SetStopWords text self)).
Proof. intros Hinv. exact Hinv. Qed.

Lemma Lenient_AddDocument_no_empty_entry (self : Lenient.SearchServer F)
    document_id document status ratings :
  no_empty_entry (Lenient.word_to_document_freqs_ self) ->
  no_empty_entry
    (Lenient.word_to_document_freqs_
       (Lenient.AddDocument document_id document status ratings self).2).
Proof.
  intros Hinv. unfold Lenient.AddDocument.
  destruct document as [|c rest]; [assumption |].
  destruct (Lenient.addDocumentData _ _ _ _ _) as [added documents].
  unfold Lenient.calculateTermFrequency.
  destruct added; simpl;
    destruct (subscript DocumentData.zero documents document_id) as [data documents'];
    simpl; apply addTermOccurrences_no_empty_entry;
    [assumption | apply deleteAllDocumentWords_no_empty_entry].
Qed.

End TermIndex.

(** C9: in both versions of the server no word of the term index maps to
    an empty document map: this holds of a default-constructed server,
    every mutator preserves it from any state that has it (the other
    operations are [const]), and so it holds of every reachable state. *)
Theorem term_index_no_empty_entry {F} `{FloatOps F} :
  (no_empty_entry (word_to_document_freqs_ (SearchServer_default (F := F)))
   /\ (forall (c : call) (self : SearchServer F),
         no_empty_entry (word_to_document_freqs_ self) ->
         no_empty_entry (word_to_document_freqs_ (perform c self).2))
   /\ (forall self : SearchServer F,
         reachable self -> no_empty_entry (word_to_document_freqs_ self)))
  /\ (no_empty_entry (Lenient.word_to_document_freqs_ (Lenient.SearchServer_default (F := F)))
      /\ (forall text (self : Lenient.SearchServer F),
            no_empty_entry (Lenient.word_to_document_freqs_ self) ->
            no_empty_entry (Lenient.word_to_document_freqs_ (Lenient.SetStopWords text self)))
      /\ (forall document_id document status ratings (self : Lenient.SearchServer F),
            no_empty_entry (Lenient.word_to_document_freqs_ self) ->
            no_empty_entry
              (Lenient.word_to_document_freqs_
                 (Lenient.AddDocument document_id document status ratings self).2))
      /\ (forall self : Lenient.SearchServer F,
            lenient_reachable self -> no_empty_entry (Lenient.word_to_document_freqs_ self))).
Proof.
  assert (Hdefault : forall V, no_empty_entry (∅ : gmap string (gmap Z V))).
  { intros V word freqs Hword. now rewrite lookup_empty in Hword. }
  split; [split; [| split] | split; [| split; [| split]]].
  - apply Hdefault.
  - intros c self. apply perform_no_empty_entry.
  - induction 1 as [| self stopWords _ IH | self text _ IH | self id doc status ratings _ IH].
    + apply Hdefault.
    + exact (perform_no_empty_entry (CallSetStopWords stopWords) self IH).
    + exact (perform_no_empty_entry (CallSetStopWordsText text) self IH).
    + exact (perform_no_empty_entry (CallAddDocument id doc status ratings) self IH).
  - apply Hdefault.
  - intros text self. apply Lenient_SetStopWords_no_empty_entry.
  - intros document_id document status ratings self. apply Lenient_AddDocument_no_empty_entry.
  - induction 1 as [| self text _ IH | self id doc status ratings _ IH].
    + apply Hdefault.
    + now apply Lenient_SetStopWords_no_empty_entry.
    + now apply Lenient_AddDocument_no_empty_entry.
Qed.

Lemma term_index_no_empty_entry_witness :
  no_empty_entry (word_to_document_freqs_ pets_server)
  /\ no_empty_entry (Lenient.word_to_document_freqs_ merged_server).
Proof.
  destruct (term_index_no_empty_entry (F := R)) as [(_ & _ & Hstrict) (_ & _ & _ & Hlenient)].
  split.
  - apply Hstrict. apply run_reachable.
  - apply Hlenient. unfold merged_server. repeat constructor.
Defined.

(** ** The loops of [findAllDocuments] *)

Section MapItems.
Context {V : Type}.
Implicit Types m : gmap Z V.

Lemma map_items_Permutation m : map_items m ≡ₚ map_to_list m.
Proof. apply merge_sort_Permutation. Qed.

Lemma elem_of_map_items m k v : (k, v) ∈ map_items m <-> m !! k = Some v.
Proof. rewrite map_items_Permutation. apply elem_of_map_to_list. Qed.

Lemma NoDup_fst_map_items m : NoDup (map_items m).*1.
Proof. rewrite map_items_Permutation. apply NoDup_fst_map_to_list. Qed.

Lemma list_to_map_map_items m : list_to_map (map_items m) = m.
Proof.
  rewrite <- (list_to_map_to_list m) at 2.
  apply list_to_map_proper; [apply NoDup_fst_map_items | apply map_items_Permutation].
Qed.

Lemma elem_of_fst_map_items m k : k ∈ (map_items m).*1 <-> is_Some (m !! k).
Proof.
  rewrite list_elem_of_fmap. split.
  - intros ([k' v] & -> & Hin). apply elem_of_map_items in Hin. eauto.
  - intros [v Hv]. exists (k, v). split; [reflexivity | now apply elem_of_map_items].
Qed.

Lemma lookup_fold_delete_entries (items : list (Z * V)) (m : gmap Z V) k :
  fold_left (fun m (entry : Z * V) => delete entry.1 m) items m !! k =
  if bool_decide (k ∈ items.*1) then None else m !! k.
Proof.
  revert m. induction items as [|[k' v] rest IH]; intros m; cbn [fold_left fmap list_fmap].
  - rewrite bool_decide_eq_false_2; [reflexivity | apply not_elem_of_nil].
  - rewrite IH. simpl fst. destruct (decide (k ∈ rest.*1)) as [Hin | Hnotin].
    + rewrite !bool_decide_eq_true_2; [reflexivity | now right | assumption].
    + rewrite (bool_decide_eq_false_2 (k ∈ rest.*1)) by assumption.
      destruct (decide (k' = k)) as [-> | Hne].
      * rewrite bool_decide_eq_true_2 by apply list_elem_of_here. apply lookup_delete_eq.
      * rewrite bool_decide_eq_false_2.
        -- now apply lookup_delete_ne.
        -- rewrite elem_of_cons. intros [-> | ?]; contradiction.
Qed.

End MapItems.

Section Loops.
Context {F : Type} `{FloatOps F}.
Implicit Types self : SearchServer F.

Lemma minusWord_lookup self (document_to_relevance : gmap Z F) word documentId :
  minusWord self document_to_relevance word !! documentId =
  if indexesb self documentId word then None else document_to_relevance !! documentId.
Proof.
  unfold minusWord, indexesb.
  destruct (word_to_document_freqs_ self !! word) as [freqs|]; [| reflexivity].
  rewrite lookup_fold_delete_entries.
  destruct (decide (is_Some (freqs !! documentId))) as [Hsome | Hnone].
  - rewrite !bool_decide_eq_true_2; [reflexivity | assumption | now apply elem_of_fst_map_items].
  - rewrite !bool_decide_eq_false_2; [reflexivity | assumption |].
    now rewrite elem_of_fst_map_items.
Qed.

Lemma minusWords_lookup self minus_words (document_to_relevance : gmap Z F) documentId :
  fold_left (minusWord self) minus_words document_to_relevance !! documentId =
  if existsb (indexesb self documentId) minus_words then None
  else document_to_relevance !! documentId.
Proof.
  revert document_to_relevance.
  induction minus_words as [|word rest IH]; intros document_to_relevance; simpl; [reflexivity |].
  rewrite IH, minusWord_lookup.
  destruct (indexesb self documentId word); simpl; [| reflexivity].
  now destruct (existsb _ rest).
Qed.

Lemma pushDocument_unfold self (matched_documents : list (Document.t F)) k r :
  pushDocument self matched_documents (k, r) =
  match documents_ self !! k with
  | Some data => Returned (matched_documents ++ [Document.mk k r (DocumentData.rating data)])
  | None => Thrown (out_of_range "map::at")
  end.
Proof. unfold pushDocument, map_at. simpl. now destruct (documents_ self !! k). Qed.

Lemma pushDocument_loop self (items : list (Z * F)) matched_documents result :
  for_each (pushDocument self) items matched_documents = Returned result ->
  result = matched_documents ++ map (scored self) items.
Proof.
  revert matched_documents. induction items as [|[k r] rest IH]; intros matched;
    cbn [for_each map].
  - intros [= <-]. now rewrite app_nil_r.
  - rewrite pushDocument_unfold.
    destruct (documents_ self !! k) as [data|] eqn:Hdata; simpl; [| discriminate].
    intros Hrest. rewrite (IH _ Hrest), <- app_assoc. simpl.
    unfold scored at 2, stored_rating. simpl. now rewrite Hdata.
Qed.

Lemma pushDocument_loop_returns self (items : list (Z * F)) matched_documents :
  (forall k, k ∈ items.*1 -> is_Some (documents_ self !! k)) ->
  exists result, for_each (pushDocument self) items matched_documents = Returned result.
Proof.
  revert matched_documents. induction items as [|[k r] rest IH]; intros matched Hclosed;
    cbn [for_each].
  - eauto.
  - rewrite pushDocument_unfold.
    destruct (Hclosed k) as [data ->]; [apply list_elem_of_here |]. simpl.
    apply IH. intros k' Hk'. apply Hclosed. now right.
Qed.

(** The documents that [findAllDocuments] returns are the entries that are
    left in [document_to_relevance] after the loop over the minus words,
    in ascending order of id. *)
Lemma findAllDocuments_returned self query document_predicate matched_documents :
  findAllDocuments self query document_predicate = Returned matched_documents ->
  exists plus : gmap Z F,
    for_each (plusWord self document_predicate) (Query.plus_words query) ∅ = Returned plus /\
    matched_documents =
      map (scored self) (map_items (fold_left (minusWord self) (Query.minus_words query) plus)).
Proof.
  unfold findAllDocuments.
  destruct (for_each (plusWord self document_predicate) (Query.plus_words query) ∅)
    as [plus|e]; simpl; [| discriminate].
  intros Hpush. exists plus. split; [reflexivity |].
  now rewrite (pushDocument_loop _ _ _ _ Hpush).
Qed.

Lemma findAllDocuments_excludes_minus_word self query document_predicate matched_documents
    word document :
  findAllDocuments self query document_predicate = Returned matched_documents ->
  word ∈ Query.minus_words query ->
  indexes (word_to_document_freqs_ self) word (Document.id document) ->
  document ∉ matched_documents.
Proof.
  intros Hfind Hword Hindexes Hin.
  destruct (findAllDocuments_returned _ _ _ _ Hfind) as (plus & _ & ->).
  apply list_elem_of_fmap in Hin as ([k r] & -> & Hin).
  apply elem_of_map_items in Hin. simpl in Hindexes.
  rewrite minusWords_lookup in Hin.
  assert (Hhit : existsb (indexesb self k) (Query.minus_words query) = true).
  { apply existsb_exists. exists word. split; [now apply list_elem_of_In |].
    now apply indexesb_true. }
  rewrite Hhit in Hin. discriminate.
Qed.

Lemma FindTopDocuments_returned sort self rawQuery document_predicate documents :
  FindTopDocuments sort self rawQuery document_predicate = Returned documents ->
  exists query matched_documents,
    parseQuery self rawQuery Query.empty = (true, query) /\
    findAllDocuments self query document_predicate = Returned matched_documents /\
    documents = take 5 (sort byRelevance matched_documents).
Proof.
  unfold FindTopDocuments.
  destruct (parseQuery self rawQuery Query.empty) as [ok query] eqn:Hparse.
  destruct ok; simpl; [| discriminate].
  destruct (findAllDocuments self query document_predicate) as [matched|e] eqn:Hfind; simpl;
    [| discriminate].
  unfold MAX_RESULT_DOCUMENT_COUNT.
  intros Hret. exists query, matched. split; [reflexivity |]. split; [exact Hfind |].
  destruct (Z.ltb_spec 5 (Z.of_nat (length (sort byRelevance matched)))) as [Hlong|Hshort];
    cbv [mret outcome_ret] in Hret; injection Hret as <-.
  - reflexivity.
  - rewrite take_ge; [reflexivity | lia].
Qed.

(** And it returns whenever the query parses and [findAllDocuments]
    returns. *)
Lemma FindTopDocuments_returns sort self rawQuery document_predicate query matched_documents :
  parseQuery self rawQuery Query.empty = (true, query) ->
  findAllDocuments self query document_predicate = Returned matched_documents ->
  FindTopDocuments sort self rawQuery document_predicate =
    Returned (take 5 (sort byRelevance matched_documents)).
Proof.
  intros Hparse Hfind. unfold FindTopDocuments. rewrite Hparse. simpl. rewrite Hfind. simpl.
  unfold MAX_RESULT_DOCUMENT_COUNT.
  destruct (Z.ltb_spec 5 (Z.of_nat (length (sort byRelevance matched_documents))))
    as [Hlong|Hshort]; cbv [mret outcome_ret].
  - reflexivity.
  - rewrite take_ge; [reflexivity | lia].
Qed.

End Loops.

(** ** The term index agrees with the stored documents *)

Section IndexConsistent.
Context {F : Type} `{FloatOps F}.
Implicit Types self : SearchServer F.
Implicit Types index : gmap string (gmap Z F).

Lemma index_lookup_addTermOccurrence documentId inv_word_count index word w d :
  index_lookup (addTermOccurrence documentId inv_word_count index word) w d =
  if bool_decide (w = word /\ d = documentId)
  then Some (f_add (default f_zero (index_lookup index w d)) inv_word_count)
  else index_lookup index w d.
Proof.
  rewrite addTermOccurrence_insert. unfold index_lookup.
  destruct (decide (w = word)) as [-> | Hw].
  - rewrite lookup_insert_eq. simpl.
    destruct (decide (d = documentId)) as [-> | Hd].
    + rewrite bool_decide_eq_true_2 by done. rewrite lookup_insert_eq.
      now destruct (index !! word).
    + rewrite bool_decide_eq_false_2 by (intros [_ ?]; contradiction).
      rewrite lookup_insert_ne by congruence.
      destruct (index !! word); [reflexivity | apply lookup_empty].
  - rewrite bool_decide_eq_false_2 by (intros [? _]; contradiction).
    now rewrite lookup_insert_ne by congruence.
Qed.

Lemma index_lookup_addTermOccurrences documentId inv_word_count words index w d :
  index_lookup (fold_left (addTermOccurrence documentId inv_word_count) words index) w d =
  if bool_decide (d = documentId)
  then Nat.iter (count_occ string_dec words w)
         (fun tf => Some (f_add (default f_zero tf) inv_word_count))
         (index_lookup index w d)
  else index_lookup index w d.
Proof.
  revert index. induction words as [|word rest IH]; intros index; cbn [fold_left count_occ].
  - now destruct (bool_decide (d = documentId)).
  - rewrite IH, index_lookup_addTermOccurrence.
    destruct (decide (d = documentId)) as [-> | Hd].
    + rewrite !bool_decide_eq_true_2 by reflexivity.
      destruct (string_dec word w) as [-> | Hw].
      * rewrite bool_decide_eq_true_2 by done. now rewrite Nat.iter_succ_r.
      * rewrite bool_decide_eq_false_2 by (intros [? _]; congruence). reflexivity.
    + rewrite !bool_decide_eq_false_2; try assumption; [reflexivity |].
      intros [_ ?]; contradiction.
Qed.

Lemma summed_from_nothing inv_word_count n :
  Nat.iter n (fun tf => Some (f_add (default f_zero tf) inv_word_count)) None =
  match n with
  | O => None
  | _ => Some (Nat.iter n (fun tf => f_add tf inv_word_count) f_zero)
  end.
Proof.
  induction n as [|n IH]; [reflexivity |].
  rewrite Nat.iter_succ, IH. destruct n; [reflexivity |].
  now rewrite (Nat.iter_succ (S n)).
Qed.

Lemma index_consistent_default : index_consistent (SearchServer_default (F := F)).
Proof. intros word documentId. reflexivity. Qed.

Lemma AddDocument_index_consistent self documentId document status ratings :
  index_consistent self ->
  index_consistent (AddDocument documentId document status ratings self).2.
Proof.
  intros Hinv.
  destruct (AddDocument_outcome self documentId document status ratings) as [Hok | [what Hthrown]].
  - destruct (AddDocument_returned _ _ _ _ _ Hok) as (words & _ & Hfresh & _ & ->).
    intros w d. unfold stored_term_freq. cbn [word_to_document_freqs_ documents_].
    rewrite index_lookup_addTermOccurrences.
    pose proof (Hinv w d) as Hwd. unfold stored_term_freq in Hwd.
    destruct (decide (d = documentId)) as [-> | Hd].
    + rewrite bool_decide_eq_true_2 by reflexivity.
      rewrite lookup_insert_eq. rewrite Hwd, Hfresh. cbn [mbind option_bind].
      rewrite summed_from_nothing. unfold summed_term_freq. cbn [DocumentData.words].
      now destruct (count_occ string_dec words w).
    + rewrite bool_decide_eq_false_2 by assumption.
      now rewrite lookup_insert_ne by congruence.
  - destruct (AddDocument_thrown _ _ _ _ _ _ Hthrown) as [_ ->]. assumption.
Qed.

Lemma perform_index_consistent (c : call) self :
  index_consistent self -> index_consistent (perform c self).2.
Proof.
  intros Hinv. destruct c as [stopWords | stopWordsText | documentId document status ratings];
    simpl.
  - destruct (SetStopWords_word_to_document_freqs stopWords self) as (Hindex & Hdocs & _).
    intros w d. unfold stored_term_freq. rewrite Hindex, Hdocs. apply Hinv.
  - unfold SetStopWordsText.
    destruct (SetStopWords_word_to_document_freqs
                (fold_left (fun s w => set_insert w s) (split stopWordsText) []) self)
      as (Hindex & Hdocs & _).
    intros w d. unfold stored_term_freq. rewrite Hindex, Hdocs. apply Hinv.
  - now apply AddDocument_index_consistent.
Qed.

Lemma reachable_index_consistent self : reachable self -> index_consistent self.
Proof.
  induction 1 as [| self stopWords _ IH | self text _ IH | self id doc status ratings _ IH].
  - apply index_consistent_default.
  - exact (perform_index_consistent (CallSetStopWords stopWords) self IH).
  - exact (perform_index_consistent (CallSetStopWordsText text) self IH).
  - exact (perform_index_consistent (CallAddDocument id doc status ratings) self IH).
Qed.

Lemma summed_term_freq_Some (data : DocumentData.t) word :
  is_Some (summed_term_freq data word) <-> word ∈ DocumentData.words data.
Proof.
  unfold summed_term_freq. rewrite list_elem_of_In, (count_occ_In string_dec).
  destruct (count_occ string_dec (DocumentData.words data) word).
  - split; [intros [? ?]; discriminate | lia].
  - split; [lia | eauto].
Qed.

(** In a consistent index a word indexes a document exactly when the word
    is among the stored words of the document. *)
Lemma index_consistent_indexes self word documentId :
  index_consistent self ->
  indexes (word_to_document_freqs_ self) word documentId <->
  exists data, documents_ self !! documentId = Some data /\ word ∈ DocumentData.words data.
Proof.
  intros Hinv. specialize (Hinv word documentId).
  unfold stored_term_freq, index_lookup in Hinv.
  unfold indexes. split.
  - intros (freqs & Hword & [tf Htf]). rewrite Hword in Hinv. simpl in Hinv.
    rewrite Htf in Hinv.
    destruct (documents_ self !! documentId) as [data|]; [| discriminate].
    exists data. split; [reflexivity |]. apply summed_term_freq_Some. simpl in Hinv.
    rewrite <- Hinv. eauto.
  - intros (data & Hdata & Hin). rewrite Hdata in Hinv. simpl in Hinv.
    apply summed_term_freq_Some in Hin as [tf Htf]. rewrite Htf in Hinv.
    destruct (word_to_document_freqs_ self !! word) as [freqs|]; [| discriminate].
    exists freqs. split; [reflexivity |]. simpl in Hinv. rewrite Hinv. eauto.
Qed.

Lemma index_consistent_closed self : index_consistent self -> index_closed self.
Proof.
  intros Hinv word freqs documentId Hword Hdoc.
  destruct (proj1 (index_consistent_indexes self word documentId Hinv)) as (data & -> & _);
    [| eauto].
  exists freqs. eauto.
Qed.

End IndexConsistent.

(** ** A sort that meets the contract of [std::sort] *)

Section InsertionSort.
Context {A : Type} (comp : A -> A -> bool) (universe : list A).
Hypothesis Hswo : strict_weak_order_on comp universe.

Lemma comp_asymmetric x y :
  x ∈ universe -> y ∈ universe -> comp x y = true -> comp y x = false.
Proof.
  destruct Hswo as (Hirr & Htrans & _). intros Hx Hy Hxy.
  destruct (comp y x) eqn:Hyx; [| reflexivity].
  pose proof (Htrans x y x Hx Hy Hx Hxy Hyx) as Hxx. rewrite (Hirr x Hx) in Hxx. discriminate.
Qed.

Lemma comp_negatively_transitive x y z :
  x ∈ universe -> y ∈ universe -> z ∈ universe ->
  comp x y = false -> comp y z = false -> comp x z = false.
Proof.
  destruct Hswo as (Hirr & Htrans & Hequiv). intros Hx Hy Hz Hxy Hyz.
  destruct (comp x z) eqn:Hxz; [| reflexivity].
  destruct (comp y x) eqn:Hyx.
  { rewrite (Htrans y x z Hy Hx Hz Hyx Hxz) in Hyz. discriminate. }
  destruct (comp z y) eqn:Hzy.
  { rewrite (Htrans x z y Hx Hz Hy Hxz Hzy) in Hxy. discriminate. }
  destruct (Hequiv x y z Hx Hy Hz Hxy Hyx Hyz Hzy) as [Hfalse _]. congruence.
Qed.

Lemma elem_of_linear_insert val rev_prefix x :
  x ∈ linear_insert comp val rev_prefix <-> x = val \/ x ∈ rev_prefix.
Proof.
  induction rev_prefix as [|prev rest IH]; simpl.
  - rewrite list_elem_of_singleton, elem_of_nil. tauto.
  - destruct (comp val prev).
    + rewrite !elem_of_cons, IH. tauto.
    + rewrite (elem_of_cons (prev :: rest)). tauto.
Qed.

Lemma linear_insert_Permutation val rev_prefix :
  linear_insert comp val rev_prefix ≡ₚ val :: rev_prefix.
Proof.
  induction rev_prefix as [|prev rest IH]; simpl; [reflexivity |].
  destruct (comp val prev); [| reflexivity].
  rewrite IH. apply Permutation_swap.
Qed.

(** On the reversed prefix every element is not ordered before a later
    one; [linear_insert] keeps it so. *)
Lemma linear_insert_sorted val rev_prefix :
  val ∈ universe ->
  (forall x, x ∈ rev_prefix -> x ∈ universe) ->
  StronglySorted (fun x y => comp x y = false) rev_prefix ->
  StronglySorted (fun x y => comp x y = false) (linear_insert comp val rev_prefix).
Proof.
  intros Hval Hsub Hsorted.
  induction Hsorted as [|prev rest Hrest IH Hall]; simpl.
  - repeat constructor.
  - assert (Hprev : prev ∈ universe) by (apply Hsub; apply list_elem_of_here).
    assert (Hsub' : forall x, x ∈ rest -> x ∈ universe)
      by (intros x Hx; apply Hsub; now right).
    destruct (comp val prev) eqn:Hcmp.
    + constructor; [now apply IH |].
      apply Forall_forall. intros y Hy.
      apply elem_of_linear_insert in Hy as [-> | Hy].
      * now apply comp_asymmetric.
      * rewrite Forall_forall in Hall. now apply Hall.
    + constructor; [now constructor |].
      constructor; [assumption |].
      apply Forall_forall. intros y Hy. rewrite Forall_forall in Hall.
      apply (comp_negatively_transitive val prev y); auto.
Qed.

Lemma StronglySorted_reverse (R : A -> A -> Prop) (l : list A) :
  StronglySorted (flip R) l -> StronglySorted R (reverse l).
Proof.
  induction 1 as [|x l Hl IH Hall]; [constructor |]. rewrite reverse_cons.
  apply StronglySorted_app; repeat split.
  - intros y z Hy Hz. apply list_elem_of_singleton in Hz as ->.
    rewrite Forall_forall in Hall. apply Hall. now rewrite elem_of_reverse in Hy.
  - assumption.
  - repeat constructor.
Qed.

Lemma insert_sorted_Permutation prefix val :
  insert_sorted comp prefix val ≡ₚ val :: prefix.
Proof.
  unfold insert_sorted. destruct prefix as [|first rest]; [reflexivity |].
  destruct (comp val first); [reflexivity |].
  rewrite reverse_Permutation, linear_insert_Permutation.
  now rewrite reverse_Permutation.
Qed.

Lemma insert_sorted_sorted prefix val :
  val ∈ universe ->
  (forall x, x ∈ prefix -> x ∈ universe) ->
  StronglySorted (not_after comp) prefix ->
  StronglySorted (not_after comp) (insert_sorted comp prefix val).
Proof.
  intros Hval Hsub Hsorted. unfold insert_sorted.
  destruct prefix as [|first rest]; [repeat constructor |].
  destruct (comp val first) eqn:Hcmp.
  - constructor; [assumption |].
    assert (Hfirst : first ∈ universe) by (apply Hsub; apply list_elem_of_here).
    apply Forall_forall. intros y Hy. unfold not_after.
    apply elem_of_cons in Hy as [-> | Hy].
    + now apply comp_asymmetric.
    + assert (Hy' : y ∈ universe) by (apply Hsub; now right).
      destruct (comp y val) eqn:Hyval; [| reflexivity].
      destruct Hswo as (_ & Htrans & _).
      pose proof (Htrans y val first Hy' Hval Hfirst Hyval Hcmp) as Hyfirst.
      apply StronglySorted_inv in Hsorted as [_ Hall].
      rewrite Forall_forall in Hall. specialize (Hall y Hy). unfold not_after in Hall.
      congruence.
  - apply StronglySorted_reverse. unfold flip, not_after.
    apply linear_insert_sorted; [assumption | |].
    + intros x Hx. apply Hsub. now rewrite elem_of_reverse in Hx.
    + assert (Hgen : forall l', StronglySorted (not_after comp) (reverse l') ->
                StronglySorted (fun x y => comp x y = false) l').
      { induction l' as [|x l' IH]; [constructor |]. rewrite reverse_cons. intros Hs.
        apply StronglySorted_app in Hs as (Hcross & Hs1 & _).
        constructor; [now apply IH |].
        apply Forall_forall. intros y Hy.
        apply (Hcross y x); [now rewrite elem_of_reverse | apply list_elem_of_here]. }
      apply Hgen. now rewrite reverse_involutive.
Qed.

Lemma insertion_loop_Permutation l prefix :
  fold_left (insert_sorted comp) l prefix ≡ₚ prefix ++ l.
Proof.
  revert prefix. induction l as [|x l IH]; intros prefix; simpl.
  - now rewrite app_nil_r.
  - rewrite IH, insert_sorted_Permutation. simpl. apply Permutation_middle.
Qed.

Lemma insertion_loop_sorted l prefix :
  (forall x, x ∈ prefix -> x ∈ universe) ->
  (forall x, x ∈ l -> x ∈ universe) ->
  StronglySorted (not_after comp) prefix ->
  StronglySorted (not_after comp) (fold_left (insert_sorted comp) l prefix).
Proof.
  revert prefix. induction l as [|x l IH]; intros prefix Hprefix Hl Hsorted; simpl;
    [assumption |].
  apply IH.
  - intros y Hy. rewrite insert_sorted_Permutation in Hy.
    apply elem_of_cons in Hy as [-> | Hy]; [apply Hl; apply list_elem_of_here | auto].
  - intros y Hy. apply Hl. now right.
  - apply insert_sorted_sorted; [apply Hl; apply list_elem_of_here | |]; assumption.
Qed.

End InsertionSort.

Lemma StronglySorted_sorted_by {A} (comp : A -> A -> bool) (l : list A) :
  StronglySorted (not_after comp) l -> sorted_by comp l.
Proof.
  induction 1 as [|a l Hl IH Hall]; intros i j x y Hij Hi Hj.
  - rewrite lookup_nil in Hi. discriminate.
  - destruct j as [|j]; [lia |]. simpl in Hj.
    destruct i as [|i]; simpl in Hi.
    + injection Hi as <-. rewrite Forall_forall in Hall.
      apply Hall. eapply list_elem_of_lookup_2. exact Hj.
    + apply (IH i j); [lia | assumption | assumption].
Qed.

Lemma insertion_sort_std_sort {A} : std_sort (@insertion_sort A).
Proof.
  split.
  - intros comp l _. unfold insertion_sort. now rewrite insertion_loop_Permutation.
  - intros comp l Hswo. apply StronglySorted_sorted_by. unfold insertion_sort.
    apply (insertion_loop_sorted comp l Hswo); [| auto | constructor].
    intros x Hx. now apply elem_of_nil in Hx.
Qed.

(** The insertion sort rearranges its range whatever the comparator. *)
Lemma insertion_sort_Permutation {A} (comp : A -> A -> bool) (l : list A) :
  insertion_sort comp l ≡ₚ l.
Proof. unfold insertion_sort. now rewrite insertion_loop_Permutation. Qed.

Lemma strict_weak_order_on_nil {A} (comp : A -> A -> bool) : strict_weak_order_on comp [].
Proof.
  split; [| split].
  - intros x Hx. now apply elem_of_nil in Hx.
  - intros x y z Hx. now apply elem_of_nil in Hx.
  - intros x y z Hx. now apply elem_of_nil in Hx.
Qed.

(** ** [FindTopDocuments] within the contract of [std::sort] *)

(** When the comparator is a strict weak ordering of the documents that
    match, [FindTopDocuments] returns the first five of a rearrangement of
    them. *)
Lemma FindTopDocuments_within_contract {F} `{FloatOps F}
    (sort : (Document.t F -> Document.t F -> bool) -> list (Document.t F) -> list (Document.t F))
    (self : SearchServer F) rawQuery query (document_predicate : DocumentPredicate) documents :
  std_sort sort ->
  parseQuery self rawQuery Query.empty = (true, query) ->
  sort_within_contract self query document_predicate ->
  FindTopDocuments sort self rawQuery document_predicate = Returned documents ->
  exists matched_documents,
    findAllDocuments self query document_predicate = Returned matched_documents /\
    sort byRelevance matched_documents ≡ₚ matched_documents /\
    sorted_by byRelevance (sort byRelevance matched_documents) /\
    documents = take 5 (sort byRelevance matched_documents).
Proof.
  intros [Hperm Hsorted] Hparse Hcontract Hcall.
  destruct (FindTopDocuments_returned _ _ _ _ _ Hcall) as (query' & matched & Hparse' & Hfind & ->).
  rewrite Hparse in Hparse'. injection Hparse' as <-.
  unfold sort_within_contract in Hcontract. rewrite Hfind in Hcontract.
  exists matched. split; [exact Hfind |].
  split; [now apply Hperm |]. split; [now apply Hsorted | reflexivity].
Qed.

(** ** Minus words exclude documents *)

Lemma substring_all s : substring 0 (String.length s) s = s.
Proof. induction s as [|c s IH]; simpl; [reflexivity | now rewrite IH]. Qed.

Section MinusWords.
Context {F : Type} `{FloatOps F}.
Implicit Types self : SearchServer F.

Lemma parseQueryWord_minus self word :
  parseQueryWord self (String "-" word) =
  if isValidWord word then Some (QueryWord.mk word true (isStopWord self word)) else None.
Proof.
  unfold parseQueryWord. simpl. rewrite Nat.sub_0_r, substring_all.
  now destruct (isValidWord word).
Qed.

Lemma parseQuery_loop_minus self words query query' :
  parseQuery_loop self words query = (true, query') ->
  (forall word, word ∈ Query.minus_words query -> word ∈ Query.minus_words query') /\
  (forall word, String "-" word ∈ words ->
     word ∈ Query.minus_words query' \/ isStopWord self word = true).
Proof.
  revert query. induction words as [|token rest IH]; intros query; simpl.
  - intros [= <-]. split; [auto |]. intros word Hin. now apply elem_of_nil in Hin.
  - destruct (parseQueryWord self token) as [qw|] eqn:Hword; [| discriminate].
    intros Hloop. destruct (IH _ Hloop) as [Hkeep Hrest]. split.
    + intros word Hin. apply Hkeep.
      destruct (QueryWord.is_stop qw); simpl; [assumption |].
      destruct (QueryWord.is_minus qw); simpl; [| assumption].
      apply elem_of_set_insert. now right.
    + intros word Hin. apply elem_of_cons in Hin as [<- | Hin]; [| now apply Hrest].
      rewrite parseQueryWord_minus in Hword.
      destruct (isValidWord word); [| discriminate]. injection Hword as <-.
      simpl in Hkeep. destruct (isStopWord self word); [now right |]. left.
      apply Hkeep. simpl. apply elem_of_set_insert. now left.
Qed.

Lemma configured_once_reachable self : configured_once self -> reachable self.
Proof. induction 1; now constructor. Qed.

Lemma SetStopWords_no_documents stopWords self :
  documents_ self = ∅ -> stored_words_not_stop (SetStopWords stopWords self).2.
Proof.
  intros Hempty documentId data word Hdata.
  rewrite (proj1 (proj2 (SetStopWords_word_to_document_freqs stopWords self))), Hempty in Hdata.
  now rewrite lookup_empty in Hdata.
Qed.

Lemma configured_once_stored_words self :
  configured_once self -> stored_words_not_stop self.
Proof.
  induction 1 as [| self stopWords _ _ Hempty | self text _ _ Hempty
                 | self id doc status ratings _ IH].
  - intros documentId data word Hdata.
    change (documents_ SearchServer_default) with (∅ : gmap Z DocumentData.t) in Hdata.
    now rewrite lookup_empty in Hdata.
  - now apply SetStopWords_no_documents.
  - now apply SetStopWords_no_documents.
  - destruct (AddDocument_outcome self id doc status ratings) as [Hok | [what Hthrown]].
    + destruct (AddDocument_returned _ _ _ _ _ Hok) as (words & _ & _ & Hsplit & ->).
      intros documentId data word. simpl.
      destruct (decide (documentId = id)) as [-> | Hne].
      * rewrite lookup_insert_eq. intros [= <-]. simpl. intros Hin.
        apply splitIntoWordsNoStop_loop_true in Hsplit as [_ ->]. simpl in Hin.
        apply list_elem_of_In, filter_In in Hin as [_ Hstop].
        unfold isStopWord in Hstop. apply negb_true_iff, bool_decide_eq_false in Hstop.
        exact Hstop.
      * rewrite lookup_insert_ne by congruence. apply IH.
    + destruct (AddDocument_thrown _ _ _ _ _ _ Hthrown) as [_ ->]. exact IH.
Qed.

End MinusWords.

(** Within the contract of [std::sort], a document is never returned by
    [FindTopDocuments] when a minus word of the parsed query indexes it,
    whatever the predicate and the plus words.  On a server whose stop
    words were set before its documents were added, this holds of every
    token [-word] of the raw query. *)
Theorem FindTopDocuments_excludes_minus_words {F} `{FloatOps F}
    (sort : (Document.t F -> Document.t F -> bool) -> list (Document.t F) -> list (Document.t F))
    (self : SearchServer F) rawQuery query (document_predicate : DocumentPredicate)
    documents word document :
  std_sort sort ->
  parseQuery self rawQuery Query.empty = (true, query) ->
  sort_within_contract self query document_predicate ->
  FindTopDocuments sort self rawQuery document_predicate = Returned documents ->
  indexes (word_to_document_freqs_ self) word (Document.id document) ->
  word ∈ Query.minus_words query
  \/ (configured_once self /\ String "-" word ∈ split rawQuery) ->
  document ∉ documents.
Proof.
  intros Hsort Hparse Hcontract Hcall Hindexes Hminus.
  destruct (FindTopDocuments_within_contract sort self rawQuery query document_predicate
              documents Hsort Hparse Hcontract Hcall) as (matched & Hfind & Hperm & _ & ->).
  assert (Hword : word ∈ Query.minus_words query).
  { destruct Hminus as [Hin | [Honce Htoken]].
    - exact Hin.
    - destruct (parseQuery_loop_minus self _ _ _ Hparse) as [_ Htokens].
      destruct (Htokens word Htoken) as [Hin | Hstop]; [assumption |].
      exfalso.
      pose proof (reachable_index_consistent self (configured_once_reachable self Honce)) as Hinv.
      apply (index_consistent_indexes self word _ Hinv) in Hindexes as (data & Hdata & Hin).
      apply (configured_once_stored_words self Honce _ _ _ Hdata Hin).
      unfold isStopWord in Hstop. now apply bool_decide_eq_true in Hstop. }
  intros Hin. apply subseteq_take in Hin. rewrite Hperm in Hin.
  exact (findAllDocuments_excludes_minus_word _ _ _ _ _ _ Hfind Hword Hindexes Hin).
Qed.


(** ** The relevance that [findAllDocuments] accumulates *)

Section PlusWords.
Context {F : Type} `{FloatOps F}.
Implicit Types self : SearchServer F.

Lemma addRelevance_unfold self document_predicate inverse_document_freq
    (document_to_relevance : gmap Z F) k term_freq :
  addRelevance self document_predicate inverse_document_freq document_to_relevance (k, term_freq) =
  match documents_ self !! k with
  | None => Thrown (out_of_range "map::at")
  | Some data =>
      Returned
        (if document_predicate k (DocumentData.status data) (DocumentData.rating data)
         then <[k := f_add (default f_zero (document_to_relevance !! k))
                       (f_mul term_freq inverse_document_freq)]> document_to_relevance
         else document_to_relevance)
  end.
Proof.
  unfold addRelevance, map_at, subscript.
  destruct (documents_ self !! k) as [data|]; simpl; [| reflexivity].
  destruct (document_predicate k _ _); [| reflexivity].
  destruct (document_to_relevance !! k) as [r|]; simpl; [reflexivity |].
  cbv [mret outcome_ret]. now rewrite insert_insert_eq.
Qed.

(** The loop over the documents of one plus word. *)
Lemma addRelevance_loop self document_predicate inverse_document_freq
    (items : list (Z * F)) (document_to_relevance : gmap Z F) :
  NoDup items.*1 ->
  (forall k, k ∈ items.*1 -> is_Some (documents_ self !! k)) ->
  exists after : gmap Z F,
    for_each (addRelevance self document_predicate inverse_document_freq) items
      document_to_relevance = Returned after /\
    forall d,
      after !! d =
      match (list_to_map items : gmap Z F) !! d, documents_ self !! d with
      | Some term_freq, Some data =>
          if document_predicate d (DocumentData.status data) (DocumentData.rating data)
          then Some (f_add (default f_zero (document_to_relevance !! d))
                       (f_mul term_freq inverse_document_freq))
          else document_to_relevance !! d
      | _, _ => document_to_relevance !! d
      end.
Proof.
  revert document_to_relevance.
  induction items as [|[k term_freq] rest IH]; intros before Hnodup Hclosed;
    cbn [for_each].
  - exists before. split; [reflexivity |]. intros d. simpl. now rewrite lookup_empty.
  - rewrite addRelevance_unfold.
    destruct (Hclosed k) as [data Hdata]; [apply list_elem_of_here |].
    rewrite Hdata. simpl.
    apply NoDup_cons in Hnodup as [Hfresh Hnodup].
    edestruct (IH (if document_predicate k (DocumentData.status data) (DocumentData.rating data)
                   then <[k := f_add (default f_zero (before !! k))
                                 (f_mul term_freq inverse_document_freq)]> before
                   else before) Hnodup) as (after & -> & Hafter).
    { intros k' Hk'. apply Hclosed. now right. }
    exists after. split; [reflexivity |]. intros d. rewrite Hafter. simpl.
    destruct (decide (d = k)) as [-> | Hne].
    + rewrite lookup_insert_eq, Hdata.
      rewrite (not_elem_of_list_to_map_1 _ _ Hfresh).
      destruct (document_predicate k _ _); [apply lookup_insert_eq | reflexivity].
    + rewrite lookup_insert_ne by congruence.
      destruct (document_predicate k (DocumentData.status data) (DocumentData.rating data));
        [now rewrite lookup_insert_ne by congruence | reflexivity].
Qed.

Lemma plusWord_returns self document_predicate (document_to_relevance : gmap Z F) word :
  index_closed self ->
  exists after : gmap Z F,
    plusWord self document_predicate document_to_relevance word = Returned after /\
    forall d,
      after !! d =
      match contribution self document_predicate word d with
      | Some c => Some (f_add (default f_zero (document_to_relevance !! d)) c)
      | None => document_to_relevance !! d
      end.
Proof.
  intros Hclosed. unfold plusWord, contribution.
  destruct (word_to_document_freqs_ self !! word) as [freqs|] eqn:Hword.
  - unfold computeWordInverseDocumentFreq, map_at. rewrite Hword. simpl.
    destruct (addRelevance_loop self document_predicate (inverseDocumentFreq self freqs)
                (map_items freqs) document_to_relevance) as (after & Hloop & Hafter).
    { apply NoDup_fst_map_items. }
    { intros k Hk. apply elem_of_fst_map_items in Hk. eapply Hclosed; eassumption. }
    exists after. split; [exact Hloop |]. intros d. rewrite Hafter, list_to_map_map_items.
    destruct (freqs !! d) as [term_freq|]; simpl; [| reflexivity].
    destruct (documents_ self !! d) as [data|]; simpl; [| reflexivity].
    now destruct (document_predicate d _ _).
  - exists document_to_relevance. split; [reflexivity |]. intros d. reflexivity.
Qed.

Lemma plusWords_return self document_predicate plus_words (document_to_relevance : gmap Z F) :
  index_closed self ->
  exists after : gmap Z F,
    for_each (plusWord self document_predicate) plus_words document_to_relevance
      = Returned after /\
    forall d,
      after !! d =
      relevance_after self document_predicate plus_words d (document_to_relevance !! d).
Proof.
  intros Hclosed. revert document_to_relevance.
  induction plus_words as [|word rest IH]; intros before; cbn [for_each relevance_after].
  - exists before. split; reflexivity.
  - destruct (plusWord_returns self document_predicate before word Hclosed)
      as (middle & -> & Hmiddle). simpl.
    destruct (IH middle) as (after & -> & Hafter).
    exists after. split; [reflexivity |]. intros d. now rewrite Hafter, Hmiddle.
Qed.

Lemma relevance_after_Some self document_predicate plus_words d acc r :
  relevance_after self document_predicate plus_words d acc = Some r ->
  is_Some acc \/
  exists word, word ∈ plus_words /\ is_Some (contribution self document_predicate word d).
Proof.
  revert acc. induction plus_words as [|word rest IH]; intros acc; simpl.
  - intros ->. left. eauto.
  - intros Hafter. apply IH in Hafter as [Hacc | (w & Hin & Hw)].
    + destruct (contribution self document_predicate word d) as [c|] eqn:Hc.
      * right. exists word. split; [apply list_elem_of_here | rewrite Hc; eauto].
      * now left.
    + right. exists w. split; [now right | assumption].
Qed.

Lemma contribution_Some self document_predicate word d c :
  contribution self document_predicate word d = Some c ->
  exists freqs term_freq data,
    word_to_document_freqs_ self !! word = Some freqs /\
    freqs !! d = Some term_freq /\
    documents_ self !! d = Some data /\
    document_predicate d (DocumentData.status data) (DocumentData.rating data) = true /\
    c = f_mul term_freq (inverseDocumentFreq self freqs).
Proof.
  unfold contribution.
  destruct (word_to_document_freqs_ self !! word) as [freqs|] eqn:Hword; simpl; [| discriminate].
  destruct (freqs !! d) as [term_freq|] eqn:Hfreq; simpl; [| discriminate].
  destruct (documents_ self !! d) as [data|] eqn:Hdata; simpl; [| discriminate].
  destruct (document_predicate d _ _) eqn:Hpred; [| discriminate].
  intros [= <-]. exists freqs, term_freq, data. auto.
Qed.

(** On a closed index [findAllDocuments] returns: the documents, in
    ascending order of id, that some plus word contributes to and no minus
    word indexes, each with the relevance accumulated over the plus words
    and its stored rating. *)
Lemma findAllDocuments_returns self query document_predicate :
  index_closed self ->
  exists relevances : gmap Z F,
    (forall d,
       relevances !! d =
       if existsb (indexesb self d) (Query.minus_words query) then None
       else relevance_after self document_predicate (Query.plus_words query) d None) /\
    findAllDocuments self query document_predicate =
      Returned (map (scored self) (map_items relevances)).
Proof.
  intros Hclosed. unfold findAllDocuments.
  destruct (plusWords_return self document_predicate (Query.plus_words query) ∅ Hclosed)
    as (plus & -> & Hplus). simpl.
  set (relevances := fold_left (minusWord self) (Query.minus_words query) plus).
  assert (Hrel : forall d,
            relevances !! d =
            if existsb (indexesb self d) (Query.minus_words query) then None
            else relevance_after self document_predicate (Query.plus_words query) d None).
  { intros d. unfold relevances. rewrite minusWords_lookup, Hplus. now rewrite lookup_empty. }
  exists relevances. split; [exact Hrel |].
  destruct (pushDocument_loop_returns self (map_items relevances) []) as [result Hresult].
  - intros k Hk. apply elem_of_fst_map_items in Hk as [r Hr]. rewrite Hrel in Hr.
    destruct (existsb _ _); [discriminate |].
    apply relevance_after_Some in Hr as [[? ?] | (word & _ & [c Hc])]; [discriminate |].
    apply contribution_Some in Hc as (_ & _ & data & _ & _ & -> & _). eauto.
  - rewrite Hresult. now rewrite (pushDocument_loop _ _ _ _ Hresult).
Qed.

End PlusWords.

(** ** Relevance is TF-IDF (in real arithmetic) *)

(** Unfold the operations of [real_ops] to those of [R]. *)
Ltac real_ops :=
  cbv [f_zero f_one f_add f_sub f_mul f_div f_abs f_log f_lt f_gt f_of_int f_of_size
       EPSILON real_ops] in *.

Section TfIdf.
Implicit Types self : SearchServer R.

Lemma summed_inverse_counts (inv_word_count : R) n :
  Nat.iter n (fun tf : R => f_add tf inv_word_count) f_zero
  = (IZR (Z.of_nat n) * inv_word_count)%R.
Proof.
  induction n as [|n IH].
  - rewrite Nat2Z.inj_0. simpl. real_ops. lra.
  - rewrite Nat.iter_succ, IH, Nat2Z.inj_succ, succ_IZR. real_ops. lra.
Qed.

Lemma summed_term_freq_termFrequency (data : DocumentData.t) word tf :
  summed_term_freq data word = Some tf -> tf = termFrequency word data.
Proof.
  unfold summed_term_freq, termFrequency.
  destruct (count_occ string_dec (DocumentData.words data) word) as [|n] eqn:Hcount;
    [discriminate |].
  intros [= <-]. rewrite summed_inverse_counts. real_ops. unfold Rdiv.
  rewrite Nat2Z.inj_succ, succ_IZR. ring.
Qed.

Lemma size_entry_documentsContaining self word freqs :
  index_consistent self ->
  word_to_document_freqs_ self !! word = Some freqs ->
  size freqs = documentsContaining self word.
Proof.
  intros Hinv Hword. unfold documentsContaining.
  rewrite <- (size_dom (D := gset Z) freqs), <- (size_dom (D := gset Z) (filter _ _)).
  f_equal. apply set_eq. intros d. rewrite !elem_of_dom.
  transitivity (indexes (word_to_document_freqs_ self) word d).
  - unfold indexes. split; [eauto |]. intros (freqs' & Hword' & Hd). congruence.
  - rewrite (index_consistent_indexes self word d Hinv). split.
    + intros (data & Hdata & Hin). exists data. now apply map_lookup_filter_Some.
    + intros [data Hdata]. apply map_lookup_filter_Some in Hdata as [Hdata Hin]. eauto.
Qed.

Lemma contribution_tfidf self document_predicate word d data :
  index_consistent self ->
  documents_ self !! d = Some data ->
  document_predicate d (DocumentData.status data) (DocumentData.rating data) = true ->
  contribution self document_predicate word d =
  if bool_decide (word ∈ DocumentData.words data)
  then Some (termFrequency word data * inverseDocumentFrequency self word)%R
  else None.
Proof.
  intros Hinv Hdata Hpred.
  pose proof (Hinv word d) as Hwd. unfold stored_term_freq, index_lookup in Hwd.
  rewrite Hdata in Hwd. simpl in Hwd. unfold contribution.
  destruct (word_to_document_freqs_ self !! word) as [freqs|] eqn:Hword; simpl in *.
  - destruct (freqs !! d) as [tf|] eqn:Htf; simpl.
    + rewrite Hdata. simpl. rewrite Hpred.
      rewrite bool_decide_eq_true_2 by (apply summed_term_freq_Some; rewrite <- Hwd; eauto).
      symmetry in Hwd. apply summed_term_freq_termFrequency in Hwd as ->.
      unfold inverseDocumentFreq, inverseDocumentFrequency.
      rewrite (size_entry_documentsContaining self word freqs Hinv Hword).
      real_ops. unfold Rdiv. now rewrite Rmult_1_r.
    + rewrite bool_decide_eq_false_2; [reflexivity |].
      rewrite <- summed_term_freq_Some, <- Hwd. now intros [? ?].
  - rewrite bool_decide_eq_false_2; [reflexivity |].
    rewrite <- summed_term_freq_Some, <- Hwd. now intros [? ?].
Qed.

Lemma relevance_after_tfidf self document_predicate plus_words d data (acc : option R) :
  index_consistent self ->
  documents_ self !! d = Some data ->
  document_predicate d (DocumentData.status data) (DocumentData.rating data) = true ->
  default 0%R (relevance_after self document_predicate plus_words d acc) =
  (default 0%R acc +
   sum_R (map (fun word => termFrequency word data * inverseDocumentFrequency self word)
            (filter (fun word => word ∈ DocumentData.words data) plus_words)))%R.
Proof.
  intros Hinv Hdata Hpred. revert acc.
  induction plus_words as [|word rest IH]; intros acc; cbn [relevance_after].
  - simpl. lra.
  - rewrite IH, (contribution_tfidf self document_predicate word d data Hinv Hdata Hpred).
    rewrite filter_cons.
    destruct (decide (word ∈ DocumentData.words data)) as [Hin | Hnotin].
    + rewrite bool_decide_eq_true_2 by assumption. simpl. real_ops. lra.
    + rewrite bool_decide_eq_false_2 by assumption. reflexivity.
Qed.

End TfIdf.


(** ** The order of the result (in real arithmetic) *)

Section Ranking.
Implicit Types x y : Document.t R.

(** On relevances that are equal or at least [EPSILON] apart the
    comparator is the lexicographic order: relevance descending, then
    rating descending. *)
Lemma byRelevance_lexicographic (l : list (Document.t R)) x y :
  well_separated l -> x ∈ l -> y ∈ l ->
  byRelevance x y = true <->
  (Document.relevance x > Document.relevance y)%R \/
  (Document.relevance x = Document.relevance y /\ Document.rating y < Document.rating x).
Proof.
  intros Hsep Hx Hy. unfold byRelevance. real_ops.
  rewrite orb_true_iff, andb_true_iff, !bool_decide_eq_true, Z.ltb_lt.
  split.
  - intros [Hgt | [Hclose Hrating]]; [left; lra |].
    destruct (Hsep x y Hx Hy) as [Heq | Hfar]; [right; split; assumption | lra].
  - intros [Hgt | [Heq Hrating]]; [left; lra |].
    right. split; [| assumption].
    rewrite Heq, Rminus_diag, Rabs_R0. lra.
Qed.

Lemma byRelevance_strict_weak_order (l : list (Document.t R)) :
  well_separated l -> strict_weak_order_on byRelevance l.
Proof.
  intros Hsep.
  assert (Hlex := fun x y => byRelevance_lexicographic l x y Hsep).
  assert (Hfalse : forall x y, x ∈ l -> y ∈ l ->
            byRelevance x y = false <->
            ~ ((Document.relevance x > Document.relevance y)%R \/
               (Document.relevance x = Document.relevance y /\
                Document.rating y < Document.rating x))).
  { intros x y Hx Hy. rewrite <- (Hlex x y Hx Hy). now destruct (byRelevance x y). }
  split; [| split].
  - intros x Hx. apply (Hfalse x x Hx Hx). intros [Hgt | [_ Hrating]]; [lra | lia].
  - intros x y z Hx Hy Hz Hxy Hyz.
    apply (Hlex x y Hx Hy) in Hxy. apply (Hlex y z Hy Hz) in Hyz. apply (Hlex x z Hx Hz).
    destruct Hxy as [Hxy | [Hxy Hr1]], Hyz as [Hyz | [Hyz Hr2]].
    + left; lra.
    + left; lra.
    + left; lra.
    + right. split; [congruence | lia].
  - intros x y z Hx Hy Hz Hxy Hyx Hyz Hzy.
    apply (Hfalse x y Hx Hy) in Hxy. apply (Hfalse y x Hy Hx) in Hyx.
    apply (Hfalse y z Hy Hz) in Hyz. apply (Hfalse z y Hz Hy) in Hzy.
    assert (Hrel_xy : Document.relevance x = Document.relevance y).
    { destruct (Rtotal_order (Document.relevance x) (Document.relevance y))
        as [Hlt | [Heq | Hgt]]; [| assumption |]; exfalso; [apply Hyx | apply Hxy]; left; lra. }
    assert (Hrel_yz : Document.relevance y = Document.relevance z).
    { destruct (Rtotal_order (Document.relevance y) (Document.relevance z))
        as [Hlt | [Heq | Hgt]]; [| assumption |]; exfalso; [apply Hzy | apply Hyz]; left; lra. }
    assert (Hrat_xy : Document.rating x = Document.rating y).
    { destruct (Z.lt_trichotomy (Document.rating x) (Document.rating y))
        as [Hlt | [Heq | Hgt]]; [| assumption |]; exfalso;
        [apply Hyx | apply Hxy]; right; split; (congruence || lia). }
    assert (Hrat_yz : Document.rating y = Document.rating z).
    { destruct (Z.lt_trichotomy (Document.rating y) (Document.rating z))
        as [Hlt | [Heq | Hgt]]; [| assumption |]; exfalso;
        [apply Hzy | apply Hyz]; right; split; (congruence || lia). }
    split.
    + apply (Hfalse x z Hx Hz). intros [Hgt | [_ Hrating]]; [lra | lia].
    + apply (Hfalse z x Hz Hx). intros [Hgt | [_ Hrating]]; [lra | lia].
Qed.

Lemma not_byRelevance_ranked_before (l : list (Document.t R)) x y :
  well_separated l -> x ∈ l -> y ∈ l ->
  byRelevance y x = false -> ranked_before x y.
Proof.
  intros Hsep Hx Hy Hcmp.
  assert (Hnot : ~ ((Document.relevance y > Document.relevance x)%R \/
                    (Document.relevance y = Document.relevance x /\
                     Document.rating x < Document.rating y))).
  { rewrite <- (byRelevance_lexicographic l y x Hsep Hy Hx). congruence. }
  unfold ranked_before.
  destruct (Rtotal_order (Document.relevance x) (Document.relevance y))
    as [Hlt | [Heq | Hgt]].
  - exfalso. apply Hnot. left. lra.
  - right. split.
    + rewrite Heq, Rminus_diag, Rabs_R0. lra.
    + destruct (Z.lt_ge_cases (Document.rating x) (Document.rating y)) as [Hlt | Hge];
        [| lia].
      exfalso. apply Hnot. right. split; [congruence | assumption].
  - now left.
Qed.

End Ranking.

(** Without any condition on the relevances, a document that the
    comparator does not order after another may stand before it. *)
Lemma not_byRelevance_ranked (x y : Document.t R) :
  byRelevance y x = false -> ranked_before x y.
Proof.
  unfold byRelevance, ranked_before. real_ops.
  rewrite orb_false_iff, andb_false_iff, !bool_decide_eq_false, Z.ltb_ge.
  intros [Hnot_greater Hties].
  destruct (Rtotal_order (Document.relevance x) (Document.relevance y))
    as [Hlt | [Heq | Hgt]]; [lra | | now left].
  right. rewrite Heq, Rminus_diag, Rabs_R0.
  split; [lra |].
  destruct Hties as [Hfar | Hrating]; [| lia].
  exfalso. apply Hfar. rewrite Heq, Rminus_diag, Rabs_R0. lra.
Qed.

Lemma well_separated_singleton (x : Document.t R) : well_separated [x].
Proof.
  intros y z Hy%list_elem_of_singleton Hz%list_elem_of_singleton. subst. now left.
Qed.

(** Documents of one relevance are well separated. *)
Lemma well_separated_same_relevance (l : list (Document.t R)) r :
  (forall x, x ∈ l -> Document.relevance x = r) -> well_separated l.
Proof. intros Hsame x y Hx Hy. left. now rewrite (Hsame x Hx), (Hsame y Hy). Qed.

(** The call of [sort] keeps to the contract when the relevances of the
    documents that match are pairwise equal or at least 1e-6 apart. *)
Lemma sort_within_contract_well_separated (self : SearchServer R) query
    (document_predicate : DocumentPredicate) matched_documents :
  findAllDocuments self query document_predicate = Returned matched_documents ->
  well_separated matched_documents ->
  sort_within_contract self query document_predicate.
Proof.
  intros Hfind Hsep. unfold sort_within_contract. rewrite Hfind.
  now apply byRelevance_strict_weak_order.
Qed.

(** X8: Within the contract of [std::sort] (the comparator is a strict weak
    ordering of the documents that match) and in real arithmetic, the
    result of [FindTopDocuments] is ranked: any entry A and any later
    entry B satisfy A.relevance > B.relevance, or the two relevances are
    less than 1e-6 apart and A.rating >= B.rating. *)
Theorem FindTopDocuments_ranked
    (sort : (Document.t R -> Document.t R -> bool) -> list (Document.t R) -> list (Document.t R))
    (self : SearchServer R) rawQuery query (document_predicate : DocumentPredicate) documents :
  std_sort sort ->
  parseQuery self rawQuery Query.empty = (true, query) ->
  sort_within_contract self query document_predicate ->
  FindTopDocuments sort self rawQuery document_predicate = Returned documents ->
  forall i j A B,
    (i < j)%nat -> documents !! i = Some A -> documents !! j = Some B ->
    ranked_before A B.
Proof.
  intros Hsort Hparse Hcontract Hcall i j A B Hij HA HB.
  destruct (FindTopDocuments_within_contract sort self rawQuery query document_predicate
              documents Hsort Hparse Hcontract Hcall) as (matched & _ & _ & Hsorted & ->).
  apply lookup_take_Some in HA as [HA _]. apply lookup_take_Some in HB as [HB _].
  apply not_byRelevance_ranked. exact (Hsorted i j A B Hij HA HB).
Qed.


Lemma ln_bounds (y : R) : (0 < y)%R -> (1 - / y <= ln y <= y - 1)%R.
Proof.
  intros Hy.
  assert (Hupper : forall z : R, (0 < z)%R -> (ln z <= z - 1)%R).
  { intros z Hz. pose proof (exp_ineq1_le (ln z)) as Hexp.
    rewrite (exp_ln z Hz) in Hexp. lra. }
  split; [| now apply Hupper].
  pose proof (Hupper (/ y)%R (Rinv_0_lt_compat y Hy)) as Hinv.
  rewrite (ln_Rinv y Hy) in Hinv. lra.
Qed.

Lemma ln_4_3_bounds : (/ 4 <= ln (4 * 1 / 3) <= / 3)%R.
Proof.
  replace (4 * 1 / 3)%R with (4 / 3)%R by lra.
  pose proof (ln_bounds (4 / 3)%R ltac:(lra)) as Hbounds.
  replace (/ (4 / 3))%R with (3 / 4)%R in Hbounds by lra. lra.
Qed.

Lemma ln_3_2_bounds : (/ 3 <= ln (3 * 1 / 2) <= / 2)%R.
Proof.
  replace (3 * 1 / 2)%R with (3 / 2)%R by lra.
  pose proof (ln_bounds (3 / 2)%R ltac:(lra)) as Hbounds.
  replace (/ (3 / 2))%R with (2 / 3)%R in Hbounds by lra. lra.
Qed.

(** The documents that match "cat dog" on the server of the second
    scenario, and the call of [sort] on them. *)
Lemma pets_cat_dog_matched :
  findAllDocuments pets_server (Query.mk ["cat"; "dog"] []) (fun _ _ _ => true) =
  Returned [Document.mk 2 (0 + (0 + 1 / 2) * ln (3 * 1 / 2))%R 1;
            Document.mk 9 (0 + (0 + 1 / 3) * ln (3 * 1 / 2))%R 2].
Proof. vm_compute. reflexivity. Qed.

Lemma pets_cat_dog_within_contract :
  sort_within_contract pets_server (Query.mk ["cat"; "dog"] []) (fun _ _ _ => true).
Proof.
  apply (sort_within_contract_well_separated _ _ _ _ pets_cat_dog_matched).
  pose proof ln_3_2_bounds as Hln.
  intros x y Hx Hy.
  apply elem_of_cons in Hx as [-> | Hx]; [| apply list_elem_of_singleton in Hx as ->];
    (apply elem_of_cons in Hy as [-> | Hy]; [| apply list_elem_of_singleton in Hy as ->]);
    simpl; first [left; reflexivity | right].
  - rewrite Rabs_right; lra.
  - rewrite Rabs_left; lra.
Qed.

Lemma FindTopDocuments_ranked_witness :
  exists documents,
    FindTopDocuments insertion_sort pets_server "cat dog" (fun _ _ _ => true)
      = Returned documents /\
    forall i j A B,
      (i < j)%nat -> documents !! i = Some A -> documents !! j = Some B ->
      ranked_before A B.
Proof.
  assert (Hparse : parseQuery pets_server "cat dog" Query.empty
                   = (true, Query.mk ["cat"; "dog"] [])) by (vm_compute; reflexivity).
  pose proof (FindTopDocuments_returns insertion_sort pets_server "cat dog" (fun _ _ _ => true)
                _ _ Hparse pets_cat_dog_matched) as Hcall.
  eexists. split; [exact Hcall |].
  exact (FindTopDocuments_ranked insertion_sort pets_server "cat dog"
           (Query.mk ["cat"; "dog"] []) (fun _ _ _ => true) _
           insertion_sort_std_sort Hparse pets_cat_dog_within_contract Hcall).
Defined.

(** The documents that match "cat -black" there: document 2 alone. *)
Lemma pets_cat_black_matched :
  findAllDocuments pets_server (Query.mk ["cat"] ["black"]) (fun _ _ _ => true) =
  Returned [Document.mk 2 (0 + (0 + 1 / 2) * ln (3 * 1 / 2))%R 1].
Proof. vm_compute. reflexivity. Qed.

Lemma pets_cat_black_within_contract :
  sort_within_contract pets_server (Query.mk ["cat"] ["black"]) (fun _ _ _ => true).
Proof.
  apply (sort_within_contract_well_separated _ _ _ _ pets_cat_black_matched).
  apply well_separated_singleton.
Qed.

Lemma FindTopDocuments_excludes_minus_words_witness :
  Document.mk 9 0%R 2 ∉ [Document.mk 2 (0 + (0 + 1 / 2) * ln (3 * 1 / 2))%R 1].
Proof.
  apply (FindTopDocuments_excludes_minus_words insertion_sort pets_server "cat -black"
           (Query.mk ["cat"] ["black"]) (fun _ _ _ => true) _ "black" (Document.mk 9 0%R 2)
           insertion_sort_std_sort ltac:(vm_compute; reflexivity)
           pets_cat_black_within_contract ltac:(vm_compute; reflexivity)).
  - eexists. split; [vm_compute; reflexivity |]. vm_compute. eauto.
  - right. split.
    + unfold pets_server, run. cbn [fold_left perform].
      repeat first [apply configured_AddDocument
                   | apply configured_SetStopWordsText; [| reflexivity]
                   | apply configured_default].
    + vm_compute. apply list_elem_of_further, list_elem_of_here.
Defined.

(** ** Close relevances are not ranked *)

Lemma close_server_matched :
  findAllDocuments close_server (Query.mk ["a"] []) (fun _ _ _ => true) =
  Returned [Document.mk 1 (close_relevance 600) 1;
            Document.mk 2 (close_relevance 601) 5;
            Document.mk 3 (close_relevance 602) 9].
Proof. vm_compute. reflexivity. Qed.

(** The comparator orders document 2 before document 1 (close relevances,
    higher rating) and document 1 before document 2 (higher relevance). *)
Lemma byRelevance_close_2_1 :
  byRelevance (Document.mk 2 (close_relevance 601) 5) (Document.mk 1 (close_relevance 600) 1)
  = true.
Proof.
  pose proof ln_4_3_bounds as Hln.
  unfold byRelevance, close_relevance. real_ops. simpl.
  apply orb_true_iff. right. apply andb_true_iff. split; [| reflexivity].
  apply bool_decide_eq_true. rewrite Rabs_left; lra.
Qed.

Lemma byRelevance_close_1_2 :
  byRelevance (Document.mk 1 (close_relevance 600) 1) (Document.mk 2 (close_relevance 601) 5)
  = true.
Proof.
  pose proof ln_4_3_bounds as Hln.
  unfold byRelevance, close_relevance. real_ops. simpl.
  apply orb_true_iff. left. apply bool_decide_eq_true. lra.
Qed.

Lemma byRelevance_close_3_2 :
  byRelevance (Document.mk 3 (close_relevance 602) 9) (Document.mk 2 (close_relevance 601) 5)
  = true.
Proof.
  pose proof ln_4_3_bounds as Hln.
  unfold byRelevance, close_relevance. real_ops. simpl.
  apply orb_true_iff. right. apply andb_true_iff. split; [| reflexivity].
  apply bool_decide_eq_true. rewrite Rabs_left; lra.
Qed.

(** So the comparator is not a strict weak ordering of the documents that
    match: the call of [sort] is outside the contract. *)
Lemma byRelevance_not_strict_weak_order :
  ~ strict_weak_order_on byRelevance
      [Document.mk 1 (close_relevance 600) 1;
       Document.mk 2 (close_relevance 601) 5;
       Document.mk 3 (close_relevance 602) 9].
Proof.
  intros (Hirr & Htrans & _).
  set (d1 := Document.mk 1 (close_relevance 600) 1) in *.
  set (d2 := Document.mk 2 (close_relevance 601) 5) in *.
  assert (H1 : d1 ∈ [d1; d2; Document.mk 3 (close_relevance 602) 9]) by apply list_elem_of_here.
  assert (H2 : d2 ∈ [d1; d2; Document.mk 3 (close_relevance 602) 9])
    by apply list_elem_of_further, list_elem_of_here.
  pose proof (Htrans d1 d2 d1 H1 H2 H1 byRelevance_close_1_2 byRelevance_close_2_1) as Hcycle.
  rewrite (Hirr d1 H1) in Hcycle. discriminate.
Qed.

(** The insertion sort moves document 2 in front of document 1, then
    document 3 in front of document 2. *)
Lemma close_server_sorted :
  insertion_sort byRelevance
    [Document.mk 1 (close_relevance 600) 1;
     Document.mk 2 (close_relevance 601) 5;
     Document.mk 3 (close_relevance 602) 9]
  = [Document.mk 3 (close_relevance 602) 9;
     Document.mk 2 (close_relevance 601) 5;
     Document.mk 1 (close_relevance 600) 1].
Proof.
  unfold insertion_sort. cbn [fold_left insert_sorted].
  rewrite byRelevance_close_2_1. cbn [fold_left insert_sorted].
  now rewrite byRelevance_close_3_2.
Qed.

(** C3: with three documents whose relevances for "a" are pairwise less
    than 1e-6 apart, except the first and the last, the document with the
    lowest relevance is returned first: it stands before a document whose
    relevance is higher by more than 1e-6. *)
Lemma FindTopDocuments_close_relevances_not_ranked :
  std_sort (@insertion_sort (Document.t R))
  /\ reachable close_server
  /\ exists documents A B,
       FindTopDocuments insertion_sort close_server "a" (fun _ _ _ => true)
         = Returned documents
       /\ documents !! 0%nat = Some A
       /\ documents !! 2%nat = Some B
       /\ ~ ranked_before A B.
Proof.
  split; [apply insertion_sort_std_sort |].
  split; [apply run_reachable |].
  exists [Document.mk 3 (close_relevance 602) 9;
          Document.mk 2 (close_relevance 601) 5;
          Document.mk 1 (close_relevance 600) 1],
    (Document.mk 3 (close_relevance 602) 9), (Document.mk 1 (close_relevance 600) 1).
  split; [| split; [reflexivity | split; [reflexivity |]]].
  - rewrite (FindTopDocuments_returns insertion_sort close_server "a" (fun _ _ _ => true)
               (Query.mk ["a"] []) _ ltac:(vm_compute; reflexivity) close_server_matched).
    now rewrite close_server_sorted.
  - pose proof ln_4_3_bounds as Hln.
    unfold ranked_before, close_relevance. simpl.
    intros [Hgt | [Hclose _]]; [lra |].
    rewrite Rabs_left in Hclose; lra.
Qed.

(** ** Outside the contract of [std::sort] *)














(** ** The scenarios of the specification *)

(** Six documents match "cat" and five are returned. *)
Example FindTopDocuments_six_match_five_returned :
  exists matched_documents documents,
    findAllDocuments six_server (Query.mk ["cat"] []) (fun _ _ _ => true)
      = Returned matched_documents
    /\ length matched_documents = 6%nat
    /\ FindTopDocuments insertion_sort six_server "cat" (fun _ _ _ => true) = Returned documents
    /\ length documents = 5%nat.
Proof.
  destruct (findAllDocuments six_server (Query.mk ["cat"] []) (fun _ _ _ => true))
    as [matched|e] eqn:Hfind; [| vm_compute in Hfind; discriminate].
  assert (Hlength : length matched = 6%nat).
  { vm_compute in Hfind. now injection Hfind as <-. }
  exists matched, (take 5 (insertion_sort byRelevance matched)).
  split; [reflexivity |]. split; [assumption |]. split.
  - apply FindTopDocuments_returns with (query := Query.mk ["cat"] []);
      [vm_compute; reflexivity | assumption].
  - rewrite length_take.
    rewrite (Permutation_length (insertion_sort_Permutation byRelevance matched)).
    lia.
Qed.

(** A stop word finds nothing; "cat" finds the one document, rated 2. *)
Example FindTopDocuments_city :
  FindTopDocuments insertion_sort city_server "in" (fun _ status _ => bool_decide (status = ACTUAL))
    = Returned []
  /\ exists relevance,
       FindTopDocuments insertion_sort city_server "cat"
         (fun _ status _ => bool_decide (status = ACTUAL))
       = Returned [Document.mk 42 relevance 2].
Proof. split; [| eexists]; vm_compute; reflexivity. Qed.

(** "cat -black" finds document 2 only. *)
Example FindTopDocuments_pets :
  exists relevance rating,
    FindTopDocuments insertion_sort pets_server "cat -black"
      (fun _ status _ => bool_decide (status = ACTUAL))
    = Returned [Document.mk 2 relevance rating].
Proof. do 2 eexists. vm_compute. reflexivity. Qed.

(** A word that is both a plus and a minus word excludes every document
    that contains it. *)
Example FindTopDocuments_cat_minus_cat :
  FindTopDocuments insertion_sort pets_server "cat -cat" (fun _ _ _ => true) = Returned [].
Proof. vm_compute. reflexivity. Qed.

(** * Further properties of the validating server *)

(** ** Valid words *)

Lemma isValidWord_from_later i word :
  isValidWord_from (S i) word = true <->
  Forall valid_later_char (list_ascii_of_string word).
Proof.
  revert i. induction word as [|c word IH]; intros i; cbn [isValidWord_from list_ascii_of_string].
  - split; [constructor | reflexivity].
  - rewrite Forall_cons, <- (IH (S i)). unfold valid_later_char, isValidChar.
    cbn [Nat.eqb negb andb].
    destruct (char_value c <? 0) eqn:Hneg; cbn [negb].
    + apply Z.ltb_lt in Hneg. tauto.
    + apply Z.ltb_ge in Hneg.
      destruct (iscntrl (char_value c)) eqn:Hcntrl; cbn [negb].
      * split; [discriminate |]. intros [[? | Hgraph] _]; [lia |].
        unfold iscntrl, isgraph in *. lia.
      * destruct (isgraph (char_value c)); cbn [negb]; [tauto |].
        split; [discriminate |]. intros [[? | ?] _]; [lia | discriminate].
Qed.

Lemma isValidWord_chars word :
  isValidWord word = true <->
  exists c rest,
    word = String c rest /\ valid_first_char c /\
    Forall valid_later_char (list_ascii_of_string rest).
Proof.
  destruct word as [|c rest]; cbn [isValidWord].
  - split; [discriminate | intros (? & ? & ? & _); discriminate].
  - cbn [isValidWord_from Nat.eqb]. unfold isValidChar at 1. cbn [negb andb].
    transitivity (valid_first_char c /\ Forall valid_later_char (list_ascii_of_string rest)).
    + rewrite <- (isValidWord_from_later 0). unfold valid_first_char.
      destruct (char_value c <? 0) eqn:Hneg; cbn [negb].
      * apply Z.ltb_lt in Hneg. tauto.
      * apply Z.ltb_ge in Hneg.
        destruct (iscntrl (char_value c)) eqn:Hcntrl; cbn [negb].
        -- split; [discriminate |]. intros [[? | Halpha] _]; [lia |].
           unfold iscntrl, isalpha in *. lia.
        -- destruct (isalpha (char_value c)); cbn [negb]; [tauto |].
           split; [discriminate |]. intros [[? | ?] _]; [lia | discriminate].
    + split.
      * intros [? ?]. eauto.
      * intros (c' & rest' & [= -> ->] & ? & ?). tauto.
Qed.

Lemma valid_later_char_not_delim c : valid_later_char c -> is_delim default_delims c = false.
Proof.
  intros Hc. unfold is_delim. apply bool_decide_eq_false. intros Hin.
  assert (Hvalue : char_value c = 32 \/ char_value c = 13 \/ char_value c = 10
                   \/ char_value c = 9 \/ char_value c = 11).
  { unfold default_delims in Hin. rewrite !elem_of_cons, elem_of_nil in Hin.
    destruct Hin as [-> | [-> | [-> | [-> | [-> | []]]]]]; vm_compute; tauto. }
  destruct Hc as [Hneg | Hgraph]; [lia |].
  unfold isgraph in Hgraph. lia.
Qed.

Lemma isValidWord_delimiter_free word : isValidWord word = true -> delimiter_free word.
Proof.
  intros (c & rest & -> & Hc & Hrest)%isValidWord_chars.
  unfold delimiter_free. cbn [list_ascii_of_string]. constructor.
  - apply valid_later_char_not_delim. destruct Hc as [? | Halpha]; [now left | right].
    unfold isalpha, isgraph in *. lia.
  - eapply Forall_impl; [exact Hrest |]. apply valid_later_char_not_delim.
Qed.

(** ** The words [split] returns *)

Lemma delimiter_free_app a b : delimiter_free (a +:+ b) <-> delimiter_free a /\ delimiter_free b.
Proof.
  unfold delimiter_free. induction a as [|c a IH].
  - rewrite append_empty_l. cbn [list_ascii_of_string]. split; [auto | tauto].
  - rewrite append_String. cbn [list_ascii_of_string]. rewrite !Forall_cons, IH. tauto.
Qed.

Lemma delimiter_free_snoc a c :
  delimiter_free a -> is_delim default_delims c = false ->
  delimiter_free (a +:+ String c EmptyString).
Proof.
  intros Ha Hc. apply delimiter_free_app. split; [exact Ha |].
  unfold delimiter_free. cbn [list_ascii_of_string]. auto.
Qed.

(** Every word read from [rest], after the characters [acc] of the word
    being read, is a token of the whole text. *)
Lemma words_from_is_token rest before acc word :
  (before = EmptyString
   \/ exists b c, before = b +:+ String c EmptyString /\ is_delim default_delims c = true) ->
  delimiter_free acc ->
  word ∈ words_from default_delims rest acc ->
  is_token (before +:+ acc +:+ rest) word.
Proof.
  revert before acc word.
  induction rest as [|c rest IH]; intros before acc word Hbefore Hacc Hword;
    cbn [words_from] in Hword.
  - destruct acc as [|a acc]; [now apply elem_of_nil in Hword |].
    apply list_elem_of_singleton in Hword as ->.
    exists before, EmptyString. repeat split; auto.
  - destruct (is_delim default_delims c) eqn:Hc.
    + assert (Hnext : forall w, w ∈ words_from default_delims rest EmptyString ->
                        is_token (before +:+ acc +:+ String c rest) w).
      { intros w Hw.
        replace (before +:+ acc +:+ String c rest)
          with ((before +:+ acc +:+ String c EmptyString) +:+ EmptyString +:+ rest).
        - apply IH; [| constructor | exact Hw]. right. exists (before +:+ acc), c.
          split; [| exact Hc]. now rewrite append_assoc.
        - now rewrite !append_assoc, append_empty_l, append_String, append_empty_l. }
      destruct acc as [|a acc]; [now apply Hnext |].
      apply elem_of_cons in Hword as [-> | Hword]; [| now apply Hnext].
      exists before, (String c rest). repeat split; eauto.
    + replace (before +:+ acc +:+ String c rest)
        with (before +:+ (acc +:+ String c EmptyString) +:+ rest).
      * apply IH; [exact Hbefore | now apply delimiter_free_snoc | exact Hword].
      * now rewrite !append_assoc, append_String, append_empty_l.
Qed.

(** Every word [split] returns is a token of the text. *)
Lemma split_is_token text word : word ∈ split text -> is_token text word.
Proof.
  rewrite split_words. intros Hword.
  replace text with (EmptyString +:+ EmptyString +:+ text) at 1
    by now rewrite !append_empty_l.
  apply words_from_is_token; [now left | constructor | exact Hword].
Qed.

Lemma elem_of_split text word : word ∈ split text <-> is_token text word.
Proof. split; [apply split_is_token | apply is_token_split]. Qed.

(** X1: [split] returns exactly the tokens of the text: the maximal runs of
    characters other than the delimiters.  No word it returns is empty or
    holds a delimiter. *)
Theorem split_returns_tokens text word :
  (word ∈ split text <-> is_token text word)
  /\ (word ∈ split text -> word <> EmptyString /\ delimiter_free word).
Proof.
  split; [apply elem_of_split |].
  intros (_ & _ & _ & Hnonempty & Hfree & _)%split_is_token. now split.
Qed.

(** Words joined by single spaces. *)
Lemma split_concat words :
  Forall (fun word => word <> EmptyString /\ delimiter_free word) words ->
  split (String.concat " " words) = words.
Proof.
  rewrite split_words. induction words as [|x words IH]; intros Hwords; [reflexivity |].
  apply Forall_cons in Hwords as [[Hx Hfree] Hwords].
  destruct words as [|y words].
  - cbn [String.concat]. rewrite <- (append_empty_r x) at 1.
    rewrite (words_from_no_delim _ _ _ _ Hfree), append_empty_l. cbn [words_from].
    destruct x; [congruence | reflexivity].
  - change (String.concat " " (x :: y :: words))
      with (x +:+ " " +:+ String.concat " " (y :: words)).
    rewrite (words_from_no_delim _ _ _ _ Hfree), append_empty_l.
    rewrite append_String, append_empty_l. cbn [words_from].
    change (is_delim default_delims " ") with true. cbn match.
    rewrite (IH Hwords). destruct x; [congruence | reflexivity].
Qed.

(** X2: [split] inverts joining by single spaces: the words of a text made of
    non-empty, delimiter-free words separated by one space each are these
    words, in order. *)
Theorem split_inverts_concat words :
  Forall (fun word => word <> EmptyString /\ delimiter_free word) words ->
  split (String.concat " " words) = words.
Proof. apply split_concat. Qed.

Lemma split_inverts_concat_witness :
  split (String.concat " " ["white"; "cat"; "and"; "fashion"; "collar"])
  = ["white"; "cat"; "and"; "fashion"; "collar"].
Proof.
  apply (split_inverts_concat ["white"; "cat"; "and"; "fashion"; "collar"]).
  repeat constructor; try discriminate.
Defined.

(** A valid word is one token. *)
Lemma split_valid_word word : isValidWord word = true -> split word = [word].
Proof.
  intros Hvalid. change word with (String.concat " " [word]) at 1.
  apply split_concat. constructor; [| constructor].
  split; [| now apply isValidWord_delimiter_free].
  destruct word; [discriminate | discriminate].
Qed.

(** X3: The characters of a valid word: a first character that is a letter or
    a byte with the high bit set, then printing characters other than the
    space, or bytes with the high bit set.  A valid word holds no
    delimiter, so [split] returns it as it is. *)
Theorem isValidWord_characterised word :
  (isValidWord word = true <->
   exists c rest,
     word = String c rest /\ valid_first_char c /\
     Forall valid_later_char (list_ascii_of_string rest))
  /\ (isValidWord word = true -> split word = [word]).
Proof. split; [apply isValidWord_chars | apply split_valid_word]. Qed.

(** ** [MatchDocument], loop by loop *)

Section MatchDocumentFacts.
Context {F : Type} `{FloatOps F}.
Implicit Types self : SearchServer F.

Lemma indexesb_index_lookup self documentId word :
  indexesb self documentId word =
  bool_decide (is_Some (index_lookup (word_to_document_freqs_ self) word documentId)).
Proof.
  unfold indexesb, index_lookup.
  destruct (word_to_document_freqs_ self !! word) as [freqs|]; simpl;
    first [reflexivity | symmetry; apply bool_decide_eq_false; now intros [? ?]].
Qed.

Lemma matchMinusWords_existsb self documentId minus_words matched_words :
  matchMinusWords self documentId minus_words matched_words =
  if existsb (indexesb self documentId) minus_words then [] else matched_words.
Proof.
  induction minus_words as [|word rest IH]; cbn [matchMinusWords existsb]; [reflexivity |].
  unfold indexesb at 1.
  destruct (word_to_document_freqs_ self !! word) as [freqs|]; [| exact IH].
  destruct (bool_decide (is_Some (freqs !! documentId))); [reflexivity | exact IH].
Qed.

(** [MatchDocument] in one piece: the query is parsed first, the words are
    matched against the index, and the document is looked up last. *)
Lemma MatchDocument_unfold self rawQuery documentId :
  MatchDocument self rawQuery documentId =
  match parseQuery self rawQuery Query.empty with
  | (false, _) => Thrown (invalid_argument "Bad query")
  | (true, query) =>
      match documents_ self !! documentId with
      | None => Thrown (out_of_range "map::at")
      | Some data =>
          Returned
            (if existsb (indexesb self documentId) (Query.minus_words query) then []
             else List.filter (indexesb self documentId) (Query.plus_words query),
             DocumentData.status data)
      end
  end.
Proof.
  unfold MatchDocument.
  destruct (parseQuery self rawQuery Query.empty) as [[|] query]; cbn [negb]; [| reflexivity].
  rewrite matchPlusWords_filter, matchMinusWords_existsb. unfold map_at.
  destruct (documents_ self !! documentId); reflexivity.
Qed.

Lemma parseQueryWord_stopWords self self' text :
  m_stopWords self = m_stopWords self' ->
  parseQueryWord self text = parseQueryWord self' text.
Proof. intros Hstop. unfold parseQueryWord, isStopWord. now rewrite Hstop. Qed.

Lemma parseQuery_loop_stopWords self self' words query :
  m_stopWords self = m_stopWords self' ->
  parseQuery_loop self words query = parseQuery_loop self' words query.
Proof.
  intros Hstop. revert query. induction words as [|word rest IH]; intros query;
    cbn [parseQuery_loop]; [reflexivity |].
  rewrite (parseQueryWord_stopWords self self' word Hstop).
  destruct (parseQueryWord self' word); [apply IH | reflexivity].
Qed.

Lemma parseQuery_stopWords self self' text query :
  m_stopWords self = m_stopWords self' ->
  parseQuery self text query = parseQuery self' text query.
Proof. apply parseQuery_loop_stopWords. Qed.

End MatchDocumentFacts.

(** ** What [parseQuery] accepts and returns *)

Section ParseQuery.
Context {F : Type} `{FloatOps F}.
Implicit Types self : SearchServer F.

Lemma parseQueryWord_strip_minus self token :
  parseQueryWord self token =
  if isValidWord (strip_minus token)
  then Some (QueryWord.mk (strip_minus token) (is_minus_token token)
               (isStopWord self (strip_minus token)))
  else None.
Proof.
  destruct token as [|c rest]; [reflexivity |].
  unfold parseQueryWord, strip_minus, is_minus_token.
  destruct (Ascii.eqb c "-") eqn:Hc.
  - cbn [String.length]. rewrite Nat.sub_succ, Nat.sub_0_r.
    cbn [substring]. rewrite substring_all.
    destruct (isValidWord rest); reflexivity.
  - destruct (isValidWord (String c rest)); reflexivity.
Qed.

Lemma valid_word_not_minus word : isValidWord word = true -> is_minus_token word = false.
Proof.
  intros (c & rest & -> & Hc & _)%isValidWord_chars. cbn [is_minus_token].
  destruct (Ascii.eqb_spec c "-") as [-> | ?]; [| reflexivity].
  destruct Hc as [Hneg | Halpha]; [vm_compute in Hneg | vm_compute in Halpha]; discriminate.
Qed.

Lemma strip_minus_plus token : is_minus_token token = false -> strip_minus token = token.
Proof. destruct token as [|c rest]; [reflexivity |]. cbn. now intros ->. Qed.

Lemma strip_minus_minus token :
  is_minus_token token = true -> token = String "-" (strip_minus token).
Proof.
  destruct token as [|c rest]; [discriminate |]. cbn. intros Hc. rewrite Hc.
  now apply Ascii.eqb_eq in Hc as ->.
Qed.

Lemma parseQuery_loop_true self words query :
  (parseQuery_loop self words query).1 = true <->
  Forall (fun token => isValidWord (strip_minus token) = true) words.
Proof.
  revert query. induction words as [|token rest IH]; intros query; cbn [parseQuery_loop].
  - split; [constructor | reflexivity].
  - rewrite Forall_cons, parseQueryWord_strip_minus.
    destruct (isValidWord (strip_minus token)).
    + rewrite IH. tauto.
    + cbn. split; [discriminate | intros [? _]; discriminate].
Qed.

Lemma parseQuery_loop_words self words query query' :
  parseQuery_loop self words query = (true, query') ->
  (forall word, word ∈ Query.plus_words query' <->
     word ∈ Query.plus_words query \/
     (word ∈ words /\ is_minus_token word = false /\ isStopWord self word = false)) /\
  (forall word, word ∈ Query.minus_words query' <->
     word ∈ Query.minus_words query \/
     (String "-" word ∈ words /\ isStopWord self word = false)).
Proof.
  revert query. induction words as [|token rest IH]; intros query; cbn [parseQuery_loop].
  - intros [= ->]. split; intros word; rewrite elem_of_nil; tauto.
  - rewrite parseQueryWord_strip_minus.
    destruct (isValidWord (strip_minus token)) eqn:Hvalid; [| discriminate].
    cbn [QueryWord.is_stop QueryWord.is_minus QueryWord.data].
    intros Hloop. apply IH in Hloop as [Hplus Hminus].
    assert (Hdash : forall x, is_minus_token (String "-" x) = true) by reflexivity.
    destruct (is_minus_token token) eqn:Hminus_token.
    + pose proof (strip_minus_minus _ Hminus_token) as Htoken.
      remember (strip_minus token) as w eqn:Hw. clear Hw Hminus_token. subst token.
      destruct (isStopWord self w) eqn:Hstop;
        cbn [negb Query.plus_words Query.minus_words] in Hplus, Hminus;
        (split; intros word; [rewrite Hplus | rewrite Hminus];
         rewrite ?elem_of_set_insert, elem_of_cons;
         [specialize (Hdash w) |];
         intuition (simplify_eq; first [congruence | tauto | now auto])).
    + rewrite (strip_minus_plus _ Hminus_token) in *.
      assert (Hnodash : forall x, String "-" x <> token).
      { intros x <-. rewrite Hdash in Hminus_token. discriminate. }
      destruct (isStopWord self token) eqn:Hstop;
        cbn [negb Query.plus_words Query.minus_words] in Hplus, Hminus;
        (split; intros word; [rewrite Hplus | rewrite Hminus];
         rewrite ?elem_of_set_insert, elem_of_cons;
         [| specialize (Hnodash word)];
         intuition (simplify_eq; first [congruence | tauto | now auto])).
Qed.

End ParseQuery.

Lemma parseQuery_well_formed {F} `{FloatOps F} (self : SearchServer F) rawQuery query :
  (parseQuery self rawQuery query).1 = true <-> well_formed_query rawQuery.
Proof.
  unfold parseQuery, well_formed_query. rewrite parseQuery_loop_true, Forall_forall.
  split; intros Hall token Htoken; apply Hall; now apply elem_of_split.
Qed.

Lemma not_well_formed_query rawQuery :
  ~ well_formed_query rawQuery <->
  exists token, is_token rawQuery token /\ isValidWord (strip_minus token) = false.
Proof.
  unfold well_formed_query. split.
  - intros Hnot.
    destruct (decide (Forall (fun token => isValidWord (strip_minus token) = true)
                        (split rawQuery))) as [Hall | Hsome].
    + exfalso. apply Hnot. intros token Htoken%elem_of_split.
      rewrite Forall_forall in Hall. now apply Hall.
    + apply not_Forall_Exists in Hsome; [| intros token; apply _].
      apply Exists_exists in Hsome as (token & Htoken & Hbad).
      exists token. split; [now apply elem_of_split |]. now apply not_true_is_false.
  - intros (token & Htoken & Hbad) Hall. rewrite (Hall token Htoken) in Hbad. discriminate.
Qed.

(** X4: The words of a query that parses: the plus words are its tokens
    without a minus sign, the minus words its tokens after their minus
    sign, both without the stop words. *)
Theorem parseQuery_words {F} `{FloatOps F} (self : SearchServer F) rawQuery query :
  parseQuery self rawQuery Query.empty = (true, query) ->
  (forall word,
     word ∈ Query.plus_words query <->
     is_token rawQuery word /\ is_minus_token word = false /\ isStopWord self word = false) /\
  (forall word,
     word ∈ Query.minus_words query <->
     is_token rawQuery (String "-" word) /\ isStopWord self word = false).
Proof.
  intros Hparse. destruct (parseQuery_loop_words self _ _ _ Hparse) as [Hplus Hminus].
  split; intros word; [rewrite Hplus | rewrite Hminus]; cbn [Query.empty Query.plus_words
    Query.minus_words]; rewrite elem_of_nil, elem_of_split; tauto.
Qed.

Lemma parseQuery_words_witness :
  exists query,
    parseQuery city_server "dog city the -cat -in" Query.empty = (true, query) /\
    (forall word,
       word ∈ Query.plus_words query <->
       is_token "dog city the -cat -in" word /\ is_minus_token word = false
       /\ isStopWord city_server word = false) /\
    (forall word,
       word ∈ Query.minus_words query <->
       is_token "dog city the -cat -in" (String "-" word) /\ isStopWord city_server word = false).
Proof.
  exists (Query.mk ["city"; "dog"] ["cat"]).
  assert (Hparse : parseQuery city_server "dog city the -cat -in" Query.empty
                   = (true, Query.mk ["city"; "dog"] ["cat"])) by (vm_compute; reflexivity).
  split; [exact Hparse |].
  exact (parseQuery_words city_server "dog city the -cat -in" _ Hparse).
Defined.

(** X5: [MatchDocument] fails in two ways.  It throws [invalid_argument] when
    a token of the query is not a valid word (after its minus sign),
    whether the document is stored or not; on a well-formed query it
    throws [out_of_range] for a document that is not stored, and returns
    for one that is. *)
Theorem MatchDocument_errors {F} `{FloatOps F} (self : SearchServer F) rawQuery documentId :
  (MatchDocument self rawQuery documentId = Thrown (invalid_argument "Bad query") <->
     exists token, is_token rawQuery token /\ isValidWord (strip_minus token) = false)
  /\ ((exists what, MatchDocument self rawQuery documentId = Thrown (out_of_range what)) <->
        well_formed_query rawQuery /\ documents_ self !! documentId = None)
  /\ ((exists result, MatchDocument self rawQuery documentId = Returned result) <->
        well_formed_query rawQuery /\ is_Some (documents_ self !! documentId)).
Proof.
  rewrite <- not_well_formed_query, <- (parseQuery_well_formed self rawQuery Query.empty).
  rewrite MatchDocument_unfold.
  destruct (parseQuery self rawQuery Query.empty) as [[|] query]; cbn [fst];
    [destruct (documents_ self !! documentId) as [data|] |];
    repeat split;
    repeat match goal with
           | |- _ -> _ => intros ?
           | H : _ /\ _ |- _ => destruct H
           | H : exists _, _ |- _ => destruct H
           | H : is_Some None |- _ => destruct H
           | H : ~ _ |- _ => destruct H
           end;
    first [discriminate | reflexivity | eauto].
Qed.

(** ** The documents [FindTopDocuments] returns *)

Section Matching.
Context {F : Type} `{FloatOps F}.
Implicit Types self : SearchServer F.

Lemma contribution_is_Some self document_predicate word d :
  is_Some (contribution self document_predicate word d) <->
  indexes (word_to_document_freqs_ self) word d /\
  exists data,
    documents_ self !! d = Some data /\
    document_predicate d (DocumentData.status data) (DocumentData.rating data) = true.
Proof.
  unfold contribution, indexes. split.
  - intros [c Hc].
    destruct (word_to_document_freqs_ self !! word) as [freqs|]; [| discriminate].
    cbn in Hc. destruct (freqs !! d) as [term_freq|] eqn:Hd; [| discriminate].
    cbn in Hc. destruct (documents_ self !! d) as [data|]; [| discriminate].
    cbn in Hc.
    destruct (document_predicate d _ _) eqn:Hpred; [| discriminate]. eauto 6.
  - intros [(freqs & -> & [term_freq Hd]) (data & -> & Hpred)]. cbn.
    rewrite Hd. cbn. rewrite Hpred. eauto.
Qed.

Lemma relevance_after_is_Some self document_predicate plus_words d acc :
  is_Some (relevance_after self document_predicate plus_words d acc) <->
  is_Some acc \/
  exists word, word ∈ plus_words /\ is_Some (contribution self document_predicate word d).
Proof.
  revert acc. induction plus_words as [|word rest IH]; intros acc; cbn [relevance_after].
  - split; [auto |]. intros [? | (? & []%elem_of_nil & _)]. assumption.
  - rewrite IH. split.
    + intros [Hacc | (w & Hw & Hc)].
      * destruct (contribution self document_predicate word d) eqn:Hword.
        -- right. exists word. split; [left | rewrite Hword; eauto].
        -- now left.
      * right. exists w. split; [now right | exact Hc].
    + intros [Hacc | (w & [-> | Hw]%elem_of_cons & Hc)].
      * left. destruct (contribution self document_predicate word d); eauto.
      * left. destruct Hc as [c ->]. eauto.
      * right. eauto.
Qed.

Lemma existsb_indexesb self d words :
  existsb (indexesb self d) words = true <->
  exists word, word ∈ words /\ indexes (word_to_document_freqs_ self) word d.
Proof.
  rewrite existsb_exists. split; intros (word & Hin & Hword); exists word.
  - split; [now apply list_elem_of_In | now apply indexesb_true].
  - split; [now apply list_elem_of_In | now apply indexesb_true].
Qed.

Lemma fmap_id_scored self (items : list (Z * F)) :
  Document.id <$> map (scored self) items = items.*1.
Proof. induction items as [|[k r] items IH]; [reflexivity |]. cbn. now rewrite <- IH. Qed.

(** On a server whose index agrees with its documents, [findAllDocuments]
    returns the matching documents, each once, with its stored rating. *)
Lemma findAllDocuments_matches self query document_predicate :
  index_consistent self ->
  exists matched_documents,
    findAllDocuments self query document_predicate = Returned matched_documents /\
    NoDup (Document.id <$> matched_documents) /\
    (forall d,
       d ∈ Document.id <$> matched_documents <-> matches self query document_predicate d) /\
    (forall document, document ∈ matched_documents ->
       Document.rating document = stored_rating self (Document.id document)).
Proof.
  intros Hinv.
  destruct (findAllDocuments_returns self query document_predicate
              (index_consistent_closed self Hinv)) as (relevances & Hrel & Hfind).
  eexists. split; [exact Hfind |]. rewrite fmap_id_scored. split; [| split].
  - apply NoDup_fst_map_items.
  - intros d. rewrite elem_of_fst_map_items, Hrel. unfold matches.
    destruct (existsb (indexesb self d) (Query.minus_words query)) eqn:Hminus.
    + apply existsb_indexesb in Hminus as (word & Hin & Hword).
      apply (index_consistent_indexes self word d Hinv) in Hword as (data & Hdata & Hword).
      split; [intros [? ?]; discriminate |].
      intros (data' & Hdata' & _ & _ & Hnone). rewrite Hdata in Hdata'.
      injection Hdata' as <-. now destruct (Hnone word Hin).
    + rewrite relevance_after_is_Some. split.
      * intros [[? ?] | (word & Hin & Hc)]; [discriminate |].
        apply contribution_is_Some in Hc as [Hword (data & Hdata & Hpred)].
        exists data. split; [exact Hdata |]. split; [exact Hpred |]. split.
        -- exists word. split; [exact Hin |].
           apply (index_consistent_indexes self word d Hinv) in Hword as (data' & Hdata' & ?).
           congruence.
        -- intros w Hw Hcontains.
           apply not_true_iff_false in Hminus. apply Hminus, existsb_indexesb.
           exists w. split; [exact Hw |].
           apply (index_consistent_indexes self w d Hinv). eauto.
      * intros (data & Hdata & Hpred & (word & Hin & Hword) & _). right.
        exists word. split; [exact Hin |]. apply contribution_is_Some. split; [| eauto].
        apply (index_consistent_indexes self word d Hinv). eauto.
  - intros document (entry & -> & _)%list_elem_of_fmap. reflexivity.
Qed.

(** The result of [FindTopDocuments] on such a server, within the contract
    of [std::sort]: the first five of the matching documents, in the order
    [sort] leaves them. *)
Lemma FindTopDocuments_matches sort self rawQuery query document_predicate :
  std_sort sort ->
  index_consistent self ->
  parseQuery self rawQuery Query.empty = (true, query) ->
  sort_within_contract self query document_predicate ->
  exists matched_documents,
    FindTopDocuments sort self rawQuery document_predicate =
      Returned (take 5 (sort byRelevance matched_documents)) /\
    sort byRelevance matched_documents ≡ₚ matched_documents /\
    NoDup (Document.id <$> matched_documents) /\
    (forall d,
       d ∈ Document.id <$> matched_documents <-> matches self query document_predicate d) /\
    (forall document, document ∈ matched_documents ->
       Document.rating document = stored_rating self (Document.id document)).
Proof.
  intros [Hperm _] Hinv Hparse Hcontract.
  destruct (findAllDocuments_matches self query document_predicate Hinv)
    as (matched & Hfind & Hrest).
  unfold sort_within_contract in Hcontract. rewrite Hfind in Hcontract.
  exists matched. split; [| split; [now apply Hperm | exact Hrest]].
  exact (FindTopDocuments_returns sort _ _ _ _ _ Hparse Hfind).
Qed.

Lemma FindTopDocuments_well_formed sort self rawQuery document_predicate :
  index_consistent self ->
  match FindTopDocuments sort self rawQuery document_predicate with
  | Returned _ => well_formed_query rawQuery
  | Thrown e => e = invalid_argument "Bad query" /\ ~ well_formed_query rawQuery
  end.
Proof.
  intros Hinv.
  pose proof (parseQuery_well_formed self rawQuery Query.empty) as Hformed.
  destruct (parseQuery self rawQuery Query.empty) as [[|] query] eqn:Hparse; cbn [fst] in Hformed.
  - destruct (findAllDocuments_matches self query document_predicate Hinv)
      as (matched & Hfind & _).
    rewrite (FindTopDocuments_returns sort _ _ _ _ _ Hparse Hfind). now apply Hformed.
  - unfold FindTopDocuments. rewrite Hparse. cbn. split; [reflexivity |].
    intros Hwell. apply Hformed in Hwell. discriminate.
Qed.

End Matching.

(** X6: [FindTopDocuments] on a reachable server fails in one way only: it
    throws [invalid_argument] when a token of the query is not a valid
    word (after its minus sign), and returns otherwise.  It never throws
    [out_of_range]: the term index names stored documents only. *)
Theorem FindTopDocuments_errors {F} `{FloatOps F}
    (sort : (Document.t F -> Document.t F -> bool) -> list (Document.t F) -> list (Document.t F))
    (self : SearchServer F) rawQuery (document_predicate : DocumentPredicate) :
  reachable self ->
  (FindTopDocuments sort self rawQuery document_predicate = Thrown (invalid_argument "Bad query")
   <-> exists token, is_token rawQuery token /\ isValidWord (strip_minus token) = false)
  /\ ((exists documents,
         FindTopDocuments sort self rawQuery document_predicate = Returned documents)
      <-> well_formed_query rawQuery)
  /\ (forall what,
        FindTopDocuments sort self rawQuery document_predicate <> Thrown (out_of_range what)).
Proof.
  intros Hreach. rewrite <- not_well_formed_query.
  pose proof (FindTopDocuments_well_formed sort self rawQuery document_predicate
                (reachable_index_consistent self Hreach)) as Hcall.
  destruct (FindTopDocuments sort self rawQuery document_predicate) as [documents | e].
  - repeat split; try discriminate; eauto. intros Hnot. now destruct Hnot.
  - destruct Hcall as [-> Hnot]. repeat split; try discriminate; auto.
    + intros [? ?]. discriminate.
    + intros Hwell. now destruct Hnot.
Qed.

Lemma FindTopDocuments_errors_witness :
  FindTopDocuments insertion_sort pets_server "cat --black" (fun _ _ _ => true)
  = Thrown (invalid_argument "Bad query").
Proof.
  apply (FindTopDocuments_errors insertion_sort pets_server "cat --black" (fun _ _ _ => true)
           (run_reachable _)).
  exists "--black". split; [| reflexivity].
  apply elem_of_split. vm_compute. apply list_elem_of_further, list_elem_of_here.
Defined.

(** X7: Within the contract of [std::sort] (the comparator is a strict weak
    ordering of the documents that match), on a reachable server and for a
    query that parses, [FindTopDocuments] returns distinct stored documents
    that match the query: the predicate accepts each, each holds a plus
    word and no minus word, and each comes with its stored rating.  It
    leaves out a matching document only to return five. *)
Theorem FindTopDocuments_returns_matches {F} `{FloatOps F}
    (sort : (Document.t F -> Document.t F -> bool) -> list (Document.t F) -> list (Document.t F))
    (self : SearchServer F) rawQuery query (document_predicate : DocumentPredicate) :
  std_sort sort ->
  reachable self ->
  parseQuery self rawQuery Query.empty = (true, query) ->
  sort_within_contract self query document_predicate ->
  exists documents,
    FindTopDocuments sort self rawQuery document_predicate = Returned documents /\
    NoDup (Document.id <$> documents) /\
    (forall document, document ∈ documents ->
       matches self query document_predicate (Document.id document) /\
       Document.rating document = stored_rating self (Document.id document)) /\
    ((forall d, matches self query document_predicate d -> d ∈ Document.id <$> documents)
     \/ length documents = 5%nat).
Proof.
  intros Hsort Hreach Hparse Hcontract.
  destruct (FindTopDocuments_matches sort self rawQuery query document_predicate Hsort
              (reachable_index_consistent self Hreach) Hparse Hcontract)
    as (matched & Hcall & Hperm & Hnodup & Hmatches & Hrating).
  eexists. split; [exact Hcall |]. split; [| split].
  - rewrite fmap_take. eapply sublist_NoDup; [| apply sublist_take].
    now rewrite Hperm.
  - intros document Hin%subseteq_take. rewrite Hperm in Hin. split.
    + apply Hmatches. now apply list_elem_of_fmap_2.
    + now apply Hrating.
  - destruct (decide (length (sort byRelevance matched) <= 5)%nat) as [Hfew | Hmany].
    + left. intros d Hd. rewrite take_ge by exact Hfew. rewrite Hperm. now apply Hmatches.
    + right. rewrite length_take. lia.
Qed.

(** The six documents that match "cat" on [six_server] have one
    relevance. *)
Lemma six_server_matched :
  findAllDocuments six_server (Query.mk ["cat"] []) (fun _ _ _ => true) =
  Returned (map (fun entry : Z * Z =>
                   Document.mk entry.1 (0 + (0 + 1 / 2) * ln (6 * 1 / 6))%R entry.2)
              [(1, 1); (2, 2); (3, 3); (4, 4); (5, 5); (6, 6)]).
Proof. vm_compute. reflexivity. Qed.

Lemma six_server_within_contract :
  sort_within_contract six_server (Query.mk ["cat"] []) (fun _ _ _ => true).
Proof.
  apply (sort_within_contract_well_separated _ _ _ _ six_server_matched).
  apply (well_separated_same_relevance _ (0 + (0 + 1 / 2) * ln (6 * 1 / 6))%R).
  intros x (entry & -> & _)%list_elem_of_fmap. reflexivity.
Qed.

Lemma FindTopDocuments_returns_matches_witness :
  exists documents,
    FindTopDocuments insertion_sort six_server "cat" (fun _ _ _ => true) = Returned documents /\
    NoDup (Document.id <$> documents) /\
    (forall document, document ∈ documents ->
       matches six_server (Query.mk ["cat"] []) (fun _ _ _ => true) (Document.id document) /\
       Document.rating document = stored_rating six_server (Document.id document)) /\
    ((forall d, matches six_server (Query.mk ["cat"] []) (fun _ _ _ => true) d ->
        d ∈ Document.id <$> documents)
     \/ length documents = 5%nat).
Proof.
  apply (FindTopDocuments_returns_matches insertion_sort six_server "cat" (Query.mk ["cat"] [])
           (fun _ _ _ => true) insertion_sort_std_sort (run_reachable _)).
  - vm_compute. reflexivity.
  - exact six_server_within_contract.
Defined.


(** X9: Within the contract of [std::sort], on a reachable server and for a
    query that parses, the overload of [FindTopDocuments] that takes a
    status returns documents of that status only, and the overload that
    takes none documents of status [ACTUAL] only. *)
Theorem FindTopDocumentsByStatus_status {F} `{FloatOps F}
    (sort : (Document.t F -> Document.t F -> bool) -> list (Document.t F) -> list (Document.t F))
    (self : SearchServer F) rawQuery query status documents document :
  std_sort sort ->
  reachable self ->
  parseQuery self rawQuery Query.empty = (true, query) ->
  sort_within_contract self query
    (fun _ document_status _ => bool_decide (document_status = status)) ->
  FindTopDocumentsByStatus sort self rawQuery status = Returned documents
  \/ (status = ACTUAL /\ FindTopDocumentsActual sort self rawQuery = Returned documents) ->
  document ∈ documents ->
  DocumentData.status <$> documents_ self !! Document.id document = Some status.
Proof.
  intros Hsort Hreach Hparse Hcontract Hcall Hin.
  assert (Hcall' : FindTopDocumentsByStatus sort self rawQuery status = Returned documents).
  { destruct Hcall as [Hcall | [-> Hcall]]; exact Hcall. }
  destruct (FindTopDocuments_matches sort self rawQuery query
              (fun _ document_status _ => bool_decide (document_status = status)) Hsort
              (reachable_index_consistent self Hreach) Hparse Hcontract)
    as (matched & Hcall'' & Hperm & _ & Hmatches & _).
  unfold FindTopDocumentsByStatus in Hcall'. rewrite Hcall' in Hcall''. injection Hcall'' as ->.
  apply subseteq_take in Hin. rewrite Hperm in Hin.
  apply (list_elem_of_fmap_2 Document.id), Hmatches in Hin as (data & -> & Hpred & _).
  apply bool_decide_eq_true in Hpred. cbn. now rewrite Hpred.
Qed.

Lemma FindTopDocumentsByStatus_status_witness :
  DocumentData.status <$> documents_ pets_server !! 9 = Some ACTUAL.
Proof.
  assert (Hfind : findAllDocuments pets_server (Query.mk ["kyle"] [])
                    (fun _ document_status _ => bool_decide (document_status = ACTUAL))
                  = Returned [Document.mk 9 (0 + (0 + 1 / 3) * ln (3 * 1 / 1))%R 2])
    by (vm_compute; reflexivity).
  assert (Hcall : FindTopDocumentsByStatus insertion_sort pets_server "kyle" ACTUAL
                  = Returned [Document.mk 9 (0 + (0 + 1 / 3) * ln (3 * 1 / 1))%R 2])
    by (vm_compute; reflexivity).
  apply (FindTopDocumentsByStatus_status insertion_sort pets_server "kyle"
           (Query.mk ["kyle"] []) ACTUAL _ (Document.mk 9 (0 + (0 + 1 / 3) * ln (3 * 1 / 1))%R 2)
           insertion_sort_std_sort (run_reachable _) ltac:(vm_compute; reflexivity)
           (sort_within_contract_well_separated _ _ _ _ Hfind (well_separated_singleton _))
           (or_introl Hcall)).
  apply list_elem_of_here.
Defined.

(** ** [MatchDocument] and the stored words *)

Section MatchedWords.
Context {F : Type} `{FloatOps F}.
Implicit Types self : SearchServer F.

Lemma indexesb_stored_words self documentId data word :
  index_consistent self ->
  documents_ self !! documentId = Some data ->
  indexesb self documentId word = bool_decide (word ∈ DocumentData.words data).
Proof.
  intros Hinv Hdata. apply eq_true_iff_eq.
  rewrite indexesb_true, bool_decide_eq_true, (index_consistent_indexes self word _ Hinv).
  split; [| eauto]. intros (data' & Hdata' & Hin). congruence.
Qed.

Lemma filter_bool_decide {A} (P : A -> Prop) `{forall x, Decision (P x)} (l : list A) :
  List.filter (fun x => bool_decide (P x)) l = filter P l.
Proof.
  induction l as [|x l IH]; [reflexivity |]. cbn [List.filter]. rewrite filter_cons.
  destruct (decide (P x)).
  - rewrite bool_decide_eq_true_2 by assumption. now rewrite IH.
  - rewrite bool_decide_eq_false_2 by assumption. exact IH.
Qed.

Lemma existsb_bool_decide {A} (P : A -> Prop) `{forall x, Decision (P x)} (l : list A) :
  existsb (fun x => bool_decide (P x)) l = bool_decide (Exists P l).
Proof.
  induction l as [|x l IH]; cbn [existsb].
  - symmetry. apply bool_decide_eq_false. now intros ?%Exists_nil.
  - rewrite IH. destruct (decide (P x)) as [Hx | Hx].
    + rewrite (bool_decide_eq_true_2 _ Hx). symmetry. apply bool_decide_eq_true. now left.
    + rewrite (bool_decide_eq_false_2 _ Hx). cbn. apply bool_decide_ext.
      rewrite Exists_cons. tauto.
Qed.

Lemma existsb_ext {A} (f g : A -> bool) (l : list A) :
  (forall x, f x = g x) -> existsb f l = existsb g l.
Proof. intros Hfg. induction l as [|x l IH]; [reflexivity |]. cbn. now rewrite Hfg, IH. Qed.

End MatchedWords.

(** X10: What [MatchDocument] returns, on a reachable server, for a query that
    parses and a stored document: the plus words of the query that are
    among the words of the document, in the ascending order of the query,
    unless the document holds a minus word, and then no word at all. *)
Theorem MatchDocument_returns_plus_words {F} `{FloatOps F} (self : SearchServer F)
    rawQuery query documentId data :
  reachable self ->
  parseQuery self rawQuery Query.empty = (true, query) ->
  documents_ self !! documentId = Some data ->
  MatchDocument self rawQuery documentId =
  Returned
    (if bool_decide (Exists (fun word => word ∈ DocumentData.words data) (Query.minus_words query))
     then []
     else filter (fun word => word ∈ DocumentData.words data) (Query.plus_words query),
     DocumentData.status data).
Proof.
  intros Hreach Hparse Hdata. rewrite MatchDocument_unfold, Hparse, Hdata.
  pose proof (reachable_index_consistent self Hreach) as Hinv.
  rewrite (existsb_ext _ (fun word => bool_decide (word ∈ DocumentData.words data))),
          (List.filter_ext _ (fun word => bool_decide (word ∈ DocumentData.words data)));
    try (intros word; now apply indexesb_stored_words).
  now rewrite existsb_bool_decide, filter_bool_decide.
Qed.

Lemma MatchDocument_returns_plus_words_witness :
  MatchDocument pets_server "white pig -cat little" 7 = Returned (["little"; "pig"; "white"], ACTUAL)
  /\ MatchDocument pets_server "white pig -cat little" 2 = Returned ([], ACTUAL).
Proof.
  split.
  - apply (MatchDocument_returns_plus_words pets_server "white pig -cat little"
             (Query.mk ["little"; "pig"; "white"] ["cat"]) 7
             (DocumentData.mk 4 ACTUAL ["a"; "little"; "pig"; "a"; "white"; "rabbit"])
             (run_reachable _)); vm_compute; reflexivity.
  - apply (MatchDocument_returns_plus_words pets_server "white pig -cat little"
             (Query.mk ["little"; "pig"; "white"] ["cat"]) 2
             (DocumentData.mk 1 ACTUAL ["cat"; "city"])
             (run_reachable _)); vm_compute; reflexivity.
Defined.

(** ** What [AddDocument] accepts and stores *)

Section AddDocumentMore.
Context {F : Type} `{FloatOps F}.
Implicit Types self : SearchServer F.

Lemma splitIntoWordsNoStop_valid self document :
  (splitIntoWordsNoStop self document []).1 = true <->
  forall token, is_token document token -> isValidWord token = true.
Proof.
  unfold splitIntoWordsNoStop. split.
  - intros Hok token Htoken%elem_of_split.
    destruct (isValidWord token) eqn:Hvalid; [reflexivity |].
    rewrite (splitIntoWordsNoStop_loop_false self (split document) []) in Hok by eauto.
    discriminate.
  - intros Hvalid.
    assert (Hall : Forall (fun word => isValidWord word = true) (split document)).
    { apply Forall_forall. intros word Hword%elem_of_split. now apply Hvalid. }
    generalize (@nil string). induction Hall as [|word rest Hword _ IH]; intros words;
      cbn [splitIntoWordsNoStop_loop]; [reflexivity |].
    rewrite Hword. cbn [negb]. destruct (isStopWord self word); cbn [negb]; apply IH.
Qed.

(** The stored words of a document that was added: the tokens of its text
    that are not stop words. *)
Lemma AddDocument_stored_words self documentId document status ratings :
  (AddDocument documentId document status ratings self).1 = Returned tt ->
  exists words,
    words = List.filter (fun word => negb (isStopWord self word)) (split document) /\
    (forall token, is_token document token -> isValidWord token = true) /\
    0 <= documentId /\
    documents_ self !! documentId = None /\
    (AddDocument documentId document status ratings self).2 =
      mkSearchServer
        (fold_left
           (addTermOccurrence documentId (f_div f_one (f_of_size (length words))))
           words (word_to_document_freqs_ self))
        (<[documentId := DocumentData.mk (computeAverageRating ratings) status words]>
           (documents_ self))
        (m_stopWords self)
        (document_ids_ self ++ [documentId]).
Proof.
  intros Hcall.
  destruct (AddDocument_returned self _ _ _ _ Hcall) as (words & Hid & Hfresh & Hsplit & Hstate).
  exists words. split; [| split; [| split; [| split]]]; try assumption.
  - now destruct (splitIntoWordsNoStop_loop_true self _ _ _ Hsplit) as [_ ->].
  - apply (splitIntoWordsNoStop_valid self document). now rewrite Hsplit.
Qed.

Lemma index_lookup_added_word documentId inv_word_count words index word :
  word ∈ words ->
  is_Some (index_lookup (fold_left (addTermOccurrence documentId inv_word_count) words index)
             word documentId).
Proof.
  intros Hin. rewrite index_lookup_addTermOccurrences, bool_decide_eq_true_2 by reflexivity.
  apply list_elem_of_In, (count_occ_In string_dec) in Hin.
  destruct (count_occ string_dec words word) as [|n]; [lia |].
  rewrite Nat.iter_succ. eauto.
Qed.

End AddDocumentMore.

(** X11: [AddDocument] fails in two ways, and checks the id first: a negative
    or stored id is a "Bad document id", whatever the text; for a fresh id,
    a token that is not a valid word makes "Bad document data"; every
    other call returns. *)
Theorem AddDocument_errors {F} `{FloatOps F} (self : SearchServer F)
    documentId document status ratings :
  ((AddDocument documentId document status ratings self).1
     = Thrown (invalid_argument "Bad document id")
   <-> documentId < 0 \/ is_Some (documents_ self !! documentId))
  /\ ((AddDocument documentId document status ratings self).1
        = Thrown (invalid_argument "Bad document data")
      <-> (0 <= documentId /\ documents_ self !! documentId = None)
          /\ exists token, is_token document token /\ isValidWord token = false)
  /\ ((AddDocument documentId document status ratings self).1 = Returned tt
      <-> (0 <= documentId /\ documents_ self !! documentId = None)
          /\ forall token, is_token document token -> isValidWord token = true).
Proof.
  pose proof (splitIntoWordsNoStop_valid self document) as Hvalid.
  assert (Hbad : (splitIntoWordsNoStop self document []).1 = false <->
                 exists token, is_token document token /\ isValidWord token = false).
  { split.
    - intros Hfalse.
      destruct (decide (Forall (fun word => isValidWord word = true) (split document)))
        as [Hall | Hsome].
      + rewrite (proj2 Hvalid) in Hfalse; [discriminate |].
        intros token Htoken%elem_of_split. rewrite Forall_forall in Hall. now apply Hall.
      + apply not_Forall_Exists in Hsome; [| intros word; apply _].
        apply Exists_exists in Hsome as (token & Htoken & Hinvalid).
        exists token. split; [now apply elem_of_split | now apply not_true_is_false].
    - intros (token & Htoken & Hinvalid).
      destruct (splitIntoWordsNoStop self document []).1 eqn:Hok; [| reflexivity].
      rewrite (proj1 Hvalid eq_refl token Htoken) in Hinvalid. discriminate. }
  unfold AddDocument.
  destruct (documentId <? 0) eqn:Hneg; cbn [orb].
  { apply Z.ltb_lt in Hneg. repeat split; try discriminate; auto; intros [[? _] _]; lia. }
  apply Z.ltb_ge in Hneg.
  destruct (documents_ self !! documentId) as [data|] eqn:Hdata.
  { rewrite bool_decide_eq_true_2 by eauto.
    repeat split; try discriminate; eauto; intros [[_ ?] _]; discriminate. }
  rewrite bool_decide_eq_false_2 by (now intros [? ?]).
  destruct (splitIntoWordsNoStop self document []) as [[|] words]; cbn [negb fst] in *.
  - repeat split; try discriminate; try lia.
    + intros [? | [? ?]]; [lia | discriminate].
    + intros [_ Hsome]. apply Hbad in Hsome. discriminate.
    + now apply Hvalid.
  - repeat split; try discriminate; try lia.
    + intros [? | [? ?]]; [lia | discriminate].
    + now apply Hbad.
    + intros [_ Hall]. apply Hvalid in Hall. discriminate.
Qed.

(** X12: A document that was added matches its own words: for every token of
    its text that is not a stop word, [MatchDocument] on that word and the
    new document returns the word and the status given. *)
Theorem AddDocument_then_MatchDocument {F} `{FloatOps F} (self : SearchServer F)
    documentId document status ratings word :
  (AddDocument documentId document status ratings self).1 = Returned tt ->
  is_token document word ->
  isStopWord self word = false ->
  MatchDocument (AddDocument documentId document status ratings self).2 word documentId
  = Returned ([word], status).
Proof.
  intros Hcall Htoken Hstop.
  destruct (AddDocument_stored_words self _ _ _ _ Hcall)
    as (words & Hwords & Hvalid & _ & _ & Hstate).
  rewrite Hstate. clear Hstate. rewrite MatchDocument_unfold.
  pose proof (Hvalid word Htoken) as Hword.
  unfold parseQuery. rewrite (split_valid_word word Hword). cbn [parseQuery_loop].
  rewrite parseQueryWord_strip_minus, (strip_minus_plus word (valid_word_not_minus word Hword)),
          Hword, (valid_word_not_minus word Hword).
  cbn [QueryWord.is_stop QueryWord.is_minus QueryWord.data].
  replace (isStopWord _ word) with false by (symmetry; exact Hstop).
  cbn [negb Query.empty Query.plus_words Query.minus_words set_insert documents_].
  rewrite lookup_insert_eq. cbn [existsb List.filter DocumentData.status].
  rewrite indexesb_index_lookup. cbn [word_to_document_freqs_].
  rewrite bool_decide_eq_true_2; [reflexivity |].
  apply index_lookup_added_word. rewrite Hwords.
  apply list_elem_of_In, filter_In. split.
  - now apply list_elem_of_In, elem_of_split.
  - now rewrite Hstop.
Qed.

Lemma AddDocument_then_MatchDocument_witness :
  MatchDocument (AddDocument 5 "a dog in the park" BANNED [4] pets_server).2 "park" 5
  = Returned (["park"], BANNED).
Proof.
  apply (AddDocument_then_MatchDocument pets_server 5 "a dog in the park" BANNED [4] "park").
  - vm_compute. reflexivity.
  - apply elem_of_split. vm_compute. do 4 apply list_elem_of_further. apply list_elem_of_here.
  - vm_compute. reflexivity.
Defined.

(** X13: Adding a document changes nothing for the others: whether the call
    returns or throws, [MatchDocument] answers every query about another
    document as before. *)
Theorem AddDocument_keeps_other_matches {F} `{FloatOps F} (self : SearchServer F)
    documentId document status ratings rawQuery other :
  other <> documentId ->
  MatchDocument (AddDocument documentId document status ratings self).2 rawQuery other
  = MatchDocument self rawQuery other.
Proof.
  intros Hother.
  destruct (AddDocument documentId document status ratings self).1 as [[]|e] eqn:Hcall.
  - destruct (AddDocument_stored_words self _ _ _ _ Hcall) as (words & _ & _ & _ & _ & Hstate).
    rewrite Hstate, !MatchDocument_unfold.
    rewrite (parseQuery_stopWords _ self) by reflexivity.
    cbn [documents_]. rewrite lookup_insert_ne by congruence.
    assert (Hindex : forall word,
              indexesb
                (mkSearchServer
                   (fold_left
                      (addTermOccurrence documentId (f_div f_one (f_of_size (length words))))
                      words (word_to_document_freqs_ self))
                   (<[documentId := DocumentData.mk (computeAverageRating ratings) status words]>
                      (documents_ self))
                   (m_stopWords self) (document_ids_ self ++ [documentId]))
                other word
              = indexesb self other word).
    { intros word. rewrite !indexesb_index_lookup. cbn [word_to_document_freqs_].
      rewrite index_lookup_addTermOccurrences.
      now rewrite (bool_decide_eq_false_2 (other = documentId)) by assumption. }
    destruct (parseQuery self rawQuery Query.empty) as [[|] query]; [| reflexivity].
    now rewrite (existsb_ext _ _ _ Hindex), (List.filter_ext _ _ Hindex).
  - now rewrite (proj2 (AddDocument_thrown self _ _ _ _ _ Hcall)).
Qed.

Lemma AddDocument_keeps_other_matches_witness :
  MatchDocument (AddDocument 5 "black dog" BANNED [4] pets_server).2 "black cat" 9
  = MatchDocument pets_server "black cat" 9.
Proof.
  apply (AddDocument_keeps_other_matches pets_server 5 "black dog" BANNED [4] "black cat" 9).
  lia.
Defined.

(** ** The document ids *)

Section DocumentIds.
Context {F : Type} `{FloatOps F}.
Implicit Types self : SearchServer F.

Lemma perform_ids_enumerate_documents (c : call) self :
  ids_enumerate_documents self -> ids_enumerate_documents (perform c self).2.
Proof.
  intros [Hnodup Hids].
  assert (Hstop : forall stopWords, ids_enumerate_documents (SetStopWords stopWords self).2).
  { intros stopWords.
    destruct (SetStopWords_word_to_document_freqs stopWords self) as (_ & Hdocs & Hsame).
    unfold ids_enumerate_documents. rewrite Hdocs, Hsame. now split. }
  destruct c as [stopWords | stopWordsText | documentId document status ratings];
    cbn [perform]; [apply Hstop | apply Hstop |].
  destruct (AddDocument documentId document status ratings self).1 as [[]|e] eqn:Hcall.
  - destruct (AddDocument_returned self _ _ _ _ Hcall) as (words & _ & Hfresh & _ & ->).
    split; cbn [document_ids_ documents_].
    + apply NoDup_app. split; [exact Hnodup |]. split; [| apply NoDup_singleton].
      intros id Hin ->%list_elem_of_singleton. apply Hids in Hin as [? ?]. congruence.
    + intros id. rewrite elem_of_app, list_elem_of_singleton, Hids, lookup_insert_is_Some.
      destruct (decide (documentId = id)); intuition congruence.
  - rewrite (proj2 (AddDocument_thrown self _ _ _ _ _ Hcall)). now split.
Qed.

Lemma reachable_ids_enumerate_documents self :
  reachable self -> ids_enumerate_documents self.
Proof.
  induction 1 as [| self stopWords _ IH | self stopWordsText _ IH
                  | self documentId document status ratings _ IH].
  - split; [constructor |]. intros id. cbn. rewrite elem_of_nil, lookup_empty.
    split; [tauto | now intros [? ?]].
  - exact (perform_ids_enumerate_documents (CallSetStopWords stopWords) self IH).
  - exact (perform_ids_enumerate_documents (CallSetStopWordsText stopWordsText) self IH).
  - exact (perform_ids_enumerate_documents
             (CallAddDocument documentId document status ratings) self IH).
Qed.

Lemma length_document_ids self :
  ids_enumerate_documents self -> length (document_ids_ self) = size (documents_ self).
Proof.
  intros [Hnodup Hids].
  rewrite <- (size_list_to_set (C := gset Z) _ Hnodup), <- (size_dom (D := gset Z)).
  f_equal. apply set_eq. intros id. now rewrite elem_of_list_to_set, elem_of_dom.
Qed.

Lemma static_cast_int_le n : static_cast_int n <= Z.of_nat n.
Proof.
  unfold static_cast_int, wrap_int.
  pose proof (Z.mod_le (Z.of_nat n + 2 ^ 31) (2 ^ 32)). lia.
Qed.

Lemma static_cast_int_small n : Z.of_nat n < 2 ^ 31 -> static_cast_int n = Z.of_nat n.
Proof. intros Hn. apply wrap_int_id. unfold in_int_range. lia. Qed.

(** [GetDocumentId], case by case. *)
Lemma GetDocumentId_cases self index :
  ids_enumerate_documents self ->
  if (0 <=? index) && (index <? GetDocumentCount self)
  then exists documentId,
         GetDocumentId self index = Returned (Some documentId) /\
         document_ids_ self !! Z.to_nat index = Some documentId /\
         is_Some (documents_ self !! documentId)
  else GetDocumentId self index = Thrown (out_of_range "document index not present").
Proof.
  intros Hids. unfold GetDocumentId.
  destruct ((0 <=? index) && (index <? GetDocumentCount self)) eqn:Hrange; [| reflexivity].
  apply andb_true_iff in Hrange as [Hlow%Z.leb_le Hhigh%Z.ltb_lt].
  pose proof (static_cast_int_le (size (documents_ self))) as Hcount.
  fold (GetDocumentCount self) in Hcount.
  destruct (lookup_lt_is_Some_2 (document_ids_ self) (Z.to_nat index)) as [documentId Hid].
  { rewrite (length_document_ids self Hids). lia. }
  exists documentId. rewrite Hid. split; [reflexivity |]. split; [reflexivity |].
  apply Hids. now apply list_elem_of_lookup_2 in Hid.
Qed.

End DocumentIds.

(** X14: [GetDocumentId] on a reachable server: an index from 0 to below the
    document count yields the id of a stored document, read inside the
    bounds of [document_ids_]; any other index is answered with
    [out_of_range]. *)
Theorem GetDocumentId_in_range {F} `{FloatOps F} (self : SearchServer F) index :
  reachable self ->
  if (0 <=? index) && (index <? GetDocumentCount self)
  then exists documentId,
         GetDocumentId self index = Returned (Some documentId) /\
         document_ids_ self !! Z.to_nat index = Some documentId /\
         is_Some (documents_ self !! documentId)
  else GetDocumentId self index = Thrown (out_of_range "document index not present").
Proof.
  intros Hreach. apply GetDocumentId_cases. now apply reachable_ids_enumerate_documents.
Qed.

Lemma GetDocumentId_in_range_witness :
  (exists documentId,
     GetDocumentId pets_server 1 = Returned (Some documentId) /\
     document_ids_ pets_server !! Z.to_nat 1 = Some documentId /\
     is_Some (documents_ pets_server !! documentId))
  /\ GetDocumentId pets_server 3 = Thrown (out_of_range "document index not present")
  /\ GetDocumentId pets_server (-1) = Thrown (out_of_range "document index not present").
Proof.
  split; [| split].
  - exact (GetDocumentId_in_range pets_server 1 (run_reachable _)).
  - exact (GetDocumentId_in_range pets_server 3 (run_reachable _)).
  - exact (GetDocumentId_in_range pets_server (-1) (run_reachable _)).
Defined.

(** X15: [GetDocumentId] enumerates the stored documents: on a reachable server
    of fewer than 2^31 documents, every stored document has exactly one
    index, and only stored documents have one. *)
Theorem GetDocumentId_enumerates {F} `{FloatOps F} (self : SearchServer F) :
  reachable self ->
  Z.of_nat (size (documents_ self)) < 2 ^ 31 ->
  (forall documentId,
     is_Some (documents_ self !! documentId) <->
     exists index, GetDocumentId self index = Returned (Some documentId))
  /\ (forall i j documentId,
        GetDocumentId self i = Returned (Some documentId) ->
        GetDocumentId self j = Returned (Some documentId) ->
        i = j).
Proof.
  intros Hreach Hsmall.
  pose proof (reachable_ids_enumerate_documents self Hreach) as Hids.
  pose proof (length_document_ids self Hids) as Hlength.
  assert (Hcount : GetDocumentCount self = Z.of_nat (size (documents_ self))).
  { now apply static_cast_int_small. }
  assert (Hlookup : forall index documentId,
            GetDocumentId self index = Returned (Some documentId) <->
            0 <= index /\ document_ids_ self !! Z.to_nat index = Some documentId).
  { intros index documentId. unfold GetDocumentId.
    destruct ((0 <=? index) && (index <? GetDocumentCount self)) eqn:Hrange.
    - apply andb_true_iff in Hrange as [Hlow%Z.leb_le _].
      split; [intros [= ->]; now split | intros [_ ->]; reflexivity].
    - split; [discriminate |]. intros [Hlow Hid].
      apply lookup_lt_Some in Hid. apply andb_false_iff in Hrange as [?%Z.leb_gt | ?%Z.ltb_ge]; lia. }
  split.
  - intros documentId. rewrite <- (proj2 Hids documentId). split.
    + intros [i Hi]%list_elem_of_lookup_1. exists (Z.of_nat i). apply Hlookup.
      rewrite Nat2Z.id. split; [lia | exact Hi].
    + intros [index [_ Hid]%Hlookup]. now apply list_elem_of_lookup_2 in Hid.
  - intros i j documentId [Hi Hidi]%Hlookup [Hj Hidj]%Hlookup.
    pose proof (NoDup_lookup _ _ _ _ (proj1 Hids) Hidi Hidj). lia.
Qed.

Lemma GetDocumentId_enumerates_witness :
  (forall documentId,
     is_Some (documents_ pets_server !! documentId) <->
     exists index, GetDocumentId pets_server index = Returned (Some documentId))
  /\ (forall i j documentId,
        GetDocumentId pets_server i = Returned (Some documentId) ->
        GetDocumentId pets_server j = Returned (Some documentId) ->
        i = j).
Proof.
  apply (GetDocumentId_enumerates pets_server (run_reachable _)). vm_compute. reflexivity.
Defined.

(** X16: The ids are kept in the order of the calls: after [AddDocument]
    returns on a reachable server (of fewer than 2^31 - 1 documents), the
    document count is one more, the new id is at the last index, and every
    earlier index answers as before. *)
Theorem AddDocument_then_GetDocumentId {F} `{FloatOps F} (self : SearchServer F)
    documentId document status ratings :
  reachable self ->
  Z.of_nat (size (documents_ self)) < 2 ^ 31 - 1 ->
  (AddDocument documentId document status ratings self).1 = Returned tt ->
  GetDocumentCount (AddDocument documentId document status ratings self).2
    = GetDocumentCount self + 1
  /\ GetDocumentId (AddDocument documentId document status ratings self).2
       (GetDocumentCount self) = Returned (Some documentId)
  /\ forall index, 0 <= index < GetDocumentCount self ->
       GetDocumentId (AddDocument documentId document status ratings self).2 index
       = GetDocumentId self index.
Proof.
  intros Hreach Hsmall Hcall.
  pose proof (reachable_ids_enumerate_documents self Hreach) as Hids.
  pose proof (length_document_ids self Hids) as Hlength.
  destruct (AddDocument_returned self _ _ _ _ Hcall) as (words & _ & Hfresh & _ & ->).
  assert (Hcount : GetDocumentCount self = Z.of_nat (size (documents_ self))).
  { apply static_cast_int_small. lia. }
  assert (Hcount' : forall (index : gmap string (gmap Z F)) ids,
            GetDocumentCount
              (mkSearchServer index
                 (<[documentId := DocumentData.mk (computeAverageRating ratings) status words]>
                    (documents_ self)) (m_stopWords self) ids)
            = GetDocumentCount self + 1).
  { intros index ids. unfold GetDocumentCount at 1. cbn [documents_].
    rewrite map_size_insert_None by exact Hfresh.
    rewrite static_cast_int_small by lia. lia. }
  split; [apply Hcount' |]. unfold GetDocumentId. rewrite !Hcount'. split.
  - rewrite (proj2 (andb_true_iff _ _)) by (split; [apply Z.leb_le | apply Z.ltb_lt]; lia).
    cbn [document_ids_]. rewrite Hcount, Nat2Z.id, <- Hlength.
    now rewrite lookup_app_r, Nat.sub_diag by lia.
  - intros index Hindex.
    rewrite !(proj2 (andb_true_iff _ _)) by (split; [apply Z.leb_le | apply Z.ltb_lt]; lia).
    cbn [document_ids_]. now rewrite lookup_app_l by lia.
Qed.

Lemma AddDocument_then_GetDocumentId_witness :
  GetDocumentCount (AddDocument 5 "black dog" BANNED [4] pets_server).2
    = GetDocumentCount pets_server + 1
  /\ GetDocumentId (AddDocument 5 "black dog" BANNED [4] pets_server).2
       (GetDocumentCount pets_server) = Returned (Some 5)
  /\ forall index, 0 <= index < GetDocumentCount pets_server ->
       GetDocumentId (AddDocument 5 "black dog" BANNED [4] pets_server).2 index
       = GetDocumentId pets_server index.
Proof.
  apply (AddDocument_then_GetDocumentId pets_server 5 "black dog" BANNED [4] (run_reachable _));
    vm_compute; reflexivity.
Defined.

(** ** The usage example: [MatchDocuments] *)

Section MatchDocuments.
Context {F : Type} `{FloatOps F}.
Implicit Types self : SearchServer F.

Lemma MatchDocument_returns self query documentId :
  well_formed_query query ->
  is_Some (documents_ self !! documentId) ->
  exists result, MatchDocument self query documentId = Returned result.
Proof.
  intros Hquery%(parseQuery_well_formed self query Query.empty) [data Hdata].
  rewrite MatchDocument_unfold, Hdata.
  destruct (parseQuery self query Query.empty) as [[|] parsed]; [eauto | discriminate].
Qed.

Lemma MatchDocument_bad_query self query documentId :
  ~ well_formed_query query ->
  MatchDocument self query documentId = Thrown (invalid_argument "Bad query").
Proof.
  intros Hquery. rewrite MatchDocument_unfold.
  pose proof (parseQuery_well_formed self query Query.empty) as Hformed.
  destruct (parseQuery self query Query.empty) as [[|] parsed]; [| reflexivity].
  destruct Hquery. now apply Hformed.
Qed.

Lemma MatchDocuments_loop_returns self query indices ids results cout :
  Forall2 (fun index documentId => GetDocumentId self index = Returned (Some documentId))
    indices ids ->
  Forall2 (fun documentId result => MatchDocument self query documentId = Returned result)
    ids results ->
  Usage.MatchDocuments_loop self query indices cout
  = Some (None, fold_left match_line (zip ids results) cout).
Proof.
  intros Hindices. revert results cout.
  induction Hindices as [|index documentId indices ids Hindex _ IH]; intros results cout Hresults.
  - reflexivity.
  - apply Forall2_cons_inv_l in Hresults as ([words status] & results' & Hresult & Hresults & ->).
    cbn [Usage.MatchDocuments_loop zip zip_with fold_left]. rewrite Hindex, Hresult.
    now rewrite (IH results').
Qed.

Lemma GetDocumentId_indices self :
  ids_enumerate_documents self ->
  Z.of_nat (size (documents_ self)) < 2 ^ 31 ->
  Forall2 (fun index documentId => GetDocumentId self index = Returned (Some documentId))
    (seqZ 0 (GetDocumentCount self)) (document_ids_ self).
Proof.
  intros Hids Hsmall. pose proof (length_document_ids self Hids) as Hlength.
  assert (Hcount : GetDocumentCount self = Z.of_nat (size (documents_ self))).
  { now apply static_cast_int_small. }
  apply Forall2_same_length_lookup_2.
  - rewrite length_seqZ, Hcount, Nat2Z.id. now symmetry.
  - intros i index documentId [-> Hi]%lookup_seqZ Hid.
    pose proof (GetDocumentId_cases self (0 + Z.of_nat i) Hids) as Hcase.
    rewrite (proj2 (andb_true_iff _ _)) in Hcase
      by (split; [apply Z.leb_le | apply Z.ltb_lt]; lia).
    destruct Hcase as (documentId' & -> & Hid' & _).
    rewrite Z.add_0_l, Nat2Z.id in Hid'. congruence.
Qed.

Lemma MatchDocument_results self query (ids : list Z) :
  well_formed_query query ->
  (forall documentId, documentId ∈ ids -> is_Some (documents_ self !! documentId)) ->
  exists results,
    Forall2 (fun documentId result => MatchDocument self query documentId = Returned result)
      ids results.
Proof.
  intros Hquery. induction ids as [|documentId ids IH]; intros Hstored.
  - exists []. constructor.
  - destruct IH as [results Hresults].
    { intros d Hd. apply Hstored. now right. }
    destruct (MatchDocument_returns self query documentId Hquery) as [result Hresult].
    { apply Hstored. now left. }
    exists (result :: results). now constructor.
Qed.

End MatchDocuments.

Lemma MatchDocuments_well_formed_query {F} `{FloatOps F} (self : SearchServer F) query cout :
  reachable self ->
  Z.of_nat (size (documents_ self)) < 2 ^ 31 ->
  well_formed_query query ->
  exists results,
    Forall2 (fun documentId result => MatchDocument self query documentId = Returned result)
      (document_ids_ self) results /\
    Usage.MatchDocuments self query cout =
      Some (fold_left match_line (zip (document_ids_ self) results)
              (cout +:+ match_header query)).
Proof.
  intros Hreach Hsmall Hquery.
  pose proof (reachable_ids_enumerate_documents self Hreach) as Hids.
  destruct (MatchDocument_results self query (document_ids_ self) Hquery) as [results Hresults].
  { intros documentId. apply Hids. }
  exists results. split; [exact Hresults |]. unfold Usage.MatchDocuments.
  rewrite (MatchDocuments_loop_returns self query _ _ _ _
             (GetDocumentId_indices self Hids Hsmall) Hresults).
  reflexivity.
Qed.

Lemma MatchDocuments_malformed_query {F} `{FloatOps F} (self : SearchServer F) query cout :
  reachable self ->
  Z.of_nat (size (documents_ self)) < 2 ^ 31 ->
  ~ well_formed_query query ->
  Usage.MatchDocuments self query cout =
  Some (cout +:+ match_header query +:+
        if bool_decide (documents_ self = ∅) then ""
        else "Ошибка матчинга документов на запрос " +:+ query +:+ ": " +:+ "Bad query" +:+ endl).
Proof.
  intros Hreach Hsmall Hquery.
  pose proof (reachable_ids_enumerate_documents self Hreach) as Hids.
  pose proof (GetDocumentId_indices self Hids Hsmall) as Hindices.
  assert (Hcount : GetDocumentCount self = Z.of_nat (size (documents_ self))).
  { now apply static_cast_int_small. }
  unfold Usage.MatchDocuments.
  destruct (decide (documents_ self = ∅)) as [Hempty | Hsome].
  - rewrite bool_decide_eq_true_2 by exact Hempty.
    rewrite Hcount, Hempty, map_size_empty. cbn. unfold match_header.
    now rewrite !append_assoc, append_empty_r.
  - rewrite bool_decide_eq_false_2 by exact Hsome.
    apply map_size_non_empty_iff in Hsome.
    rewrite seqZ_cons in * by lia. apply Forall2_cons_inv_l in Hindices
      as (documentId & ids & Hindex & _ & _).
    cbn [Usage.MatchDocuments_loop]. rewrite Hindex, (MatchDocument_bad_query self _ _ Hquery).
    cbn. unfold match_header. now rewrite !append_assoc.
Qed.

(** X17: What [MatchDocuments] writes on a reachable server (of fewer than 2^31
    documents).  For a well-formed query: the first line, then one line
    per stored document, in the order the documents were added, with what
    [MatchDocument] returns for it, and no error.  For a malformed query:
    the first line and the error of the first call of [MatchDocument], but
    on a server without documents the first line only, and no error at
    all. *)
Theorem MatchDocuments_output {F} `{FloatOps F} (self : SearchServer F) query cout :
  reachable self ->
  Z.of_nat (size (documents_ self)) < 2 ^ 31 ->
  (well_formed_query query ->
   exists results,
     Forall2 (fun documentId result => MatchDocument self query documentId = Returned result)
       (document_ids_ self) results /\
     Usage.MatchDocuments self query cout =
       Some (fold_left match_line (zip (document_ids_ self) results)
               (cout +:+ match_header query)))
  /\ (~ well_formed_query query ->
      Usage.MatchDocuments self query cout =
      Some (cout +:+ match_header query +:+
            if bool_decide (documents_ self = ∅) then ""
            else "Ошибка матчинга документов на запрос " +:+ query +:+ ": "
                 +:+ "Bad query" +:+ endl)).
Proof.
  intros Hreach Hsmall. split.
  - now apply MatchDocuments_well_formed_query.
  - now apply MatchDocuments_malformed_query.
Qed.

Lemma MatchDocuments_output_witness :
  (exists results,
     Forall2 (fun documentId result => MatchDocument pets_server "cat -city" documentId
                                       = Returned result)
       (document_ids_ pets_server) results /\
     Usage.MatchDocuments pets_server "cat -city" "" =
       Some (fold_left match_line (zip (document_ids_ pets_server) results)
               ("" +:+ match_header "cat -city")))
  /\ Usage.MatchDocuments pets_server "cat --city" "" =
       Some ("" +:+ match_header "cat --city" +:+
             "Ошибка матчинга документов на запрос " +:+ "cat --city" +:+ ": "
             +:+ "Bad query" +:+ endl)
  /\ Usage.MatchDocuments (SearchServer_default (F := R)) "cat --city" "" =
       Some ("" +:+ match_header "cat --city" +:+ "").
Proof.
  assert (Hsmall : Z.of_nat (size (documents_ pets_server)) < 2 ^ 31)
    by (vm_compute; reflexivity).
  assert (Hquery : ~ well_formed_query "cat --city").
  { intros Hwell. specialize (Hwell "--city"). cbn in Hwell.
    discriminate Hwell. apply elem_of_split. vm_compute.
    apply list_elem_of_further, list_elem_of_here. }
  split; [| split].
  - apply (MatchDocuments_output pets_server "cat -city" "" (run_reachable _) Hsmall).
    intros token Htoken%elem_of_split. vm_compute in Htoken.
    repeat (apply elem_of_cons in Htoken as [-> | Htoken]; [reflexivity |]).
    now apply elem_of_nil in Htoken.
  - exact (proj2 (MatchDocuments_output pets_server "cat --city" "" (run_reachable _) Hsmall)
             Hquery).
  - apply (MatchDocuments_output (SearchServer_default (F := R)) "cat --city" ""
             reachable_default); [vm_compute; reflexivity | exact Hquery].
Defined.

(** The text the program writes for the queries "cat -city" and
    "cat --city". *)
Example MatchDocuments_pets :
  Usage.MatchDocuments pets_server "cat -city" "" =
    Some ("Матчинг документов по запросу: cat -city" +:+ endl +:+
          "{ document_id = 2, status = 0, words =}" +:+ endl +:+
          "{ document_id = 7, status = 0, words =}" +:+ endl +:+
          "{ document_id = 9, status = 0, words = cat}" +:+ endl)
  /\ Usage.MatchDocuments pets_server "cat --city" "" =
       Some ("Матчинг документов по запросу: cat --city" +:+ endl +:+
             "Ошибка матчинга документов на запрос cat --city: Bad query" +:+ endl).
Proof. split; vm_compute; reflexivity. Qed.

(** ** Stop words *)

Section StopWords.
Context {F : Type} `{FloatOps F}.
Implicit Types self : SearchServer F.

Lemma SetStopWords_valid stopWords self :
  Forall (fun word => isValidWord word = true) stopWords ->
  SetStopWords stopWords self
  = (Returned tt, set_stopWords (list_to_set stopWords ∪ m_stopWords self) self).
Proof.
  intros Hvalid. revert self.
  induction Hvalid as [|word rest Hword _ IH]; intros self; cbn [SetStopWords].
  - f_equal. destruct self. unfold set_stopWords. cbn. f_equal.
    now rewrite (left_id_L ∅ (∪)).
  - rewrite Hword. cbn [negb]. rewrite IH. f_equal. unfold set_stopWords. cbn. f_equal.
    now rewrite (comm_L (∪) {[word]} (list_to_set _)), <- (assoc_L (∪)).
Qed.

Lemma SetStopWords_invalid good bad rest self :
  Forall (fun word => isValidWord word = true) good ->
  isValidWord bad = false ->
  SetStopWords (good ++ bad :: rest) self
  = (Thrown (invalid_argument "Bad stop word"),
     set_stopWords (list_to_set good ∪ m_stopWords self) self).
Proof.
  intros Hvalid Hbad. revert self.
  induction Hvalid as [|word good Hword _ IH]; intros self; cbn [SetStopWords app].
  - rewrite Hbad. cbn [negb]. f_equal. destruct self. unfold set_stopWords. cbn. f_equal.
    now rewrite (left_id_L ∅ (∪)).
  - rewrite Hword. cbn [negb]. rewrite IH. f_equal. unfold set_stopWords. cbn. f_equal.
    now rewrite (comm_L (∪) {[word]} (list_to_set _)), <- (assoc_L (∪)).
Qed.

Lemma elem_of_set_inserts (words : list string) (s : list string) word :
  word ∈ fold_left (fun s w => set_insert w s) words s <-> word ∈ words \/ word ∈ s.
Proof.
  revert s. induction words as [|w words IH]; intros s; cbn [fold_left].
  - rewrite elem_of_nil. tauto.
  - rewrite IH, elem_of_set_insert, elem_of_cons. tauto.
Qed.

End StopWords.

(** X18: [SetStopWords] on a container is not atomic: it adds the words one by
    one and throws at the first that is not valid, so the valid words
    before it stay stop words.  When all are valid, it returns and all
    are stop words. *)
Theorem SetStopWords_keeps_valid_prefix {F} `{FloatOps F} (self : SearchServer F) :
  (forall stopWords,
     Forall (fun word => isValidWord word = true) stopWords ->
     SetStopWords stopWords self
     = (Returned tt, set_stopWords (list_to_set stopWords ∪ m_stopWords self) self))
  /\ (forall good bad rest,
        Forall (fun word => isValidWord word = true) good ->
        isValidWord bad = false ->
        SetStopWords (good ++ bad :: rest) self
        = (Thrown (invalid_argument "Bad stop word"),
           set_stopWords (list_to_set good ∪ m_stopWords self) self)).
Proof.
  split.
  - intros stopWords. apply SetStopWords_valid.
  - intros good bad rest. apply SetStopWords_invalid.
Qed.

(** X19: [SetStopWords] on a text returns if and only if every token of the
    text is a valid word; the stop words are then those there were and the
    tokens of the text, and the documents and the index are as before. *)
Theorem SetStopWordsText_stop_words {F} `{FloatOps F} (self : SearchServer F) stopWordsText :
  ((SetStopWordsText stopWordsText self).1 = Returned tt <->
   forall token, is_token stopWordsText token -> isValidWord token = true)
  /\ ((SetStopWordsText stopWordsText self).1 = Returned tt ->
      (forall word,
         isStopWord (SetStopWordsText stopWordsText self).2 word = true <->
         isStopWord self word = true \/ is_token stopWordsText word)
      /\ documents_ (SetStopWordsText stopWordsText self).2 = documents_ self
      /\ word_to_document_freqs_ (SetStopWordsText stopWordsText self).2
         = word_to_document_freqs_ self).
Proof.
  unfold SetStopWordsText.
  set (temp := fold_left (fun s w => set_insert w s) (split stopWordsText) []).
  assert (Htemp : forall word, word ∈ temp <-> is_token stopWordsText word).
  { intros word. unfold temp. rewrite elem_of_set_inserts, elem_of_nil, elem_of_split. tauto. }
  destruct (decide (Forall (fun word => isValidWord word = true) temp)) as [Hall | Hsome].
  - rewrite (SetStopWords_valid temp self Hall). cbn [fst snd]. split.
    + split; [| reflexivity]. intros _ token Htoken%Htemp.
      rewrite Forall_forall in Hall. now apply Hall.
    + intros _. split; [| split; reflexivity]. intros word.
      unfold isStopWord, set_stopWords. cbn [m_stopWords].
      rewrite !bool_decide_eq_true, elem_of_union, elem_of_list_to_set, Htemp. tauto.
  - assert (Hsplit : exists good bad rest,
              temp = good ++ bad :: rest /\
              Forall (fun word => isValidWord word = true) good /\ isValidWord bad = false).
    { clear Htemp. induction temp as [|word temp IH].
      - destruct Hsome. constructor.
      - destruct (isValidWord word) eqn:Hword.
        + destruct IH as (good & bad & rest & -> & Hgood & Hbad).
          { intros Hall. apply Hsome. now constructor. }
          exists (word :: good), bad, rest. repeat split; [now constructor | exact Hbad].
        + exists [], word, temp. repeat split; [constructor | exact Hword]. }
    destruct Hsplit as (good & bad & rest & Heq & Hgood & Hbad).
    rewrite Heq, (SetStopWords_invalid good bad rest self Hgood Hbad). cbn [fst].
    split; [| discriminate]. split; [discriminate |].
    intros Hvalid. rewrite (Hvalid bad) in Hbad; [discriminate |].
    apply Htemp. rewrite Heq. apply elem_of_app. right. now left.
Qed.

(** ** A query of stop words *)

Lemma FindTopDocuments_no_words {F} `{FloatOps F}
    (sort : (Document.t F -> Document.t F -> bool) -> list (Document.t F) -> list (Document.t F))
    (self : SearchServer F) rawQuery (document_predicate : DocumentPredicate) :
  std_sort sort ->
  parseQuery self rawQuery Query.empty = (true, Query.mk [] []) ->
  FindTopDocuments sort self rawQuery document_predicate = Returned [].
Proof.
  intros [Hperm _] Hparse.
  assert (Hfind : findAllDocuments self (Query.mk [] []) document_predicate = Returned []).
  { unfold findAllDocuments. cbn [Query.plus_words Query.minus_words for_each fold_left].
    cbn [mbind outcome_bind]. unfold map_items. rewrite map_to_list_empty. reflexivity. }
  rewrite (FindTopDocuments_returns sort _ _ _ _ _ Hparse Hfind).
  now rewrite (proj1 (Permutation_nil_r _) (Hperm byRelevance [] (strict_weak_order_on_nil _))).
Qed.

(** X20: Stop words in a query are ignored: a well-formed query whose words are
    all stop words (with or without a minus sign) asks for nothing, and
    [FindTopDocuments] returns no document. *)
Theorem FindTopDocuments_stop_words_only {F} `{FloatOps F}
    (sort : (Document.t F -> Document.t F -> bool) -> list (Document.t F) -> list (Document.t F))
    (self : SearchServer F) rawQuery (document_predicate : DocumentPredicate) :
  std_sort sort ->
  (forall token, is_token rawQuery token ->
     isValidWord (strip_minus token) = true /\ isStopWord self (strip_minus token) = true) ->
  FindTopDocuments sort self rawQuery document_predicate = Returned [].
Proof.
  intros Hsort Htokens.
  assert (Hwell : well_formed_query rawQuery).
  { intros token Htoken. now apply Htokens. }
  apply (parseQuery_well_formed self rawQuery Query.empty) in Hwell.
  destruct (parseQuery self rawQuery Query.empty) as [ok [plus_words minus_words]] eqn:Hparse.
  cbn [fst] in Hwell. subst ok.
  destruct (parseQuery_loop_words self _ _ _ Hparse) as [Hplus Hminus].
  cbn [Query.plus_words Query.minus_words Query.empty] in Hplus, Hminus.
  assert (plus_words = []) as ->.
  { destruct plus_words as [|word rest]; [reflexivity |]. exfalso.
    destruct (proj1 (Hplus word)) as [[]%elem_of_nil | (Htoken%elem_of_split & Hnot & Hstop)];
      [now left |].
    destruct (Htokens word Htoken) as [_ Hstop'].
    rewrite (strip_minus_plus word Hnot) in Hstop'. congruence. }
  assert (minus_words = []) as ->.
  { destruct minus_words as [|word rest]; [reflexivity |]. exfalso.
    destruct (proj1 (Hminus word)) as [[]%elem_of_nil | (Htoken%elem_of_split & Hstop)];
      [now left |].
    destruct (Htokens _ Htoken) as [_ Hstop']. cbn in Hstop'. congruence. }
  now apply FindTopDocuments_no_words.
Qed.

Lemma FindTopDocuments_stop_words_only_witness :
  FindTopDocuments insertion_sort pets_server "the -in" (fun _ _ _ => true) = Returned [].
Proof.
  apply (FindTopDocuments_stop_words_only insertion_sort pets_server "the -in"
           (fun _ _ _ => true) insertion_sort_std_sort).
  intros token Htoken%elem_of_split. vm_compute in Htoken.
  repeat (apply elem_of_cons in Htoken as [-> | Htoken]; [split; vm_compute; reflexivity |]).
  now apply elem_of_nil in Htoken.
Defined.

(** ** The average rating lies between the ratings *)

Lemma sum_Z_between ratings low high :
  Forall (fun r => low <= r <= high) ratings ->
  Z.of_nat (length ratings) * low <= sum_Z ratings <= Z.of_nat (length ratings) * high.
Proof.
  induction 1 as [|r ratings Hr _ IH]; [cbn; lia |].
  cbn [sum_Z fold_right length]. fold (sum_Z ratings). lia.
Qed.

(** X21: For fewer than 2^31 ratings whose running sum stays within the
    range of [int], the average rating of a document with at least one
    rating lies between its smallest and its largest rating. *)
Theorem computeAverageRating_between ratings low high :
  Z.of_nat (length ratings) < 2 ^ 31 ->
  no_overflow ratings ->
  ratings <> [] ->
  Forall (fun r => low <= r <= high) ratings ->
  low <= computeAverageRating ratings <= high.
Proof.
  intros Hcount Hsafe Hsome Hbounds. rewrite (computeAverageRating_mean ratings Hcount Hsafe).
  destruct ratings as [|r ratings]; [congruence |].
  pose proof (sum_Z_between _ low high Hbounds) as Hsum.
  set (n := Z.of_nat (length (r :: ratings))) in *.
  set (s := sum_Z (r :: ratings)) in *.
  assert (Hn : 0 < n) by (unfold n; cbn [length]; lia).
  pose proof (Z.quot_rem' s n) as Hdiv.
  destruct (Z_le_gt_dec 0 s) as [Hpos | Hneg].
  - pose proof (Z.rem_bound_pos s n Hpos Hn). nia.
  - pose proof (Z.rem_bound_pos (- s) n ltac:(lia) Hn) as Hrem.
    rewrite Z.rem_opp_l in Hrem by lia. nia.
Qed.

Lemma computeAverageRating_between_witness : -12 <= computeAverageRating [5; -12; 2; 1] <= 5.
Proof.
  apply (computeAverageRating_between [5; -12; 2; 1] (-12) 5).
  - simpl. lia.
  - intros [|[|[|[|[|n]]]]]; unfold in_int_range; simpl; lia.
  - discriminate.
  - repeat constructor; lia.
Defined.

(** ** The relevance of a returned document (in real arithmetic) *)

Section Relevance.
Implicit Types self : SearchServer R.

(** The relevance of a returned document is the TF-IDF of its stored
    words. *)
Lemma FindTopDocuments_returned_tfidf
    (sort : (Document.t R -> Document.t R -> bool) -> list (Document.t R) -> list (Document.t R))
    self rawQuery query (document_predicate : DocumentPredicate) documents document :
  std_sort sort ->
  index_consistent self ->
  parseQuery self rawQuery Query.empty = (true, query) ->
  sort_within_contract self query document_predicate ->
  FindTopDocuments sort self rawQuery document_predicate = Returned documents ->
  document ∈ documents ->
  exists data,
    documents_ self !! Document.id document = Some data /\
    Document.relevance document = tfidf self query data.
Proof.
  intros Hsort Hinv Hparse Hcontract Hcall Hin.
  destruct (FindTopDocuments_within_contract sort self rawQuery query document_predicate
              documents Hsort Hparse Hcontract Hcall) as (matched & Hfind & Hperm & _ & ->).
  destruct (findAllDocuments_returns self query document_predicate
              (index_consistent_closed self Hinv)) as (relevances & Hrel & Hfind').
  rewrite Hfind in Hfind'. injection Hfind' as ->.
  apply subseteq_take in Hin. rewrite Hperm in Hin.
  apply list_elem_of_fmap in Hin as ([d r] & -> & Hin). cbn [scored Document.id Document.relevance fst snd].
  apply elem_of_map_items in Hin. rewrite Hrel in Hin.
  destruct (existsb _ _); [discriminate |].
  destruct (relevance_after_Some _ _ _ _ _ _ Hin) as [[? ?] | (word & _ & [c Hc])];
    [discriminate |].
  apply contribution_Some in Hc as (_ & _ & data & _ & _ & Hdata & Hpred & _).
  exists data. split; [exact Hdata |].
  pose proof (relevance_after_tfidf self document_predicate (Query.plus_words query) d data
                None Hinv Hdata Hpred) as Hsum.
  rewrite Hin in Hsum. simpl in Hsum. unfold tfidf. lra.
Qed.

Lemma termFrequency_nonneg word (data : DocumentData.t) : (0 <= termFrequency word data)%R.
Proof.
  unfold termFrequency.
  pose proof (count_occ_bound string_dec word (DocumentData.words data)) as Hbound.
  destruct (length (DocumentData.words data)) as [|n].
  - replace (count_occ string_dec (DocumentData.words data) word) with 0%nat by lia.
    rewrite Nat2Z.inj_0. unfold Rdiv. lra.
  - apply Rmult_le_pos; [apply IZR_le; lia |].
    left. apply Rinv_0_lt_compat, IZR_lt. lia.
Qed.

Lemma documentsContaining_le self word :
  (documentsContaining self word <= size (documents_ self))%nat.
Proof. unfold documentsContaining. apply map_subseteq_size, map_filter_subseteq. Qed.

Lemma documentsContaining_pos self word documentId data :
  documents_ self !! documentId = Some data ->
  word ∈ DocumentData.words data ->
  (0 < documentsContaining self word)%nat.
Proof.
  intros Hdata Hin. unfold documentsContaining.
  assert (Hsome : filter (fun entry : Z * DocumentData.t => word ∈ DocumentData.words entry.2)
                    (documents_ self) !! documentId = Some data).
  { now apply map_lookup_filter_Some. }
  destruct (size _) eqn:Hsize; [| lia].
  apply map_size_empty_inv in Hsize. rewrite Hsize, lookup_empty in Hsome. discriminate.
Qed.

Lemma inverseDocumentFrequency_nonneg self word documentId data :
  Z.of_nat (size (documents_ self)) < 2 ^ 31 ->
  documents_ self !! documentId = Some data ->
  word ∈ DocumentData.words data ->
  (0 <= inverseDocumentFrequency self word)%R.
Proof.
  intros Hsmall Hdata Hin. unfold inverseDocumentFrequency, GetDocumentCount.
  rewrite static_cast_int_small by exact Hsmall.
  pose proof (documentsContaining_le self word) as Hle.
  pose proof (documentsContaining_pos self word documentId data Hdata Hin) as Hpos.
  set (n := size (documents_ self)) in *. set (df := documentsContaining self word) in *.
  assert (Hdf : (0 < IZR (Z.of_nat df))%R) by (apply IZR_lt; lia).
  assert (Hratio : (1 <= IZR (Z.of_nat n) / IZR (Z.of_nat df))%R).
  { apply (Rmult_le_reg_r (IZR (Z.of_nat df))); [exact Hdf |].
    unfold Rdiv. rewrite Rmult_assoc, Rinv_l, Rmult_1_l, Rmult_1_r by lra.
    apply IZR_le. lia. }
  destruct (ln_bounds (IZR (Z.of_nat n) / IZR (Z.of_nat df)) ltac:(lra)) as [Hlow _].
  pose proof (Rinv_le_contravar 1 _ ltac:(lra) Hratio) as Hinv.
  rewrite Rinv_1 in Hinv. lra.
Qed.

Lemma tfidf_nonneg self query data documentId :
  Z.of_nat (size (documents_ self)) < 2 ^ 31 ->
  documents_ self !! documentId = Some data ->
  (0 <= tfidf self query data)%R.
Proof.
  intros Hsmall Hdata. unfold tfidf.
  induction (Query.plus_words query) as [|word rest IH]; [cbn; lra |].
  rewrite filter_cons. destruct (decide (word ∈ DocumentData.words data)) as [Hin | Hnotin];
    [| exact IH].
  cbn [map sum_R fold_right]. fold (sum_R (map (fun word =>
    (termFrequency word data * inverseDocumentFrequency self word)%R)
    (filter (fun word => word ∈ DocumentData.words data) rest))).
  pose proof (termFrequency_nonneg word data).
  pose proof (inverseDocumentFrequency_nonneg self word documentId data Hsmall Hdata Hin).
  pose proof (Rmult_le_pos _ _ H H0). lra.
Qed.

Lemma inverseDocumentFrequency_common_word self word :
  Z.of_nat (size (documents_ self)) < 2 ^ 31 ->
  documents_ self <> ∅ ->
  (forall documentId data,
     documents_ self !! documentId = Some data -> word ∈ DocumentData.words data) ->
  inverseDocumentFrequency self word = 0%R.
Proof.
  intros Hsmall Hsome Hall. unfold inverseDocumentFrequency, GetDocumentCount, documentsContaining.
  rewrite static_cast_int_small by exact Hsmall.
  rewrite map_filter_id by (intros documentId data Hdata; exact (Hall documentId data Hdata)).
  apply map_size_non_empty_iff in Hsome.
  unfold Rdiv. rewrite Rinv_r; [apply ln_1 |].
  apply not_0_IZR. lia.
Qed.

End Relevance.

(** X22: Within the contract of [std::sort], in real arithmetic (the
    rounding of [double] left aside) and on a reachable server of fewer
    than 2^31 documents, the relevance of each document [FindTopDocuments]
    returns is the sum, over the plus words of the parsed query that occur
    in the document, of the term frequency (occurrences divided by the
    number of stored, non-stop words) times ln(document count / number of
    documents containing the word).  It is never negative, and it is 0
    when each plus word is among the words of every stored document. *)
Theorem FindTopDocuments_relevance_is_tfidf
    (sort : (Document.t R -> Document.t R -> bool) -> list (Document.t R) -> list (Document.t R))
    (self : SearchServer R) rawQuery query (document_predicate : DocumentPredicate)
    documents document :
  std_sort sort ->
  reachable self ->
  Z.of_nat (size (documents_ self)) < 2 ^ 31 ->
  parseQuery self rawQuery Query.empty = (true, query) ->
  sort_within_contract self query document_predicate ->
  FindTopDocuments sort self rawQuery document_predicate = Returned documents ->
  document ∈ documents ->
  exists data,
    documents_ self !! Document.id document = Some data
    /\ Document.relevance document = tfidf self query data
    /\ (0 <= Document.relevance document)%R
    /\ ((forall word documentId data',
           word ∈ Query.plus_words query ->
           documents_ self !! documentId = Some data' ->
           word ∈ DocumentData.words data') ->
        Document.relevance document = 0%R).
Proof.
  intros Hsort Hreach Hsmall Hparse Hcontract Hcall Hin.
  destruct (FindTopDocuments_returned_tfidf sort self rawQuery query document_predicate documents
              document Hsort (reachable_index_consistent self Hreach) Hparse Hcontract Hcall Hin)
    as (data & Hdata & Hrelevance).
  exists data. split; [exact Hdata |]. split; [exact Hrelevance |]. rewrite Hrelevance.
  split; [exact (tfidf_nonneg self query data _ Hsmall Hdata) |].
  intros Hcommon.
  assert (Hsome : documents_ self <> ∅).
  { intros Hempty. rewrite Hempty, lookup_empty in Hdata. discriminate. }
  unfold tfidf.
  assert (Hwords : forall word, word ∈ Query.plus_words query -> word ∈ Query.plus_words query)
    by auto.
  revert Hwords. generalize (Query.plus_words query) at 1 3.
  induction l as [|word rest IH]; intros Hwords; [reflexivity |].
  rewrite filter_cons.
  assert (Hrest : sum_R (map (fun word =>
                    (termFrequency word data * inverseDocumentFrequency self word)%R)
                    (filter (fun word => word ∈ DocumentData.words data) rest)) = 0%R).
  { apply IH. intros w Hw. apply Hwords. now right. }
  destruct (decide (word ∈ DocumentData.words data)); [| exact Hrest].
  cbn [map sum_R fold_right]. fold (sum_R (map (fun word =>
    (termFrequency word data * inverseDocumentFrequency self word)%R)
    (filter (fun word => word ∈ DocumentData.words data) rest))).
  rewrite Hrest, (inverseDocumentFrequency_common_word self word Hsmall Hsome).
  - lra.
  - intros documentId data'. apply Hcommon, Hwords. now left.
Qed.

Lemma FindTopDocuments_relevance_is_tfidf_witness :
  exists data,
    documents_ pets_server !! 2 = Some data
    /\ (0 + (0 + 1 / 2) * ln (3 * 1 / 2))%R = tfidf pets_server (Query.mk ["cat"] ["black"]) data
    /\ (0 <= 0 + (0 + 1 / 2) * ln (3 * 1 / 2))%R
    /\ ((forall word documentId data',
           word ∈ ["cat"] ->
           documents_ pets_server !! documentId = Some data' ->
           word ∈ DocumentData.words data') ->
        (0 + (0 + 1 / 2) * ln (3 * 1 / 2))%R = 0%R).
Proof.
  apply (FindTopDocuments_relevance_is_tfidf insertion_sort pets_server "cat -black"
           (Query.mk ["cat"] ["black"]) (fun _ _ _ => true)
           [Document.mk 2 (0 + (0 + 1 / 2) * ln (3 * 1 / 2))%R 1]
           (Document.mk 2 (0 + (0 + 1 / 2) * ln (3 * 1 / 2))%R 1)
           insertion_sort_std_sort (run_reachable _)).
  - vm_compute. reflexivity.
  - vm_compute. reflexivity.
  - exact pets_cat_black_within_contract.
  - vm_compute. reflexivity.
  - apply list_elem_of_here.
Defined.

(** ** A query is a set of words *)

Lemma ascending_unique s1 s2 :
  StronglySorted lex_lt s1 -> StronglySorted lex_lt s2 ->
  (forall word, word ∈ s1 <-> word ∈ s2) ->
  s1 = s2.
Proof.
  intros Hs1 Hs2 Hsame. apply (StronglySorted_unique_strong lex_lt); try assumption.
  - intros x1 x2 _ _ H12 H21. destruct (lex_lt_irrefl x1). now transitivity x2.
  - apply NoDup_Permutation; [now apply ascending_NoDup | now apply ascending_NoDup | exact Hsame].
Qed.

Lemma parseQuery_same_tokens {F} `{FloatOps F} (self : SearchServer F) rawQuery1 rawQuery2 :
  (forall token, is_token rawQuery1 token <-> is_token rawQuery2 token) ->
  match parseQuery self rawQuery1 Query.empty, parseQuery self rawQuery2 Query.empty with
  | (true, query1), (true, query2) => query1 = query2
  | (false, _), (false, _) => True
  | _, _ => False
  end.
Proof.
  intros Hsame.
  pose proof (parseQuery_well_formed self rawQuery1 Query.empty) as Hformed1.
  pose proof (parseQuery_well_formed self rawQuery2 Query.empty) as Hformed2.
  assert (Hwell : well_formed_query rawQuery1 <-> well_formed_query rawQuery2).
  { unfold well_formed_query. split; intros Hall token Htoken; apply Hall; now apply Hsame. }
  destruct (parseQuery self rawQuery1 Query.empty) as [[|] query1] eqn:Hparse1;
    destruct (parseQuery self rawQuery2 Query.empty) as [[|] query2] eqn:Hparse2;
    cbn [fst] in Hformed1, Hformed2; try exact I;
    try (exfalso; intuition discriminate).
  destruct (parseQuery_loop_words self _ _ _ Hparse1) as [Hplus1 Hminus1].
  destruct (parseQuery_loop_words self _ _ _ Hparse2) as [Hplus2 Hminus2].
  destruct (parseQuery_ascending self _ _ _ Hparse1) as [Hsorted1 Hsorted1'].
  destruct (parseQuery_ascending self _ _ _ Hparse2) as [Hsorted2 Hsorted2'].
  destruct query1 as [plus1 minus1], query2 as [plus2 minus2].
  cbn [Query.plus_words Query.minus_words Query.empty] in *.
  f_equal; apply ascending_unique; try assumption; intros word.
  - rewrite Hplus1, Hplus2, !elem_of_split, Hsame. tauto.
  - rewrite Hminus1, Hminus2, !elem_of_split, Hsame. tauto.
Qed.

(** X23: A query is read as a set of words: two raw queries with the same
    tokens, in whatever order and however often repeated, are answered
    alike by [FindTopDocuments] and by [MatchDocument]. *)
Theorem queries_with_same_tokens {F} `{FloatOps F}
    (sort : (Document.t F -> Document.t F -> bool) -> list (Document.t F) -> list (Document.t F))
    (self : SearchServer F) rawQuery1 rawQuery2 :
  (forall token, is_token rawQuery1 token <-> is_token rawQuery2 token) ->
  (forall document_predicate,
     FindTopDocuments sort self rawQuery1 document_predicate
     = FindTopDocuments sort self rawQuery2 document_predicate)
  /\ (forall documentId,
        MatchDocument self rawQuery1 documentId = MatchDocument self rawQuery2 documentId).
Proof.
  intros Hsame. pose proof (parseQuery_same_tokens self rawQuery1 rawQuery2 Hsame) as Hparse.
  unfold FindTopDocuments, MatchDocument.
  destruct (parseQuery self rawQuery1 Query.empty) as [[|] query1];
    destruct (parseQuery self rawQuery2 Query.empty) as [[|] query2];
    try contradiction; [subst query2 |]; split; reflexivity.
Qed.

Lemma queries_with_same_tokens_witness :
  FindTopDocuments insertion_sort pets_server "cat  -black cat" (fun _ _ _ => true)
  = FindTopDocuments insertion_sort pets_server "-black cat" (fun _ _ _ => true).
Proof.
  apply (queries_with_same_tokens insertion_sort pets_server "cat  -black cat" "-black cat").
  intros token. rewrite <- !elem_of_split.
  assert (Hsplit1 : split "cat  -black cat" = ["cat"; "-black"; "cat"]) by (vm_compute; reflexivity).
  assert (Hsplit2 : split "-black cat" = ["-black"; "cat"]) by (vm_compute; reflexivity).
  rewrite Hsplit1, Hsplit2, !elem_of_cons, elem_of_nil. tauto.
Defined.

(** * Further properties of the older server *)

(** ** [SplitIntoWords] and joining by spaces *)

Lemma concat_cons sep (x : string) (l : list string) :
  l <> [] -> String.concat sep (x :: l) = x +:+ sep +:+ String.concat sep l.
Proof. destruct l; [congruence | reflexivity]. Qed.

Lemma SplitIntoWords_loop_app text word words :
  Lenient.SplitIntoWords_loop text word words = words ++ Lenient.SplitIntoWords_loop text word [].
Proof.
  revert word words. induction text as [|c text IH]; intros word words;
    cbn [Lenient.SplitIntoWords_loop]; [reflexivity |].
  destruct (Ascii.eqb c " ").
  - rewrite (IH _ (words ++ [word])), (IH _ ([] ++ [word])). now rewrite <- !app_assoc.
  - apply IH.
Qed.

Lemma SplitIntoWords_loop_nonempty text word words :
  Lenient.SplitIntoWords_loop text word words <> [].
Proof.
  revert word words. induction text as [|c text IH]; intros word words;
    cbn [Lenient.SplitIntoWords_loop].
  - now destruct words.
  - destruct (Ascii.eqb c " "); apply IH.
Qed.

Lemma concat_SplitIntoWords_loop text word :
  String.concat " " (Lenient.SplitIntoWords_loop text word []) = word +:+ text.
Proof.
  revert word. induction text as [|c text IH]; intros word; cbn [Lenient.SplitIntoWords_loop].
  - now rewrite append_empty_r.
  - destruct (Ascii.eqb_spec c " ") as [-> | Hc].
    + rewrite SplitIntoWords_loop_app. cbn [app].
      rewrite concat_cons by apply SplitIntoWords_loop_nonempty.
      now rewrite IH, append_empty_l.
    + now rewrite IH, append_assoc, append_String, append_empty_l.
Qed.

Lemma space_free_snoc word c : space_free word -> c <> " "%char ->
  space_free (word +:+ String c EmptyString).
Proof.
  unfold space_free. intros Hword Hc. induction word as [|d word IH].
  - rewrite append_empty_l. cbn. auto.
  - rewrite append_String. cbn [list_ascii_of_string] in *.
    apply Forall_cons in Hword as [? ?]. auto.
Qed.

Lemma SplitIntoWords_loop_space_free text word :
  space_free word -> Forall space_free (Lenient.SplitIntoWords_loop text word []).
Proof.
  revert word. induction text as [|c text IH]; intros word Hword;
    cbn [Lenient.SplitIntoWords_loop].
  - cbn. auto.
  - destruct (Ascii.eqb_spec c " ") as [-> | Hc].
    + rewrite SplitIntoWords_loop_app. cbn [app]. constructor; [exact Hword |].
      apply IH. constructor.
    + apply IH. now apply space_free_snoc.
Qed.

Lemma SplitIntoWords_loop_word word text acc words :
  space_free word ->
  Lenient.SplitIntoWords_loop (word +:+ text) acc words
  = Lenient.SplitIntoWords_loop text (acc +:+ word) words.
Proof.
  revert acc. induction word as [|c word IH]; intros acc Hword.
  - now rewrite append_empty_l, append_empty_r.
  - cbn [list_ascii_of_string] in Hword. apply Forall_cons in Hword as [Hc Hword].
    rewrite append_String. cbn [Lenient.SplitIntoWords_loop].
    rewrite (proj2 (Ascii.eqb_neq c " ") Hc), (IH _ Hword).
    now rewrite append_assoc, append_String, append_empty_l.
Qed.

Lemma SplitIntoWords_concat_words words :
  words <> [] ->
  Forall space_free words ->
  Lenient.SplitIntoWords (String.concat " " words) = words.
Proof.
  unfold Lenient.SplitIntoWords. induction words as [|word words IH]; [congruence |].
  intros _ [Hword Hwords]%Forall_cons. destruct words as [|next words].
  - cbn [String.concat]. rewrite <- (append_empty_r word) at 1.
    rewrite (SplitIntoWords_loop_word word _ _ _ Hword), append_empty_l. reflexivity.
  - rewrite concat_cons by discriminate.
    rewrite (SplitIntoWords_loop_word word _ _ _ Hword), append_empty_l.
    rewrite append_String, append_empty_l. cbn [Lenient.SplitIntoWords_loop Ascii.eqb].
    change (Ascii.eqb " " " ") with true. cbn match.
    rewrite SplitIntoWords_loop_app. cbn [app]. now rewrite IH.
Qed.

(** X24: [SplitIntoWords] and joining by single spaces undo each other: the
    words it returns, never none and each without a space, joined by
    spaces give the text back; and a non-empty list of words without
    spaces is what it returns for their join.  A leading, trailing or
    doubled space thus yields an empty word. *)
Theorem SplitIntoWords_inverts_concat :
  (forall text,
     String.concat " " (Lenient.SplitIntoWords text) = text
     /\ Lenient.SplitIntoWords text <> []
     /\ Forall space_free (Lenient.SplitIntoWords text))
  /\ (forall words,
        words <> [] ->
        Forall space_free words ->
        Lenient.SplitIntoWords (String.concat " " words) = words).
Proof.
  split.
  - intros text. unfold Lenient.SplitIntoWords. split; [| split].
    + now rewrite concat_SplitIntoWords_loop, append_empty_l.
    + apply SplitIntoWords_loop_nonempty.
    + apply SplitIntoWords_loop_space_free. constructor.
  - apply SplitIntoWords_concat_words.
Qed.

(** ** Adding a document to the older server *)

Section LenientAddDocument.
Context {F : Type} `{FloatOps F}.
Implicit Types self : Lenient.SearchServer F.
Implicit Types index : gmap string (gmap Z F).

(** The state [AddDocument] leaves for a text that is not empty: a new
    document is stored as given; for a stored id the new words are
    appended to the old ones, the status and the ratings given are
    dropped, and the document is indexed afresh. *)
Lemma Lenient_AddDocument_state self document_id document status ratings :
  document <> EmptyString ->
  (Lenient.AddDocument document_id document status ratings self).2 =
  match Lenient.documents_ self !! document_id with
  | None =>
      let words := Lenient.splitIntoWordsNoStop self document in
      Lenient.mkSearchServer (Lenient.stop_words_ self)
        (fold_left (addTermOccurrence document_id (f_div f_one (f_of_size (length words))))
           words (Lenient.word_to_document_freqs_ self))
        (<[document_id := DocumentData.mk (Lenient.computeAverageRating ratings) status words]>
           (Lenient.documents_ self))
  | Some old =>
      let words := DocumentData.words old ++ Lenient.splitIntoWordsNoStop self document in
      Lenient.mkSearchServer (Lenient.stop_words_ self)
        (fold_left (addTermOccurrence document_id (f_div f_one (f_of_size (length words))))
           words
           (Lenient.deleteAllDocumentWords document_id (Lenient.word_to_document_freqs_ self)))
        (<[document_id := DocumentData.mk (DocumentData.rating old) (DocumentData.status old)
                            words]>
           (Lenient.documents_ self))
  end.
Proof.
  intros Hdocument. unfold Lenient.AddDocument.
  destruct document as [|c rest]; [congruence |].
  unfold Lenient.addDocumentData, emplace.
  destruct (Lenient.documents_ self !! document_id) as [old|] eqn:Hold;
    cbn [negb snd Lenient.stop_words_ Lenient.word_to_document_freqs_ Lenient.documents_];
    unfold Lenient.calculateTermFrequency, subscript;
    cbn [Lenient.stop_words_ Lenient.word_to_document_freqs_ Lenient.documents_];
    rewrite lookup_insert_eq; reflexivity.
Qed.

Lemma index_lookup_deleteAllDocumentWords documentId index word d :
  index_lookup (Lenient.deleteAllDocumentWords documentId index) word d =
  if bool_decide (d = documentId) then None else index_lookup index word d.
Proof.
  unfold index_lookup, Lenient.deleteAllDocumentWords. rewrite lookup_fold_delete.
  set (erased := delete documentId <$> index).
  assert (Herased : (erased !! word ≫= fun freqs => freqs !! d) =
                    if bool_decide (d = documentId) then None
                    else index !! word ≫= fun freqs => freqs !! d).
  { unfold erased. rewrite lookup_fmap.
    destruct (index !! word) as [freqs|]; cbn.
    - destruct (decide (d = documentId)) as [-> | Hd].
      + rewrite bool_decide_eq_true_2 by reflexivity. apply lookup_delete_eq.
      + rewrite bool_decide_eq_false_2 by assumption. now apply lookup_delete_ne.
    - now destruct (bool_decide (d = documentId)). }
  destruct (bool_decide (word ∈ _)) eqn:Hempty; [| exact Herased].
  rewrite <- Herased. apply bool_decide_eq_true in Hempty.
  apply list_elem_of_In, filter_In in Hempty as [_ Hsize].
  destruct (erased !! word) as [docFreq|]; [| reflexivity].
  apply Nat.eqb_eq, map_size_empty_inv in Hsize as ->. cbn. now rewrite lookup_empty.
Qed.

Lemma Lenient_AddDocument_index_consistent self document_id document status ratings :
  index_consistent (as_validating self) ->
  index_consistent
    (as_validating (Lenient.AddDocument document_id document status ratings self).2).
Proof.
  intros Hinv. destruct (decide (document = EmptyString)) as [-> | Hdocument]; [exact Hinv |].
  rewrite (Lenient_AddDocument_state self _ _ _ _ Hdocument).
  intros w d. pose proof (Hinv w d) as Hwd.
  unfold stored_term_freq, as_validating in *. cbn [word_to_document_freqs_ documents_] in *.
  destruct (Lenient.documents_ self !! document_id) as [old|] eqn:Hold;
    cbn [as_validating Lenient.word_to_document_freqs_ Lenient.documents_
         word_to_document_freqs_ documents_];
    rewrite index_lookup_addTermOccurrences.
  - rewrite index_lookup_deleteAllDocumentWords.
    destruct (decide (d = document_id)) as [-> | Hd].
    + rewrite !bool_decide_eq_true_2 by reflexivity.
      rewrite lookup_insert_eq. cbn [mbind option_bind].
      rewrite summed_from_nothing. unfold summed_term_freq. cbn [DocumentData.words].
      now destruct (count_occ string_dec _ w).
    + rewrite !bool_decide_eq_false_2 by assumption.
      now rewrite lookup_insert_ne by congruence.
  - destruct (decide (d = document_id)) as [-> | Hd].
    + rewrite bool_decide_eq_true_2 by reflexivity.
      rewrite lookup_insert_eq, Hwd, Hold. cbn [mbind option_bind].
      rewrite summed_from_nothing. unfold summed_term_freq. cbn [DocumentData.words].
      now destruct (count_occ string_dec _ w).
    + rewrite bool_decide_eq_false_2 by assumption.
      now rewrite lookup_insert_ne by congruence.
Qed.

Lemma lenient_reachable_index_consistent self :
  lenient_reachable self -> index_consistent (as_validating self).
Proof.
  induction 1 as [| self text _ IH | self document_id document status ratings _ IH].
  - intros word documentId. reflexivity.
  - exact IH.
  - now apply Lenient_AddDocument_index_consistent.
Qed.

End LenientAddDocument.

(** X25: Adding a stored id again to the older server merges: the words of the
    new text (without the stop words) are appended to the stored words,
    and the status and the rating stay those of the first call, whatever
    status and ratings are given. *)
Theorem Lenient_AddDocument_merges {F} `{FloatOps F} (self : Lenient.SearchServer F)
    document_id document status ratings old :
  document <> EmptyString ->
  Lenient.documents_ self !! document_id = Some old ->
  (Lenient.AddDocument document_id document status ratings self).1 = true
  /\ Lenient.documents_ (Lenient.AddDocument document_id document status ratings self).2 =
     <[document_id :=
         DocumentData.mk (DocumentData.rating old) (DocumentData.status old)
           (DocumentData.words old ++ Lenient.splitIntoWordsNoStop self document)]>
       (Lenient.documents_ self).
Proof.
  intros Hdocument Hold. split.
  - unfold Lenient.AddDocument. destruct document; [congruence |].
    now destruct (Lenient.addDocumentData _ _ _ _ _).
  - now rewrite (Lenient_AddDocument_state self _ _ _ _ Hdocument), Hold.
Qed.

Lemma Lenient_AddDocument_merges_witness :
  Lenient.documents_ merged_server !! 1 = Some (DocumentData.mk 3 ACTUAL ["cat"; "dog"; "bird"]).
Proof.
  unfold merged_server.
  set (first := (Lenient.AddDocument 1 "cat dog" ACTUAL [3]
                   (Lenient.SetStopWords "the" Lenient.SearchServer_default)).2).
  destruct (Lenient_AddDocument_merges first 1 "the bird" ACTUAL [5]
              (DocumentData.mk 3 ACTUAL ["cat"; "dog"])) as [_ ->].
  - discriminate.
  - vm_compute. reflexivity.
  - rewrite lookup_insert_eq. vm_compute. reflexivity.
Defined.

(** X26: The index of the older server agrees with its documents in every
    state it can reach, also after documents were merged: the frequency it
    holds for a word and a document is [1 / n] added once per occurrence
    of the word among the [n] stored words of the document, and there is
    none for a word the document does not hold. *)
Theorem Lenient_index_consistent {F} `{FloatOps F} (self : Lenient.SearchServer F)
    word document_id :
  lenient_reachable self ->
  index_lookup (Lenient.word_to_document_freqs_ self) word document_id =
  (data ← Lenient.documents_ self !! document_id; summed_term_freq data word).
Proof. intros Hreach. exact (lenient_reachable_index_consistent self Hreach word document_id). Qed.

Lemma Lenient_index_consistent_witness :
  index_lookup (Lenient.word_to_document_freqs_ merged_server) "bird" 1
  = Some (0 + 1 / 3)%R
  /\ index_lookup (Lenient.word_to_document_freqs_ merged_server) "the" 1 = None.
Proof.
  assert (Hreach : lenient_reachable merged_server).
  { unfold merged_server. repeat constructor. }
  assert (Hdata : Lenient.documents_ merged_server !! 1
                  = Some (DocumentData.mk 3 ACTUAL ["cat"; "dog"; "bird"]))
    by (vm_compute; reflexivity).
  split.
  - rewrite (Lenient_index_consistent merged_server "bird" 1 Hreach), Hdata. reflexivity.
  - rewrite (Lenient_index_consistent merged_server "the" 1 Hreach), Hdata. reflexivity.
Defined.

(** ** Queries on the older server *)

Section LenientQueries.
Context {F : Type} `{FloatOps F}.
Implicit Types self : Lenient.SearchServer F.

Lemma for_each_ext {A S} (f g : S -> A -> outcome S) (l : list A) (s : S) :
  (forall s x, f s x = g s x) -> for_each f l s = for_each g l s.
Proof.
  intros Hfg. revert s. induction l as [|x l IH]; intros s; cbn [for_each]; [reflexivity |].
  rewrite Hfg. destruct (g s x); cbn; [apply IH | reflexivity].
Qed.

Lemma Lenient_addRelevance self fn inverse_document_freq (document_to_relevance : gmap Z F) entry :
  Lenient.addRelevance self fn inverse_document_freq document_to_relevance entry
  = addRelevance (as_validating self) fn inverse_document_freq document_to_relevance entry.
Proof.
  unfold Lenient.addRelevance, addRelevance, map_at. destruct entry as [document_id term_freq].
  cbn [as_validating documents_].
  destruct (Lenient.documents_ self !! document_id); reflexivity.
Qed.

Lemma Lenient_plusWord self fn (document_to_relevance : gmap Z F) word :
  Lenient.plusWord self fn document_to_relevance word
  = plusWord (as_validating self) fn document_to_relevance word.
Proof.
  unfold Lenient.plusWord, plusWord. cbn [as_validating word_to_document_freqs_].
  destruct (Lenient.word_to_document_freqs_ self !! word) as [freqs|]; [| reflexivity].
  change (Lenient.computeWordInverseDocumentFreq self word)
    with (computeWordInverseDocumentFreq (as_validating self) word).
  destruct (computeWordInverseDocumentFreq (as_validating self) word); [| reflexivity].
  cbn. apply for_each_ext. intros m entry. apply Lenient_addRelevance.
Qed.

(** The older server finds the documents as the validating server does. *)
Lemma Lenient_findAllDocuments self query fn :
  Lenient.findAllDocuments self query fn = findAllDocuments (as_validating self) query fn.
Proof.
  unfold Lenient.findAllDocuments, findAllDocuments.
  rewrite (for_each_ext _ (plusWord (as_validating self) fn))
    by (intros m word; apply Lenient_plusWord).
  reflexivity.
Qed.

Lemma Lenient_FindTopDocuments_unfold sort self raw_query fn :
  Lenient.FindTopDocuments sort self raw_query fn =
  (matched_documents ← findAllDocuments (as_validating self) (Lenient.parseQuery self raw_query) fn;
   mret (take 5 (sort byRelevance matched_documents))).
Proof.
  unfold Lenient.FindTopDocuments. rewrite Lenient_findAllDocuments.
  destruct (findAllDocuments _ _ _) as [matched|e]; [| reflexivity]. cbn.
  destruct (MAX_RESULT_DOCUMENT_COUNT <? _) eqn:Hmany; [reflexivity |].
  apply Z.ltb_ge in Hmany. unfold MAX_RESULT_DOCUMENT_COUNT in Hmany.
  now rewrite take_ge by lia.
Qed.

Lemma Lenient_parseQueryWord self token :
  Lenient.parseQueryWord self token
  = QueryWord.mk (strip_minus token) (is_minus_token token)
      (Lenient.isStopWord self (strip_minus token)).
Proof.
  destruct token as [|c rest]; [reflexivity |].
  unfold Lenient.parseQueryWord, strip_minus, is_minus_token.
  destruct (Ascii.eqb c "-"); [| reflexivity].
  cbn [String.length]. rewrite Nat.sub_succ, Nat.sub_0_r. cbn [substring].
  now rewrite substring_all.
Qed.

Lemma Lenient_addQueryWord self query token :
  Lenient.addQueryWord self query token =
  if negb (Lenient.isStopWord self (strip_minus token)) then
    if is_minus_token token then
      Query.mk (Query.plus_words query) (set_insert (strip_minus token) (Query.minus_words query))
    else
      Query.mk (set_insert (strip_minus token) (Query.plus_words query)) (Query.minus_words query)
  else query.
Proof. unfold Lenient.addQueryWord. now rewrite Lenient_parseQueryWord. Qed.

Lemma Lenient_parseQuery_loop_words self words query :
  (forall word,
     word ∈ Query.plus_words (fold_left (Lenient.addQueryWord self) words query) <->
     word ∈ Query.plus_words query \/
     (word ∈ words /\ is_minus_token word = false /\ Lenient.isStopWord self word = false)) /\
  (forall word,
     word ∈ Query.minus_words (fold_left (Lenient.addQueryWord self) words query) <->
     word ∈ Query.minus_words query \/
     (String "-" word ∈ words /\ Lenient.isStopWord self word = false)).
Proof.
  revert query. induction words as [|token rest IH]; intros query; cbn [fold_left].
  - split; intros word; rewrite elem_of_nil; tauto.
  - destruct (IH (Lenient.addQueryWord self query token)) as [Hplus Hminus]. clear IH.
    rewrite Lenient_addQueryWord in Hplus, Hminus |- *.
    assert (Hdash : forall x, is_minus_token (String "-" x) = true) by reflexivity.
    destruct (is_minus_token token) eqn:Hminus_token.
    + pose proof (strip_minus_minus _ Hminus_token) as Htoken.
      remember (strip_minus token) as w eqn:Hw. clear Hw Hminus_token. subst token.
      destruct (Lenient.isStopWord self w) eqn:Hstop;
        cbn [negb Query.plus_words Query.minus_words] in Hplus, Hminus;
        (split; intros word; [rewrite Hplus | rewrite Hminus];
         rewrite ?elem_of_set_insert, elem_of_cons;
         [specialize (Hdash w) |];
         intuition (simplify_eq; first [congruence | tauto | now auto])).
    + rewrite (strip_minus_plus _ Hminus_token) in *.
      assert (Hnodash : forall x, String "-" x <> token).
      { intros x <-. rewrite Hdash in Hminus_token. discriminate. }
      destruct (Lenient.isStopWord self token) eqn:Hstop;
        cbn [negb Query.plus_words Query.minus_words] in Hplus, Hminus;
        (split; intros word; [rewrite Hplus | rewrite Hminus];
         rewrite ?elem_of_set_insert, elem_of_cons;
         [| specialize (Hnodash word)];
         intuition (simplify_eq; first [congruence | tauto | now auto])).
Qed.

End LenientQueries.

(** X27: The older server takes every query: the plus words are the words of
    the text (as [SplitIntoWords] returns them, the empty word included)
    without a leading minus sign, the minus words its words after their
    minus sign, both without the stop words.  Nothing is checked: a lone
    minus sign makes the empty word a minus word. *)
Theorem Lenient_parseQuery_words {F} `{FloatOps F} (self : Lenient.SearchServer F) text :
  (forall word,
     word ∈ Query.plus_words (Lenient.parseQuery self text) <->
     word ∈ Lenient.SplitIntoWords text /\ is_minus_token word = false
     /\ Lenient.isStopWord self word = false)
  /\ (forall word,
        word ∈ Query.minus_words (Lenient.parseQuery self text) <->
        String "-" word ∈ Lenient.SplitIntoWords text /\ Lenient.isStopWord self word = false).
Proof.
  destruct (Lenient_parseQuery_loop_words self (Lenient.SplitIntoWords text) Query.empty)
    as [Hplus Hminus].
  split; intros word; [rewrite (Hplus word) | rewrite (Hminus word)];
    cbn [Query.empty Query.plus_words Query.minus_words]; rewrite elem_of_nil; tauto.
Qed.

(** X28: [FindTopDocuments] of the older server never throws in a state the
    server can reach, and returns at most five documents.  Within the
    contract of [std::sort] (the comparator is a strict weak ordering of
    the documents that match) it returns each document once, and each is a
    stored document that matches the query, with its stored rating. *)
Theorem Lenient_FindTopDocuments_returns {F} `{FloatOps F}
    (sort : (Document.t F -> Document.t F -> bool) -> list (Document.t F) -> list (Document.t F))
    (self : Lenient.SearchServer F) raw_query (fn : DocumentPredicate) :
  std_sort sort ->
  lenient_reachable self ->
  exists documents,
    Lenient.FindTopDocuments sort self raw_query fn = Returned documents /\
    (length documents <= 5)%nat /\
    (lenient_sort_within_contract self raw_query fn ->
     NoDup (Document.id <$> documents) /\
     forall document, document ∈ documents ->
       matches (as_validating self) (Lenient.parseQuery self raw_query) fn (Document.id document)
       /\ Document.rating document = stored_rating (as_validating self) (Document.id document)).
Proof.
  intros [Hperm _] Hreach. unfold lenient_sort_within_contract.
  rewrite Lenient_FindTopDocuments_unfold, Lenient_findAllDocuments.
  destruct (findAllDocuments_matches (as_validating self) (Lenient.parseQuery self raw_query) fn
              (lenient_reachable_index_consistent self Hreach))
    as (matched & -> & Hnodup & Hmatches & Hrating).
  eexists. split; [reflexivity |]. split; [rewrite length_take; lia |].
  intros Hswo. specialize (Hperm byRelevance matched Hswo). split.
  - rewrite fmap_take. eapply sublist_NoDup; [| apply sublist_take]. now rewrite Hperm.
  - intros document Hin%subseteq_take. rewrite Hperm in Hin. split.
    + apply Hmatches. now apply list_elem_of_fmap_2.
    + now apply Hrating.
Qed.

(** On [merged_server] document 1 alone matches "bird -fish": the call of
    [sort] keeps to the contract. *)
Lemma merged_server_within_contract :
  lenient_sort_within_contract merged_server "bird -fish" (fun _ _ _ => true).
Proof.
  unfold lenient_sort_within_contract.
  assert (Hfind : Lenient.findAllDocuments merged_server
                    (Lenient.parseQuery merged_server "bird -fish") (fun _ _ _ => true)
                  = Returned [Document.mk 1 (0 + (0 + 1 / 3) * ln (1 * 1 / 1))%R 3])
    by (vm_compute; reflexivity).
  rewrite Hfind. apply byRelevance_strict_weak_order, well_separated_singleton.
Qed.

Lemma Lenient_FindTopDocuments_returns_witness :
  exists documents,
    Lenient.FindTopDocuments insertion_sort merged_server "bird -fish" (fun _ _ _ => true)
      = Returned documents /\
    (length documents <= 5)%nat /\
    NoDup (Document.id <$> documents) /\
    forall document, document ∈ documents ->
      matches (as_validating merged_server) (Lenient.parseQuery merged_server "bird -fish")
        (fun _ _ _ => true) (Document.id document)
      /\ Document.rating document
         = stored_rating (as_validating merged_server) (Document.id document).
Proof.
  destruct (Lenient_FindTopDocuments_returns insertion_sort merged_server "bird -fish"
              (fun _ _ _ => true) insertion_sort_std_sort
              ltac:(unfold merged_server; repeat constructor))
    as (documents & Hcall & Hlength & Hwithin).
  exists documents. split; [exact Hcall |]. split; [exact Hlength |].
  exact (Hwithin merged_server_within_contract).
Defined.

(** * The test framework *)

Section PrintFacts.
Context {A : Type} (insert : string -> A -> string) (show : A -> string).
Hypothesis insert_appends : forall out element, insert out element = out +:+ show element.

Lemma concat_empty_cons (a : string) (l : list string) :
  String.concat "" (a :: l) = a +:+ String.concat "" l.
Proof.
  destruct l as [|b l]; [cbn; now rewrite append_empty_r |].
  rewrite concat_cons by discriminate. now rewrite append_empty_l.
Qed.

Lemma Print_loop_later out (container : list A) :
  (fold_left
     (fun (state : bool * string) element =>
        let '(first, out) := state in
        if first then (false, insert out element)
        else (false, insert (out +:+ ", ") element))
     container (false, out)).2
  = out +:+ String.concat "" (map (fun element => ", " +:+ show element) container).
Proof.
  revert out. induction container as [|x container IH]; intros out; cbn [fold_left map].
  - cbn. now rewrite append_empty_r.
  - now rewrite IH, insert_appends, concat_empty_cons, !append_assoc.
Qed.

Lemma concat_separated x (container : list A) :
  show x +:+ String.concat "" (map (fun element => ", " +:+ show element) container)
  = String.concat ", " (map show (x :: container)).
Proof.
  revert x. induction container as [|y container IH]; intros x.
  - cbn. now rewrite append_empty_r.
  - cbn [map]. rewrite concat_empty_cons, (concat_cons ", " (show x)) by discriminate.
    change (show y :: map show container) with (map show (y :: container)).
    rewrite <- (IH y). now rewrite !append_assoc.
Qed.

Lemma Print_concat out (container : list A) :
  TestFramework.Print insert out container = out +:+ String.concat ", " (map show container).
Proof.
  unfold TestFramework.Print. destruct container as [|x container]; cbn [fold_left].
  - cbn. now rewrite append_empty_r.
  - now rewrite Print_loop_later, insert_appends, append_assoc, concat_separated.
Qed.

End PrintFacts.

Lemma equal_prefix {A} `{EqDecision A} (range1 range2 : list A) :
  TestFramework.equal range1 range2 = Some true <-> range1 `prefix_of` range2.
Proof.
  revert range2. induction range1 as [|x range1 IH]; intros range2; cbn [TestFramework.equal].
  - split; [intros _; apply prefix_nil | reflexivity].
  - destruct range2 as [|y range2].
    + split; [discriminate | intros []%prefix_nil_not].
    + destruct (decide (x = y)) as [-> | Hxy].
      * rewrite bool_decide_eq_true_2 by reflexivity. rewrite IH. split.
        -- apply prefix_cons.
        -- apply prefix_cons_inv_2.
      * rewrite bool_decide_eq_false_2 by assumption. split; [discriminate |].
        intros Hprefix%prefix_cons_inv_1. contradiction.
Qed.

(** X29: The containers are written element by element: for elements whose
    [operator<<] appends their text, a [vector] is written as its elements
    separated by ", " between square brackets, a [set] likewise between
    braces, and a [map] as its entries [key: value] between braces; an
    empty container is written as the brackets alone. *)
Theorem containers_written_with_separators :
  (forall {A} (insert : string -> A -> string) (show : A -> string) out container,
     (forall out element, insert out element = out +:+ show element) ->
     TestFramework.insert_vector insert out container
     = out +:+ "[" +:+ String.concat ", " (map show container) +:+ "]"
     /\ TestFramework.insert_set insert out container
        = out +:+ "{" +:+ String.concat ", " (map show container) +:+ "}")
  /\ (forall {K V} (insert_key : string -> K -> string) (insert_value : string -> V -> string)
        (show_key : K -> string) (show_value : V -> string) out container,
        (forall out key, insert_key out key = out +:+ show_key key) ->
        (forall out value, insert_value out value = out +:+ show_value value) ->
        TestFramework.insert_map insert_key insert_value out container
        = out +:+ "{"
              +:+ String.concat ", "
                    (map (fun entry : K * V => show_key entry.1 +:+ ": " +:+ show_value entry.2)
                       container)
              +:+ "}").
Proof.
  split.
  - intros A insert show out container Hinsert.
    unfold TestFramework.insert_vector, TestFramework.insert_set.
    rewrite !(Print_concat insert show Hinsert). now rewrite !append_assoc.
  - intros K V insert_key insert_value show_key show_value out container Hkey Hvalue.
    unfold TestFramework.insert_map.
    rewrite (Print_concat (TestFramework.insert_pair insert_key insert_value)
               (fun entry : K * V => show_key entry.1 +:+ ": " +:+ show_value entry.2)).
    + now rewrite !append_assoc.
    + intros out' [key value]. unfold TestFramework.insert_pair. cbn [fst snd].
      now rewrite Hkey, Hvalue, !append_assoc.
Qed.

Example insert_vector_ratings :
  TestFramework.insert_vector (fun out (rating : Z) => out +:+ pretty rating) "ratings: " [8; -3; 5]
  = "ratings: [8, -3, 5]".
Proof. vm_compute. reflexivity. Qed.

(** X30: [ASSERT_EQUAL] on two vectors looks at a prefix only: it passes if
    and only if the first vector is a prefix of the second, so also when
    the second has more elements. *)
Theorem AssertEqualImpl_vector_accepts_prefix {A} `{EqDecision A}
    (insert : string -> A -> string) (t u : list A)
    (t_str u_str file func : string) (line : N) (hint cerr : string) :
  TestFramework.AssertEqualImpl_vector insert t u t_str u_str file func line hint cerr
    = Some TestFramework.Passes
  <-> t `prefix_of` u.
Proof.
  rewrite <- equal_prefix. unfold TestFramework.AssertEqualImpl_vector.
  destruct (TestFramework.equal t u) as [[|]|]; cbn; split; try discriminate; reflexivity.
Qed.

Example AssertEqualImpl_vector_longer :
  TestFramework.AssertEqualImpl_vector (fun out (word : string) => out +:+ word)
    ["cat"] ["cat"; "city"] "words" "expected" "Source1.cpp" "TestMatch" 667 "" ""
  = Some TestFramework.Passes.
Proof. vm_compute. reflexivity. Qed.

(** * The usage example *)

(** The first server of [main] takes the first and the last of the five
    documents, and reports the three others. *)
Example main_first_block :
  exists search_server,
    SearchServer_ofStopWordsText "и в на" = Returned search_server
    /\ document_ids_ (main_AddDocuments search_server "").1 = [1; 4]
    /\ (main_AddDocuments search_server "").2 =
       "Ошибка добавления документа 1: Bad document id" +:+ endl +:+
       "Ошибка добавления документа -1: Bad document id" +:+ endl +:+
       "Ошибка добавления документа 3: Bad document data" +:+ endl
    /\ Usage.MatchDocuments (main_AddDocuments search_server "").1 "пушистый пёс" "" =
       Some ("Матчинг документов по запросу: пушистый пёс" +:+ endl +:+
             "{ document_id = 1, status = 0, words = пушистый}" +:+ endl +:+
             "{ document_id = 4, status = 0, words = пёс}" +:+ endl)
    /\ Usage.MatchDocuments (main_AddDocuments search_server "").1 "модный --пёс" "" =
       Some ("Матчинг документов по запросу: модный --пёс" +:+ endl +:+
             "Ошибка матчинга документов на запрос модный --пёс: Bad query" +:+ endl)
    /\ Usage.MatchDocuments (main_AddDocuments search_server "").1 "пушистый - хвост" "" =
       Some ("Матчинг документов по запросу: пушистый - хвост" +:+ endl +:+
             "Ошибка матчинга документов на запрос пушистый - хвост: Bad query" +:+ endl).
Proof.
  eexists. split; [vm_compute; reflexivity |].
  repeat split; vm_compute; reflexivity.
Qed.

(** [SetStopWords] stops at the first word that is not valid: the words
    before it are stop words, the words after it are not. *)
Example SetStopWords_not_atomic :
  (SetStopWords ["in"; "the"; "4x"; "on"] (SearchServer_default (F := R))).1
    = Thrown (invalid_argument "Bad stop word")
  /\ isStopWord (SetStopWords ["in"; "the"; "4x"; "on"] (SearchServer_default (F := R))).2 "the"
     = true
  /\ isStopWord (SetStopWords ["in"; "the"; "4x"; "on"] (SearchServer_default (F := R))).2 "on"
     = false.
Proof. repeat split; vm_compute; reflexivity. Qed.
